(** * Adgent SDK: VAST resolver, tracking dispatcher and playback orchestrator

    A shallow embedding of [src/core/VASTParser.ts], [src/core/AdTracker.ts],
    [src/core/AdPlayer.ts] and [src/utils/macros.ts], followed by the
    properties stated about them.

    Conventions of the embedding:
    - a JavaScript string is a [string] of bytes (UTF-8);
    - integral JavaScript numbers are [Z], fractional ones are exact
      rationals [Q]; binary floating-point rounding is not represented;
    - [Map] is a [gmap], [Set<string>] a [gset];
    - observable effects (pixel deliveries, listener notifications, calls of
      the configured callbacks, document fetches) are appended to a trace. *)

From Stdlib Require Import ZArith QArith Qround Lia Ascii String.
From stdpp Require Import base option list gmap strings pretty.

Local Open Scope Z_scope.

(** ** JavaScript string primitives *)

Module Js.

(** [s.startsWith(p)] *)
Definition startsWith (p s : string) : bool := String.prefix p s.

(** [s.includes(q)] *)
Fixpoint includes (q s : string) : bool :=
  String.prefix q s ||
  match s with
  | EmptyString => false
  | String _ s' => includes q s'
  end.

(** [s.endsWith(q)] *)
Fixpoint endsWith (q s : string) : bool :=
  String.eqb s q ||
  match s with
  | EmptyString => false
  | String _ s' => endsWith q s'
  end.

(** [s.substring(n)] *)
Fixpoint dropStr (n : nat) (s : string) : string :=
  match n, s with
  | O, _ => s
  | S _, EmptyString => EmptyString
  | S k, String _ s' => dropStr k s'
  end.

(** [s.padStart(n, "0")] *)
Definition padStart0 (n : nat) (s : string) : string :=
  String.concat "" (replicate (n - String.length s)%nat "0") +:+ s.

(** ECMAScript [GetSubstitution] for a pattern without capture groups:
    expansion of the [$] escapes of a replacement template at one match.
    [before] and [after] are the parts of the subject string on either side
    of the match. *)
Fixpoint getSubstitution (matched before after template : string) : string :=
  match template with
  | EmptyString => EmptyString
  | String c rest =>
      if Ascii.eqb c "$" then
        match rest with
        | String d rest' =>
            if Ascii.eqb d "$" then String "$" (getSubstitution matched before after rest')
            else if Ascii.eqb d "&" then matched +:+ getSubstitution matched before after rest'
            else if Ascii.eqb d "`" then before +:+ getSubstitution matched before after rest'
            else if Ascii.eqb d "'" then after +:+ getSubstitution matched before after rest'
            else String "$" (getSubstitution matched before after rest)
        | EmptyString => String "$" EmptyString
        end
      else String c (getSubstitution matched before after rest)
  end.

(** [s.replace(/pat/g, template)] for a literal, non-empty pattern [pat]:
    left-to-right scan, non-overlapping matches.  [skip] counts the
    characters of the current match still to be consumed and [before]
    is the part of the subject already scanned. *)
Fixpoint replaceAll_go (pat template : string) (skip : nat)
         (before s : string) : string :=
  match s with
  | EmptyString => EmptyString
  | String c s' =>
      match skip with
      | S k => replaceAll_go pat template k (before +:+ String c EmptyString) s'
      | O =>
          if String.prefix pat s then
            getSubstitution pat before (dropStr (String.length pat) s) template
            +:+ replaceAll_go pat template (String.length pat - 1)
                  (before +:+ String c EmptyString) s'
          else
            String c (replaceAll_go pat template 0
                        (before +:+ String c EmptyString) s')
      end
  end.

Definition replaceAll (pat template s : string) : string :=
  replaceAll_go pat template 0 EmptyString s.

(** Hexadecimal digit, upper case. *)
Definition hexDigit (n : N) : ascii :=
  match n with
  | 0 => "0" | 1 => "1" | 2 => "2" | 3 => "3" | 4 => "4" | 5 => "5"
  | 6 => "6" | 7 => "7" | 8 => "8" | 9 => "9" | 10 => "A" | 11 => "B"
  | 12 => "C" | 13 => "D" | 14 => "E" | _ => "F"
  end%N%char.

Definition isDigit (c : ascii) : bool :=
  let n := N_of_ascii c in ((48 <=? n) && (n <=? 57))%N.

Definition isAlpha (c : ascii) : bool :=
  let n := N_of_ascii c in
  (((65 <=? n) && (n <=? 90)) || ((97 <=? n) && (n <=? 122)))%N.

(** Characters [encodeURIComponent] leaves alone:
    [A-Z a-z 0-9 - _ . ! ~ * ' ( )]. *)
Definition uriUnreserved (c : ascii) : bool :=
  isAlpha c || isDigit c ||
  existsb (Ascii.eqb c) ["-"; "_"; "."; "!"; "~"; "*"; "'"; "("; ")"]%char.

(** [encodeURIComponent(s)]: every other byte becomes [%XX]. *)
Fixpoint encodeURIComponent (s : string) : string :=
  match s with
  | EmptyString => EmptyString
  | String c s' =>
      if uriUnreserved c then String c (encodeURIComponent s')
      else
        let n := N_of_ascii c in
        String "%" (String (hexDigit (n / 16)) (String (hexDigit (n mod 16))
          (encodeURIComponent s')))
  end.

(** [Math.trunc] and the remainder operator [%] on rationals. *)
Definition trunc (q : Q) : Z := Z.quot (Qnum q) (Zpos (Qden q)).
Definition rem (q m : Q) : Q := (q - m * inject_Z (trunc (q / m)))%Q.

End Js.

(** ** JavaScript numbers, [parseFloat] and [parseInt] *)

Module Num.

(** A number as [parseDuration] can return it: finite (an exact rational;
    rounding to a double is not represented), infinite, or [NaN]. *)
Inductive JsNum : Type :=
| Fin (q : Q)
| PosInf
| NegInf
| NaN.

Definition ofZ (z : Z) : JsNum := Fin (inject_Z z).

(** Truthiness of a number: [0] and [NaN] are falsy. *)
Definition truthy (n : JsNum) : bool :=
  match n with
  | Fin q => negb (Qeq_bool q 0)
  | PosInf | NegInf => true
  | NaN => false
  end.

(** [a + b] *)
Definition add (a b : JsNum) : JsNum :=
  match a, b with
  | NaN, _ | _, NaN => NaN
  | Fin x, Fin y => Fin (Qred (x + y))
  | PosInf, NegInf | NegInf, PosInf => NaN
  | PosInf, _ | _, PosInf => PosInf
  | NegInf, _ | _, NegInf => NegInf
  end.

(** [a * k] for a positive integer constant [k] *)
Definition mulPos (a : JsNum) (k : positive) : JsNum :=
  match a with
  | Fin x => Fin (Qred (x * inject_Z (Zpos k)))
  | other => other
  end.

(** [a / k] for a positive integer constant [k] *)
Definition divPos (a : JsNum) (k : positive) : JsNum :=
  match a with
  | Fin x => Fin (Qred (x / inject_Z (Zpos k)))
  | other => other
  end.

Definition neg (a : JsNum) : JsNum :=
  match a with
  | Fin x => Fin (Qred (- x))
  | PosInf => NegInf
  | NegInf => PosInf
  | NaN => NaN
  end.

(** Longest prefix of decimal digits, and what follows it. *)
Fixpoint spanDigits (s : string) : string * string :=
  match s with
  | EmptyString => (EmptyString, EmptyString)
  | String c s' =>
      if Js.isDigit c then
        let '(d, r) := spanDigits s' in (String c d, r)
      else (EmptyString, s)
  end.

(** Value of a string of decimal digits. *)
Definition digitsValue (d : string) : Z :=
  fold_left (fun acc c => 10 * acc + (Z.of_N (N_of_ascii c) - 48))
            (list_ascii_of_string d) 0.

Fixpoint skipWhite (s : string) : string :=
  match s with
  | String c s' => if Ascii.is_space c then skipWhite s' else s
  | EmptyString => EmptyString
  end.

(** Optional sign: [(negative, rest)]. *)
Definition takeSign (s : string) : bool * string :=
  match s with
  | String c s' =>
      if Ascii.eqb c "-" then (true, s')
      else if Ascii.eqb c "+" then (false, s')
      else (false, s)
  | EmptyString => (false, s)
  end.

(** Optional exponent part [[eE][+-]?\d+]; [0] when there is none. *)
Definition exponent (s : string) : Z :=
  match s with
  | String c s' =>
      if Ascii.eqb c "e" || Ascii.eqb c "E" then
        let '(sg, s'') := takeSign s' in
        let '(d, _) := spanDigits s'' in
        match d with
        | EmptyString => 0
        | _ => if sg then - digitsValue d else digitsValue d
        end
      else 0
  | EmptyString => 0
  end.

(** [parseFloat(s)]: the longest prefix of the trimmed input that is a
    [StrDecimalLiteral]; [NaN] when there is none. *)
Definition parseFloat (s : string) : JsNum :=
  let '(sg, s1) := takeSign (skipWhite s) in
  let signed (n : JsNum) := if sg then neg n else n in
  if String.prefix "Infinity" s1 then signed PosInf
  else
    let '(ip, r1) := spanDigits s1 in
    let '(fp, r2) :=
      match r1 with
      | String c r1' => if Ascii.eqb c "." then spanDigits r1' else (EmptyString, r1)
      | EmptyString => (EmptyString, r1)
      end in
    match ip, fp with
    | EmptyString, EmptyString => NaN
    | _, _ =>
        let mant :=
          (inject_Z (digitsValue ip)
           + inject_Z (digitsValue fp) / inject_Z (10 ^ Z.of_nat (String.length fp)))%Q in
        signed (Fin (Qred (mant * Qpower (inject_Z 10) (exponent r2))))
    end.

(** [parseInt(s, 10)] *)
Definition parseInt10 (s : string) : JsNum :=
  let '(sg, s1) := takeSign (skipWhite s) in
  let '(d, _) := spanDigits s1 in
  match d with
  | EmptyString => NaN
  | _ => if sg then neg (ofZ (digitsValue d)) else ofZ (digitsValue d)
  end.

(** [a <= 0] *)
Definition leZero (a : JsNum) : bool :=
  match a with
  | Fin q => Qle_bool q 0
  | NegInf => true
  | PosInf | NaN => false
  end.

End Num.

(** ** Macro replacement ([src/utils/macros.ts]) *)

Module Macros.

(** [MacroContext]: every field is optional. *)
Record MacroContext : Type := mkMacroContext {
  assetUri : option string;
  contentPlayhead : option Q;
  adPlayhead : option Q;
  errorCode : option Z;
  breakPosition : option Z;
  adType : option string
}.

(** The empty object [{}]. *)
Definition emptyContext : MacroContext :=
  mkMacroContext None None None None None None.

(** [{ ...a, ...b }]: fields present in [b] override those of [a]. *)
Definition mergeContext (a b : MacroContext) : MacroContext :=
  {| assetUri := match assetUri b with Some x => Some x | None => assetUri a end;
     contentPlayhead :=
       match contentPlayhead b with Some x => Some x | None => contentPlayhead a end;
     adPlayhead := match adPlayhead b with Some x => Some x | None => adPlayhead a end;
     errorCode := match errorCode b with Some x => Some x | None => errorCode a end;
     breakPosition :=
       match breakPosition b with Some x => Some x | None => breakPosition a end;
     adType := match adType b with Some x => Some x | None => adType a end |}.

(** Truthiness of an optional string: [undefined] and [""] are falsy. *)
Definition truthyStr (o : option string) : option string :=
  match o with
  | Some EmptyString => None
  | other => other
  end.

(** [formatPlayhead(seconds)]: [HH:MM:SS.mmm] *)
Definition formatPlayhead (seconds : Q) : string :=
  let hours := Qfloor (seconds / 3600) in
  let minutes := Qfloor (Js.rem seconds 3600 / 60) in
  let secs := Qfloor (Js.rem seconds 60) in
  let ms := Qfloor (Js.rem seconds 1 * 1000) in
  Js.padStart0 2 (pretty hours) +:+ ":" +:+
  Js.padStart0 2 (pretty minutes) +:+ ":" +:+
  Js.padStart0 2 (pretty secs) +:+ "." +:+
  Js.padStart0 3 (pretty ms).

(** One conditional step: [if (present) result = result.replace(/tok/g, v)]. *)
Definition replaceWhen (tok : string) (v : option string) (s : string) : string :=
  match v with
  | Some x => Js.replaceAll tok x s
  | None => s
  end.

(** [replaceMacros(url, context)].  [now] is the value of [Date.now()]
    and [rnd] that of [Math.random().toString(36).substring(2, 15)] read
    by this call. *)
Definition replaceMacros (url : string) (context : MacroContext)
           (now : Z) (rnd : string) : string :=
  let result := url in
  let result := Js.replaceAll "[TIMESTAMP]" (pretty now) result in
  let result := Js.replaceAll "[CACHEBUSTING]" rnd result in
  let result :=
    replaceWhen "[ASSETURI]"
      (Js.encodeURIComponent <$> truthyStr (assetUri context)) result in
  let result :=
    replaceWhen "[CONTENTPLAYHEAD]"
      (formatPlayhead <$> contentPlayhead context) result in
  let result :=
    replaceWhen "[ADPLAYHEAD]" (formatPlayhead <$> adPlayhead context) result in
  let result :=
    replaceWhen "[ERRORCODE]" (pretty <$> errorCode context) result in
  let result :=
    replaceWhen "[BREAKPOSITION]" (pretty <$> breakPosition context) result in
  let result := replaceWhen "[ADTYPE]" (truthyStr (adType context)) result in
  result.

End Macros.

(** ** VAST data model ([src/types/vast.ts]) *)

Module Vast.

(** [TrackingEvent]; event types are kept as the strings found in the
    document. *)
Record TrackingEvent : Type := mkTrackingEvent {
  event : string;
  te_url : string;
  te_offset : option Num.JsNum
}.

Record Impression : Type := mkImpression {
  imp_id : option string;
  imp_url : string
}.

Record MediaFile : Type := mkMediaFile {
  mf_url : string;
  delivery : string;
  type : string;
  width : Z;
  height : Z;
  bitrate : option Z;
  codec : option string
}.

Record Linear : Type := mkLinear {
  duration : Num.JsNum;
  skipOffset : option Num.JsNum;
  mediaFiles : list MediaFile;
  trackingEvents : list TrackingEvent;
  clickThrough : option string
}.

Record Creative : Type := mkCreative {
  cr_id : option string;
  cr_sequence : option Z;
  adId : option string;
  linear : option Linear
}.

Record Wrapper : Type := mkWrapper {
  vastAdTagURI : string;
  followAdditionalWrappers : bool;
  allowMultipleAds : bool;
  fallbackOnNoAd : bool
}.

(** [Ad]; the [inLine] member repeats title and creatives and is not read
    by the code below, so only its presence is kept. *)
Record Ad : Type := mkAd {
  ad_id : string;
  ad_sequence : option Z;
  impressions : list Impression;
  creatives : list Creative;
  errors : list string;
  wrapper : option Wrapper;
  inLine : bool
}.

Record VASTResponse : Type := mkVASTResponse {
  version : string;
  ads : list Ad;
  vr_errors : list string
}.

(** [VASTErrorCode] *)
Definition XML_PARSING_ERROR : Z := 100.
Definition VAST_SCHEMA_VALIDATION_ERROR : Z := 101.
Definition VAST_VERSION_NOT_SUPPORTED : Z := 102.
Definition GENERAL_WRAPPER_ERROR : Z := 300.
Definition WRAPPER_TIMEOUT : Z := 301.
Definition WRAPPER_LIMIT_REACHED : Z := 302.
Definition NO_VAST_RESPONSE : Z := 303.
Definition GENERAL_LINEAR_ERROR : Z := 400.
Definition FILE_NOT_FOUND : Z := 401.
Definition MEDIA_TIMEOUT : Z := 402.
Definition MEDIA_NOT_SUPPORTED : Z := 403.
Definition GENERAL_COMPANION_ERROR : Z := 600.
Definition UNDEFINED_ERROR : Z := 900.

End Vast.

(** ** The resolver ([src/core/VASTParser.ts]) *)

Module VASTParser.
Import Vast.

(** *** Values and exceptions *)

(** A value of type [unknown] handed to [parseDuration]. *)
Inductive JsVal : Type :=
| VNum (n : Num.JsNum)
| VStr (s : string)
| VOther.

(** What a [catch] clause can receive: an [Error] with its message, or
    any other thrown value. *)
Inductive Thrown : Type :=
| ErrorObj (message : string)
| NonError.

Inductive Completion (A : Type) : Type :=
| Return (a : A)
| Throw (e : Thrown).
Arguments Return {A} a.
Arguments Throw {A} e.

(** *** Duration parsing *)

(** One attempt of [/(\d+):(\d+):(\d+(?:\.\d+)?)/] at the start of [s]:
    the three captured groups.  Each [\d+] is greedy and is followed by a
    non-digit, so it takes the whole run of digits. *)
Definition matchHMSAt (s : string) : option (string * string * string) :=
  let '(h, r1) := Num.spanDigits s in
  match h, r1 with
  | String _ _, String c1 r2 =>
      if Ascii.eqb c1 ":" then
        let '(m, r3) := Num.spanDigits r2 in
        match m, r3 with
        | String _ _, String c2 r4 =>
            if Ascii.eqb c2 ":" then
              let '(sec, r5) := Num.spanDigits r4 in
              match sec with
              | String _ _ =>
                  match r5 with
                  | String c3 r6 =>
                      if Ascii.eqb c3 "." then
                        match Num.spanDigits r6 with
                        | (String f0 f, _) =>
                            Some (h, m, sec +:+ "." +:+ String f0 f)
                        | _ => Some (h, m, sec)
                        end
                      else Some (h, m, sec)
                  | EmptyString => Some (h, m, sec)
                  end
              | EmptyString => None
              end
            else None
        | _, _ => None
        end
      else None
  | _, _ => None
  end.

(** [duration.match(...)]: the leftmost position where the pattern
    matches. *)
Fixpoint matchHMS (s : string) : option (string * string * string) :=
  match matchHMSAt s with
  | Some r => Some r
  | None =>
      match s with
      | EmptyString => None
      | String _ s' => matchHMS s'
      end
  end.

(** [parseDuration(duration)] *)
Definition parseDuration (duration : JsVal) : Num.JsNum :=
  match duration with
  | VNum n => n
  | VOther => Num.ofZ 0
  | VStr s =>
      if Js.endsWith "%" s then Num.divPos (Num.parseFloat s) 100
      else
        match matchHMS s with
        | Some (hours, minutes, seconds) =>
            Num.add
              (Num.add (Num.mulPos (Num.parseInt10 hours) 3600)
                       (Num.mulPos (Num.parseInt10 minutes) 60))
              (Num.parseFloat seconds)
        | None =>
            let n := Num.parseFloat s in
            if Num.truthy n then n else Num.ofZ 0
        end
  end.

(** *** Media file selection *)

(** Stable insertion of [x], which precedes every element of [l] in the
    original order, into the sorted list [l]. *)
Fixpoint insertBy {A} (cmp : A -> A -> Z) (x : A) (l : list A) : list A :=
  match l with
  | [] => [x]
  | y :: l' => if cmp x y <=? 0 then x :: l else y :: insertBy cmp x l'
  end.

(** [[...l].sort(cmp)]: a stable sort. *)
Definition sortBy {A} (cmp : A -> A -> Z) (l : list A) : list A :=
  foldr (insertBy cmp) [] l.

Definition isMp4 (mf : MediaFile) : bool :=
  Js.includes "mp4" (type mf) || Js.includes "video/mp4" (type mf).

(** [Math.abs((mf.bitrate || 0) - targetBitrate) + (mf.height > 1080 ? 10000 : 0)] *)
Definition score (targetBitrate : Z) (mf : MediaFile) : Z :=
  let aBitrate := default 0 (bitrate mf) in
  let aPenalty := if height mf >? 1080 then 10000 else 0 in
  Z.abs (aBitrate - targetBitrate) + aPenalty.

Definition candidatesOf (mediaFiles : list MediaFile) : list MediaFile :=
  let mp4Files := filter (fun mf => isMp4 mf = true) mediaFiles in
  if (0 <? length mp4Files)%nat then mp4Files else mediaFiles.

(** [selectBestMediaFile(mediaFiles, targetBitrate)] *)
Definition selectBestMediaFile (mediaFiles : list MediaFile)
           (targetBitrate : Z) : option MediaFile :=
  if (length mediaFiles =? 0)%nat then None
  else
    let candidates := candidatesOf mediaFiles in
    let sorted :=
      sortBy (fun a b => score targetBitrate a - score targetBitrate b)
             candidates in
    head sorted.

(** *** Wrapper merging *)

(** [getWrapperTrackingEvents(wrapper)] *)
Definition getWrapperTrackingEvents (wrapper : Ad) : list TrackingEvent :=
  foldl (fun events creative =>
           match linear creative with
           | Some l => events ++ trackingEvents l
           | None => events
           end) [] (creatives wrapper).

(** [mergeWrapperTracking(wrapper, nested)] *)
Definition mergeWrapperTracking (wrapper nested : Ad) : Ad :=
  {| ad_id := ad_id nested;
     ad_sequence := ad_sequence nested;
     impressions := impressions wrapper ++ impressions nested;
     errors := errors wrapper ++ errors nested;
     creatives :=
       map (fun creative =>
              {| cr_id := cr_id creative;
                 cr_sequence := cr_sequence creative;
                 adId := adId creative;
                 linear :=
                   match linear creative with
                   | Some l =>
                       Some {| duration := duration l;
                               skipOffset := skipOffset l;
                               mediaFiles := mediaFiles l;
                               trackingEvents :=
                                 getWrapperTrackingEvents wrapper
                                 ++ trackingEvents l;
                               clickThrough := clickThrough l |}
                   | None => None
                   end |})
           (creatives nested);
     wrapper := Vast.wrapper nested;
     inLine := inLine nested |}.

(** [aggregateTrackingEvents(ads)] *)
Definition aggregateTrackingEvents (ads : list Ad) : list TrackingEvent :=
  foldl (fun events ad =>
           foldl (fun events creative =>
                    match linear creative with
                    | Some l => events ++ trackingEvents l
                    | None => events
                    end) events (creatives ad)) [] ads.

(** [aggregateImpressions(ads)] *)
Definition aggregateImpressions (ads : list Ad) : list string :=
  foldl (fun urls ad =>
           foldl (fun urls impression => urls ++ [imp_url impression])
                 urls (impressions ad)) [] ads.

(** *** Fetching and wrapper resolution *)

(** [VASTParserConfig] as the constructor receives it, and with the
    defaults filled in. *)
Record VASTParserConfig : Type := mkVASTParserConfig {
  cfg_maxWrapperDepth : option Z;
  cfg_timeout : option Z;
  cfg_debug : option bool
}.

Record Config : Type := mkConfig {
  maxWrapperDepth : Z;
  timeout : Z;
  debug : bool
}.

Definition construct (config : VASTParserConfig) : Config :=
  {| maxWrapperDepth := default 5 (cfg_maxWrapperDepth config);
     timeout := default 10000 (cfg_timeout config);
     debug := default false (cfg_debug config) |}.

(** How a call of [fetchFn(url, { signal })] ends: the promise rejects
    (network failure, or the abort fired by the timeout), or it resolves
    to a response. *)
Inductive FetchOutcome : Type :=
| Rejected (e : Thrown)
| Response (ok : bool) (status : Z) (statusText : string) (text : string).

(** The [VAST] member of the object built by the XML parser, with its
    [Ad] and [Error] children already projected to the data model. *)
Record VastElement : Type := mkVastElement {
  ve_version : option string;
  ve_ads : list Ad;
  ve_errors : list string
}.

(** How [xmlParser.parse(xml)] ends: it throws, or it returns a document
    object whose [VAST] member may be missing. *)
Inductive XmlOutcome : Type :=
| XmlThrows (e : Thrown)
| XmlDoc (vast : option VastElement).

(** The collaborators of the resolver: the transport and the XML
    library. *)
Record Host : Type := mkHost {
  fetchFn : string -> FetchOutcome;
  xmlParser : string -> XmlOutcome
}.

(** [fetchWithTimeout(url)] *)
Definition fetchWithTimeout (host : Host) (url : string) : Completion string :=
  match fetchFn host url with
  | Rejected e => Throw e
  | Response ok status statusText text =>
      if negb ok then
        Throw (ErrorObj ("HTTP " +:+ pretty status +:+ ": " +:+ statusText))
      else Return text
  end.

(** [parseXml(xml)] *)
Definition parseXml (host : Host) (xml : string) : Completion VASTResponse :=
  match xmlParser host xml with
  | XmlThrows e => Throw e
  | XmlDoc None => Throw (ErrorObj "Invalid VAST: missing VAST element")
  | XmlDoc (Some vast) =>
      Return {| version := default "4.0" (Macros.truthyStr (ve_version vast));
                ads := ve_ads vast;
                vr_errors := ve_errors vast |}
  end.

(** A resolution step yields the URLs it fetched, in order, and its
    completion. *)
Definition Outcome (A : Type) : Type := (list string * Completion A)%type.

(** [resolveWrapper(wrapperAd, depth)], with the recursive call of
    [fetchAndParse] at that depth passed as [nested]. *)
Definition resolveWrapper_with
           (nested : string -> Outcome VASTResponse)
           (wrapperAd : Ad) : Outcome (list Ad) :=
  match Vast.wrapper wrapperAd with
  | None => ([], Return [wrapperAd])
  | Some w =>
      if String.eqb (vastAdTagURI w) "" then ([], Return [wrapperAd])
      else
        match nested (vastAdTagURI w) with
        | (fetched, Return nestedResponse) =>
            (fetched,
             Return (map (mergeWrapperTracking wrapperAd) (ads nestedResponse)))
        | (fetched, Throw error) =>
            if fallbackOnNoAd w then (fetched, Return [])
            else (fetched, Throw error)
        end
  end.

(** [ad.wrapper?.vastAdTagURI] is truthy. *)
Definition hasWrapperURI (ad : Ad) : bool :=
  match Vast.wrapper ad with
  | Some w => negb (String.eqb (vastAdTagURI w) "")
  | None => false
  end.

(** [Promise.all(...)] followed by [.flat()]: every sibling runs to its
    end; the call fails if one of them failed.  Siblings are taken in
    document order here; the interleaving of concurrent siblings is not
    represented. *)
Fixpoint allFlat (rs : list (Outcome (list Ad))) : Outcome (list Ad) :=
  match rs with
  | [] => ([], Return [])
  | (fetched, c) :: rest =>
      let '(fetched', c') := allFlat rest in
      (fetched ++ fetched',
       match c, c' with
       | Throw e, _ => Throw e
       | Return _, Throw e => Throw e
       | Return xs, Return ys => Return (xs ++ ys)
       end)
  end.

(** [fetchAndParse(url, depth)], by recursion on the number
    [remaining = maxWrapperDepth - depth] of levels still allowed; it is
    [0] exactly when [depth >= maxWrapperDepth]. *)
Fixpoint fetchAndParse_rec (host : Host) (config : Config)
         (remaining : nat) (url : string) : Outcome VASTResponse :=
  match remaining with
  | O =>
      ([], Throw (ErrorObj ("Wrapper limit exceeded (max: "
                            +:+ pretty (maxWrapperDepth config) +:+ ")")))
  | S remaining' =>
      match fetchWithTimeout host url with
      | Throw e => ([url], Throw e)
      | Return xml =>
          match parseXml host xml with
          | Throw e => ([url], Throw e)
          | Return parsed =>
              let '(fetched, resolved) :=
                allFlat
                  (map (fun ad =>
                          if hasWrapperURI ad then
                            resolveWrapper_with
                              (fetchAndParse_rec host config remaining') ad
                          else ([], Return [ad]))
                       (ads parsed)) in
              (url :: fetched,
               match resolved with
               | Return resolvedAds =>
                   Return {| version := version parsed;
                             ads := resolvedAds;
                             vr_errors := vr_errors parsed |}
               | Throw e => Throw e
               end)
          end
      end
  end.

Definition fetchAndParse (host : Host) (config : Config)
           (url : string) (depth : Z) : Outcome VASTResponse :=
  fetchAndParse_rec host config
    (Z.to_nat (maxWrapperDepth config - depth)) url.

(** [resolveWrapper(wrapperAd, depth)] *)
Definition resolveWrapper (host : Host) (config : Config)
           (wrapperAd : Ad) (depth : Z) : Outcome (list Ad) :=
  resolveWrapper_with (fun url => fetchAndParse host config url depth) wrapperAd.

(** [ParseResult] *)
Record ParseError : Type := mkParseError {
  code : Z;
  message : string
}.

Record ParseResult : Type := mkParseResult {
  success : bool;
  response : option VASTResponse;
  error : option ParseError
}.

(** [parse(vastUrl)]: the URLs fetched and the result. *)
Definition parse (host : Host) (config : Config)
           (vastUrl : string) : list string * ParseResult :=
  match fetchAndParse host config vastUrl 0 with
  | (fetched, Return response) =>
      (fetched,
       {| success := true; response := Some response; error := None |})
  | (fetched, Throw error) =>
      let message :=
        match error with
        | ErrorObj m => m
        | NonError => "Unknown error"
        end in
      (fetched,
       {| success := false;
          response := None;
          error := Some {| code := GENERAL_WRAPPER_ERROR; message := message |} |})
  end.

End VASTParser.

(** ** Player types ([src/types/player.ts]) *)

Module PlayerTypes.

Inductive PlaybackStatus : Type :=
| Idle
| Loading
| Ready
| Playing
| Paused
| Completed
| Error
| WaitingForInteraction.

Record AdError : Type := mkAdError {
  code : Z;
  message : string;
  recoverable : bool
}.

Record AdProgress : Type := mkAdProgress {
  pr_currentTime : Num.JsNum;
  pr_duration : Num.JsNum;
  pr_percentage : Num.JsNum;
  pr_quartile : Z
}.

Inductive AdPlayerEvent : Type :=
| EvLoaded
| EvStart
| EvProgress (data : AdProgress)
| EvQuartile (quartile : string)
| EvComplete
| EvSkip
| EvClick (url : string)
| EvPause
| EvResume
| EvMute
| EvUnmute
| EvError (data : AdError)
| EvDestroy.

Record AdPlayerState : Type := mkAdPlayerState {
  status : PlaybackStatus;
  currentTime : Num.JsNum;
  duration : Num.JsNum;
  muted : bool;
  volume : Num.JsNum;
  canSkip : bool;
  skipCountdown : Num.JsNum;
  mediaFile : option Vast.MediaFile;
  error : option AdError
}.

End PlayerTypes.

(** ** Observable effects *)

Module Runtime.

(** The optional callbacks of [AdPlayerConfig]. *)
Inductive CallbackCall : Type :=
| OnStart
| OnComplete
| OnSkip
| OnProgress (progress : PlayerTypes.AdProgress)
| OnError (error : PlayerTypes.AdError).

(** One observable action.  [FirePixel url] is one call of
    [AdTracker.firePixel]; which transport it picks (beacon, keep-alive
    fetch, image) is not represented.  [Notify l ev] is the call of the
    registered listener [l] with [ev]. *)
Inductive Effect : Type :=
| Fetched (url : string)
| FirePixel (url : string)
| Notify (listener : nat) (ev : PlayerTypes.AdPlayerEvent)
| Callback (call : CallbackCall).

(** Ambient values read by [replaceMacros]: the [k]-th reading of
    [Date.now()] and of the random token. *)
Record Ambient : Type := mkAmbient {
  dateNow : nat -> Z;
  randomToken : nat -> string
}.

(** The world outside the objects: how many times the ambient values were
    read, and everything observable done so far (oldest first). *)
Record World : Type := mkWorld {
  reads : nat;
  trace : list Effect
}.

Definition initialWorld : World := {| reads := 0; trace := [] |}.

Definition perform (e : Effect) (w : World) : World :=
  {| reads := reads w; trace := trace w ++ [e] |}.

Definition performAll (es : list Effect) (w : World) : World :=
  {| reads := reads w; trace := trace w ++ es |}.

(** The pixel URLs in a trace. *)
Definition pixels (es : list Effect) : list string :=
  omap (fun e => match e with FirePixel u => Some u | _ => None end) es.

End Runtime.

(** ** The tracking dispatcher ([src/core/AdTracker.ts]) *)

Module AdTracker.
Import Vast Runtime.

Record AdTracker : Type := mkAdTracker {
  trackingEvents : gmap string (list TrackingEvent);
  firedEvents : gset string;
  macroContext : Macros.MacroContext
}.

(** [groupEventsByType(events)] *)
Definition groupEventsByType (events : list TrackingEvent)
  : gmap string (list TrackingEvent) :=
  foldl (fun (map : gmap string (list TrackingEvent)) ev =>
           let list := default [] (map !! event ev) in
           <[event ev := list ++ [ev]]> map)
        ∅ events.

(** [new AdTracker(events)] *)
Definition construct (events : list TrackingEvent) : AdTracker :=
  {| trackingEvents := groupEventsByType events;
     firedEvents := ∅;
     macroContext := Macros.emptyContext |}.

(** [updateMacroContext(context)] *)
Definition updateMacroContext (context : Macros.MacroContext)
           (t : AdTracker) : AdTracker :=
  {| trackingEvents := trackingEvents t;
     firedEvents := firedEvents t;
     macroContext := Macros.mergeContext (macroContext t) context |}.

(** [firePixel(url)] *)
Definition firePixel (url : string) (w : World) : World :=
  perform (FirePixel url) w.

(** [replaceMacros(url, context)] reading the ambient clock and random
    source once. *)
Definition expand (amb : Ambient) (url : string)
           (context : Macros.MacroContext) (w : World) : string * World :=
  (Macros.replaceMacros url context (dateNow amb (reads w))
                        (randomToken amb (reads w)),
   {| reads := S (reads w); trace := trace w |}).

(** The key [`${eventType}:${event.url}`] *)
Definition eventKey (eventType url : string) : string :=
  eventType +:+ ":" +:+ url.

(** One iteration of the loop of [track]. *)
Definition trackOne (amb : Ambient) (eventType : string) (once : bool)
           (st : AdTracker * World) (ev : TrackingEvent) : AdTracker * World :=
  let '(t, w) := st in
  let key := eventKey eventType (te_url ev) in
  if once && bool_decide (key ∈ firedEvents t) then st
  else
    let '(url, w1) := expand amb (te_url ev) (macroContext t) w in
    let w2 := firePixel url w1 in
    if once then
      ({| trackingEvents := trackingEvents t;
          firedEvents := firedEvents t ∪ {[ key ]};
          macroContext := macroContext t |}, w2)
    else (t, w2).

(** [track(eventType, once)] *)
Definition track (amb : Ambient) (eventType : string) (once : bool)
           (t : AdTracker) (w : World) : AdTracker * World :=
  match trackingEvents t !! eventType with
  | None => (t, w)
  | Some events => foldl (trackOne amb eventType once) (t, w) events
  end.

(** [fireImpressions(impressionUrls)] *)
Definition fireImpressions (amb : Ambient) (impressionUrls : list string)
           (t : AdTracker) (w : World) : World :=
  foldl (fun w url =>
           let '(processedUrl, w1) := expand amb url (macroContext t) w in
           firePixel processedUrl w1)
        w impressionUrls.

(** [fireError(errorUrls, errorCode)] *)
Definition fireError (amb : Ambient) (errorUrls : list string) (errorCode : Z)
           (t : AdTracker) (w : World) : World :=
  let context :=
    Macros.mergeContext (macroContext t)
      {| Macros.assetUri := None; Macros.contentPlayhead := None;
         Macros.adPlayhead := None; Macros.errorCode := Some errorCode;
         Macros.breakPosition := None; Macros.adType := None |} in
  foldl (fun w url =>
           let '(processedUrl, w1) := expand amb url context w in
           firePixel processedUrl w1)
        w errorUrls.

(** [reset()] *)
Definition reset (t : AdTracker) : AdTracker :=
  {| trackingEvents := trackingEvents t;
     firedEvents := ∅;
     macroContext := macroContext t |}.

End AdTracker.

(** ** The playback orchestrator ([src/core/AdPlayer.ts]) *)

Module AdPlayer.
Import Vast PlayerTypes Runtime.

(** [AdPlayerConfig] after the defaults are merged in.  A callback is
    represented by whether it was supplied. *)
Record AdPlayerConfig : Type := mkAdPlayerConfig {
  vastUrl : string;
  targetBitrate : Z;
  maxWrapperDepth : Z;
  timeout : Z;
  debug : bool;
  skipButtonText : string;
  skipOffset : option Num.JsNum;
  customStartOverlay : bool;
  onStart : bool;
  onComplete : bool;
  onSkip : bool;
  onProgress : bool;
  onError : bool
}.

(** The fields of the class.  A DOM node owned by the player is
    represented by whether the field is non-null. *)
Record AdPlayer : Type := mkAdPlayer {
  config : AdPlayerConfig;
  parser : VASTParser.Config;
  videoElement : bool;
  overlayElement : bool;
  skipButtonElement : bool;
  focusTrap : bool;
  boundKeyHandler : bool;
  tracker : option AdTracker.AdTracker;
  state : AdPlayerState;
  ads : list Ad;
  listeners : list nat;
  quartilesFired : gset Z
}.

(** A method body: it changes the object and the world. *)
Definition Step : Type := AdPlayer -> World -> AdPlayer * World.

Definition andThen (a b : Step) : Step :=
  fun p w => let '(p', w') := a p w in b p' w'.
Notation "a >>> b" := (andThen a b) (at level 62, right associativity).

Definition skipStep : Step := fun p w => (p, w).

(** [new AdPlayer(config)] *)
Definition construct (config : AdPlayerConfig) : AdPlayer :=
  {| config := config;
     parser :=
       VASTParser.construct
         {| VASTParser.cfg_maxWrapperDepth := Some (maxWrapperDepth config);
            VASTParser.cfg_timeout := Some (timeout config);
            VASTParser.cfg_debug := Some (debug config) |};
     videoElement := false;
     overlayElement := false;
     skipButtonElement := false;
     focusTrap := false;
     boundKeyHandler := false;
     tracker := None;
     state :=
       {| status := Idle; currentTime := Num.ofZ 0; duration := Num.ofZ 0;
          muted := true; volume := Num.ofZ 1; canSkip := false;
          skipCountdown := Num.ofZ 0; mediaFile := None; error := None |};
     ads := [];
     listeners := [];
     quartilesFired := ∅ |}.

(** Field assignments. *)
Definition setState (st : AdPlayerState) (p : AdPlayer) : AdPlayer :=
  mkAdPlayer (config p) (parser p) (videoElement p) (overlayElement p)
    (skipButtonElement p) (focusTrap p) (boundKeyHandler p) (tracker p)
    st (ads p) (listeners p) (quartilesFired p).

Definition setTracker (t : option AdTracker.AdTracker) (p : AdPlayer) : AdPlayer :=
  mkAdPlayer (config p) (parser p) (videoElement p) (overlayElement p)
    (skipButtonElement p) (focusTrap p) (boundKeyHandler p) t
    (state p) (ads p) (listeners p) (quartilesFired p).

Definition setAds (a : list Ad) (p : AdPlayer) : AdPlayer :=
  mkAdPlayer (config p) (parser p) (videoElement p) (overlayElement p)
    (skipButtonElement p) (focusTrap p) (boundKeyHandler p) (tracker p)
    (state p) a (listeners p) (quartilesFired p).

Definition setListeners (ls : list nat) (p : AdPlayer) : AdPlayer :=
  mkAdPlayer (config p) (parser p) (videoElement p) (overlayElement p)
    (skipButtonElement p) (focusTrap p) (boundKeyHandler p) (tracker p)
    (state p) (ads p) ls (quartilesFired p).

Definition setVideoElement (b : bool) (p : AdPlayer) : AdPlayer :=
  mkAdPlayer (config p) (parser p) b (overlayElement p)
    (skipButtonElement p) (focusTrap p) (boundKeyHandler p) (tracker p)
    (state p) (ads p) (listeners p) (quartilesFired p).

Definition setOverlayElement (b : bool) (p : AdPlayer) : AdPlayer :=
  mkAdPlayer (config p) (parser p) (videoElement p) b
    (skipButtonElement p) (focusTrap p) (boundKeyHandler p) (tracker p)
    (state p) (ads p) (listeners p) (quartilesFired p).

Definition setSkipButtonElement (b : bool) (p : AdPlayer) : AdPlayer :=
  mkAdPlayer (config p) (parser p) (videoElement p) (overlayElement p)
    b (focusTrap p) (boundKeyHandler p) (tracker p)
    (state p) (ads p) (listeners p) (quartilesFired p).

Definition setFocus (trap handler : bool) (p : AdPlayer) : AdPlayer :=
  mkAdPlayer (config p) (parser p) (videoElement p) (overlayElement p)
    (skipButtonElement p) trap handler (tracker p)
    (state p) (ads p) (listeners p) (quartilesFired p).

Definition setQuartilesFired (q : gset Z) (p : AdPlayer) : AdPlayer :=
  mkAdPlayer (config p) (parser p) (videoElement p) (overlayElement p)
    (skipButtonElement p) (focusTrap p) (boundKeyHandler p) (tracker p)
    (state p) (ads p) (listeners p) q.

(** [updateState(partial)], one definition per set of fields updated. *)
Definition withStatus (s : PlaybackStatus) (st : AdPlayerState) : AdPlayerState :=
  mkAdPlayerState s (currentTime st) (duration st) (muted st) (volume st)
    (canSkip st) (skipCountdown st) (mediaFile st) (error st).

Definition withError (s : PlaybackStatus) (e : AdError)
           (st : AdPlayerState) : AdPlayerState :=
  mkAdPlayerState s (currentTime st) (duration st) (muted st) (volume st)
    (canSkip st) (skipCountdown st) (mediaFile st) (Some e).

Definition withMediaFile (m : MediaFile) (st : AdPlayerState) : AdPlayerState :=
  mkAdPlayerState (status st) (currentTime st) (duration st) (muted st)
    (volume st) (canSkip st) (skipCountdown st) (Some m) (error st).

Definition withSkip (countdown : Num.JsNum) (can : bool)
           (st : AdPlayerState) : AdPlayerState :=
  mkAdPlayerState (status st) (currentTime st) (duration st) (muted st)
    (volume st) can countdown (mediaFile st) (error st).

Definition withDuration (d : Num.JsNum) (s : PlaybackStatus)
           (st : AdPlayerState) : AdPlayerState :=
  mkAdPlayerState s (currentTime st) d (muted st)
    (volume st) (canSkip st) (skipCountdown st) (mediaFile st) (error st).

Definition updateState (f : AdPlayerState -> AdPlayerState) : Step :=
  fun p w => (setState (f (state p)) p, w).

(** [emit(event)]: each registered listener is called, in registration
    order; what a listener throws is caught and logged. *)
Definition emit (ev : AdPlayerEvent) : Step :=
  fun p w => (p, performAll (map (fun l => Notify l ev) (listeners p)) w).

(** [this.config.onX?.(...)] *)
Definition callback (supplied : AdPlayerConfig -> bool) (call : CallbackCall) : Step :=
  fun p w => (p, if supplied (config p) then perform (Callback call) w else w).

(** [this.tracker?.track(eventType)] *)
Definition trackerTrack (amb : Ambient) (eventType : string) : Step :=
  fun p w =>
    match tracker p with
    | Some t =>
        let '(t', w') := AdTracker.track amb eventType true t w in
        (setTracker (Some t') p, w')
    | None => (p, w)
    end.

(** [createError(code, message)] *)
Definition createError (code : Z) (message : string) : AdError :=
  {| code := code; message := message; recoverable := false |}.

(** [getFirstLinearCreative()] *)
Definition getFirstLinearCreative (p : AdPlayer) : option Linear :=
  head (omap linear (concat (map creatives (ads p)))).

(** [on(listener)] and the unsubscribe function it returns. *)
Definition on (listener : nat) (p : AdPlayer) : AdPlayer :=
  if bool_decide (listener ∈ listeners p) then p
  else setListeners (listeners p ++ [listener]) p.

Definition unsubscribe (listener : nat) (p : AdPlayer) : AdPlayer :=
  setListeners (filter (fun l => l ≠ listener) (listeners p)) p.

(** [handleError(error)] *)
Definition handleError (amb : Ambient) (error : AdError) : Step :=
  updateState (withError Error error) >>>
  (fun p w =>
     let errorUrls := concat (map errors (ads p)) in
     match tracker p with
     | Some t => (p, AdTracker.fireError amb errorUrls (code error) t w)
     | None => (p, w)
     end) >>>
  emit (EvError error) >>>
  callback onError (OnError error).

(** [setupSkipButton()] *)
Definition setupSkipButton : Step :=
  fun p w =>
    let linear := getFirstLinearCreative p in
    let skipOffset :=
      match skipOffset (config p) with
      | Some x => Some x
      | None => linear ≫= Vast.skipOffset
      end in
    match skipOffset with
    | None => (p, w)
    | Some off =>
        if negb (Num.truthy off) || Num.leZero off then (p, w)
        else
          (setSkipButtonElement true
             (setState (withSkip off false (state p)) p), w)
    end.

(** [handlePlaybackStart()] *)
Definition handlePlaybackStart (amb : Ambient) : Step :=
  updateState (withStatus Playing) >>>
  emit EvStart >>>
  callback onStart OnStart >>>
  (fun p w =>
     let impressionUrls := VASTParser.aggregateImpressions (ads p) in
     match tracker p with
     | Some t => (p, AdTracker.fireImpressions amb impressionUrls t w)
     | None => (p, w)
     end) >>>
  trackerTrack amb "start" >>>
  trackerTrack amb "creativeView" >>>
  setupSkipButton.

(** [showStartOverlay()] *)
Definition showStartOverlay : Step :=
  updateState (withStatus WaitingForInteraction) >>>
  (fun p w => (setOverlayElement true p, w)).

(** [removeOverlay()] *)
Definition removeOverlay : Step :=
  fun p w => (setOverlayElement false p, w).

(** [attemptAutoplay()]; [accepted] tells whether the promise returned by
    [videoElement.play()] resolves. *)
Definition attemptAutoplay (amb : Ambient) (accepted : bool) : Step :=
  fun p w =>
    if negb (videoElement p) then (p, w)
    else if accepted then handlePlaybackStart amb p w
    else showStartOverlay p w.

(** [onStartClick()]; when [play()] rejects, [reason] is the rejection
    converted to a string. *)
Definition onStartClick (amb : Ambient) (accepted : bool) (reason : string) : Step :=
  removeOverlay >>>
  (fun p w =>
     if videoElement p then
       if accepted then handlePlaybackStart amb p w
       else
         handleError amb
           (createError GENERAL_LINEAR_ERROR ("Playback failed: " +:+ reason)) p w
     else (p, w)).

(** [destroy()] *)
Definition destroy : Step :=
  (fun p w =>
     let p := setFocus (focusTrap p) false p in
     let p := setVideoElement false p in
     let p := setOverlayElement false p in
     let p := setSkipButtonElement false p in
     let p := setFocus false false p in
     let p := setTracker (AdTracker.reset <$> tracker p) p in
     let p := setQuartilesFired ∅ p in
     let p := setListeners [] p in
     let p := setAds [] p in
     (p, w)) >>>
  emit EvDestroy.

(** [skip()] *)
Definition skip (amb : Ambient) : Step :=
  fun p w =>
    if negb (canSkip (state p)) then (p, w)
    else
      (trackerTrack amb "skip" >>>
       emit EvSkip >>>
       callback onSkip OnSkip >>>
       destroy) p w.

(** [handleComplete()] *)
Definition handleComplete (amb : Ambient) : Step :=
  updateState (withStatus Completed) >>>
  trackerTrack amb "complete" >>>
  emit EvComplete >>>
  callback onComplete OnComplete.

(** The listeners installed on the video element by
    [createVideoElement]. *)
Definition onLoadedMetadata (d : Num.JsNum) : Step :=
  updateState (withDuration d Ready) >>> emit EvLoaded.

Definition onVideoPlay : Step := updateState (withStatus Playing).

Definition onVideoPause (amb : Ambient) : Step :=
  fun p w =>
    match status (state p) with
    | Completed => (p, w)
    | _ =>
        (updateState (withStatus Paused) >>>
         emit EvPause >>>
         trackerTrack amb "pause") p w
    end.

Definition onVideoError (amb : Ambient) (message : option string) : Step :=
  handleError amb
    (createError MEDIA_NOT_SUPPORTED (default "Video playback error"
                                        (Macros.truthyStr message))).

(** [createVideoElement(mediaFile)] and [setupFocusManagement()], as far
    as the fields of the player go. *)
Definition createVideoElement (mediaFile : MediaFile) : Step :=
  fun p w => (setVideoElement true p, w).

Definition setupFocusManagement : Step :=
  fun p w => (setFocus true true p, w).

(** The [try] block of [init()]: the state it reaches and, when it
    throws, the [AdError] built by [createError]. *)
Definition initBody (host : VASTParser.Host) (amb : Ambient)
           (autoplayAccepted : bool) (p : AdPlayer) (w : World)
  : option AdError * (AdPlayer * World) :=
  let '(fetched, result) :=
    VASTParser.parse host (parser p) (vastUrl (config p)) in
  let w := performAll (map Fetched fetched) w in
  match VASTParser.success result, VASTParser.response result with
  | true, Some response =>
      let p := setAds (Vast.ads response) p in
      if (length (ads p) =? 0)%nat then
        (Some (createError NO_VAST_RESPONSE "No ads in VAST response"), (p, w))
      else
        match getFirstLinearCreative p with
        | None =>
            (Some (createError GENERAL_LINEAR_ERROR "No linear creative found"),
             (p, w))
        | Some linear =>
            match VASTParser.selectBestMediaFile
                    (mediaFiles linear) (targetBitrate (config p)) with
            | None =>
                (Some (createError FILE_NOT_FOUND "No suitable media file found"),
                 (p, w))
            | Some mediaFile =>
                (None,
                 (updateState (withMediaFile mediaFile) >>>
                  (fun p w =>
                     let trackingEvents :=
                       VASTParser.aggregateTrackingEvents (ads p) in
                     let t := AdTracker.construct trackingEvents in
                     let t :=
                       AdTracker.updateMacroContext
                         {| Macros.assetUri := Some (mf_url mediaFile);
                            Macros.contentPlayhead := None;
                            Macros.adPlayhead := None;
                            Macros.errorCode := None;
                            Macros.breakPosition := None;
                            Macros.adType := None |} t in
                     (setTracker (Some t) p, w)) >>>
                  createVideoElement mediaFile >>>
                  setupFocusManagement >>>
                  attemptAutoplay amb autoplayAccepted) p w)
            end
        end
  | _, _ =>
      (Some (createError
               (match VASTParser.code <$> VASTParser.error result with
                | Some 0 | None => NO_VAST_RESPONSE
                | Some code => code
                end)
               (default "Failed to parse VAST"
                  (Macros.truthyStr
                     (VASTParser.message <$> VASTParser.error result)))),
       (p, w))
  end.

(** [init()]: what the [try] block throws is an [AdError], not an
    [Error] instance, and is handed to [handleError] as it is. *)
Definition init (host : VASTParser.Host) (amb : Ambient)
           (autoplayAccepted : bool) : Step :=
  updateState (withStatus Loading) >>>
  (fun p w =>
     match initBody host amb autoplayAccepted p w with
     | (Some adError, (p', w')) => handleError amb adError p' w'
     | (None, st) => st
     end).

End AdPlayer.

(** ** More number operations used by the orchestrator *)

Module NumOps.
Import Num.

(** [a - t] for a finite [t] *)
Definition subQ (a : JsNum) (t : Q) : JsNum :=
  match a with
  | Fin x => Fin (Qred (x - t))
  | other => other
  end.

(** [Math.max(0, a)] *)
Definition max0 (a : JsNum) : JsNum :=
  match a with
  | Fin x => if Qle_bool x 0 then Fin 0 else Fin x
  | PosInf => PosInf
  | NegInf => Fin 0
  | NaN => NaN
  end.

(** [a >= k] for an integer constant [k] *)
Definition geZ (a : JsNum) (k : Z) : bool :=
  match a with
  | Fin x => Qle_bool (inject_Z k) x
  | PosInf => true
  | NegInf | NaN => false
  end.

(** [isNaN(a)] *)
Definition isNaN (a : JsNum) : bool :=
  match a with
  | NaN => true
  | _ => false
  end.

(** [(t / d) * 100] for a finite [t] and a [d] that is neither [0] nor
    [NaN]: a finite time over an infinite duration is 0. *)
Definition percentOf (t : Q) (d : JsNum) : JsNum :=
  match d with
  | Fin x => Fin (Qred (t / x * 100))
  | PosInf | NegInf => Fin 0
  | NaN => NaN
  end.

End NumOps.

(** ** Key codes ([src/types/platform.ts], [src/core/PlatformAdapter.ts]) *)

Module PlatformAdapter.

Inductive Platform : Type :=
| WebOS | Tizen | Vidaa | WhaleOS | FireTV | Roku | Xbox | PlayStation
| AndroidTV | Vizio | Generic.

Inductive KeyAction : Type :=
| Enter | Back | Left | Right | Up | Down | Play | Pause | PlayPause | Stop
| FastForward | Rewind | Menu | Info | Red | Green | Yellow | Blue
| ChannelUp | ChannelDown | VolumeUp | VolumeDown | Mute.

Global Instance KeyAction_eq_dec : EqDecision KeyAction.
Proof. solve_decision. Defined.

(** [PlatformKeyMap]: an object with integer keys, as the list of its
    properties in the order of the literal. *)
Definition PlatformKeyMap : Type := list (Z * KeyAction).

(** [DEFAULT_KEY_CODES] *)
Definition DEFAULT_KEY_CODES (platform : Platform) : PlatformKeyMap :=
  match platform with
  | WebOS =>
      [ (13, Enter); (461, Back); (37, Left); (38, Up); (39, Right);
        (40, Down); (415, Play); (19, Pause); (413, Stop);
        (417, FastForward); (412, Rewind); (457, Info); (403, Red);
        (404, Green); (405, Yellow); (406, Blue); (33, ChannelUp);
        (34, ChannelDown) ]
  | Tizen =>
      [ (13, Enter); (10009, Back); (37, Left); (38, Up); (39, Right);
        (40, Down); (415, Play); (19, Pause); (10252, PlayPause);
        (413, Stop); (417, FastForward); (412, Rewind); (457, Info);
        (403, Red); (404, Green); (405, Yellow); (406, Blue);
        (427, ChannelUp); (428, ChannelDown); (447, VolumeUp);
        (448, VolumeDown); (449, Mute) ]
  | Vidaa =>
      [ (13, Enter); (8, Back); (27, Back); (37, Left); (38, Up);
        (39, Right); (40, Down); (415, Play); (19, Pause); (413, Stop);
        (417, FastForward); (412, Rewind) ]
  | WhaleOS =>
      [ (13, Enter); (27, Back); (37, Left); (38, Up); (39, Right);
        (40, Down); (415, Play); (19, Pause); (413, Stop) ]
  | FireTV =>
      [ (13, Enter); (4, Back); (27, Back); (37, Left); (38, Up);
        (39, Right); (40, Down); (85, PlayPause); (126, Play);
        (127, Pause); (89, Rewind); (90, FastForward); (82, Menu) ]
  | Roku =>
      [ (13, Enter); (27, Back); (8, Back); (37, Left); (38, Up);
        (39, Right); (40, Down); (179, PlayPause); (178, Stop);
        (228, FastForward); (227, Rewind) ]
  | Xbox =>
      [ (13, Enter); (27, Back); (37, Left); (38, Up); (39, Right);
        (40, Down); (195, Menu); (196, Menu) ]
  | PlayStation =>
      [ (13, Enter); (27, Back); (37, Left); (38, Up); (39, Right);
        (40, Down) ]
  | AndroidTV =>
      [ (13, Enter); (4, Back); (27, Back); (37, Left); (38, Up);
        (39, Right); (40, Down); (85, PlayPause); (126, Play);
        (127, Pause); (89, Rewind); (90, FastForward); (82, Menu) ]
  | Vizio =>
      [ (13, Enter); (27, Back); (8, Back); (37, Left); (38, Up);
        (39, Right); (40, Down); (415, Play); (19, Pause) ]
  | Generic =>
      [ (13, Enter); (27, Back); (8, Back); (37, Left); (38, Up);
        (39, Right); (40, Down); (32, PlayPause); (80, Play); (83, Stop);
        (77, Mute) ]
  end.

(** [keyMap[keyCode]]: a later property of a literal overrides an
    earlier one with the same key. *)
Fixpoint property (keyMap : PlatformKeyMap) (keyCode : Z) : option KeyAction :=
  match keyMap with
  | [] => None
  | (code, action) :: rest =>
      match property rest keyCode with
      | Some later => Some later
      | None => if code =? keyCode then Some action else None
      end
  end.

(** [normalizeKeyCode(keyCode)] *)
Definition normalizeKeyCode (keyMap : PlatformKeyMap) (keyCode : Z)
  : option KeyAction :=
  property keyMap keyCode.

(** [Object.entries(keyMap)]: the keys, which are key codes and so
    non-negative integers, come in ascending order, each once, with the
    value the object holds for it. *)
Definition entries (keyMap : PlatformKeyMap) : list (Z * KeyAction) :=
  omap (fun code => (fun action => (code, action)) <$> property keyMap code)
       (VASTParser.sortBy (fun a b => a - b) (remove_dups (fst <$> keyMap))).

(** A [Map<KeyAction, number[]>] as the list of its entries in insertion
    order. *)
Definition ReverseKeyMap : Type := list (KeyAction * list Z).

(** [map.get(action)] *)
Fixpoint mapGet (map : ReverseKeyMap) (action : KeyAction) : option (list Z) :=
  match map with
  | [] => None
  | (a, codes) :: rest =>
      if bool_decide (a = action) then Some codes else mapGet rest action
  end.

(** [map.set(action, codes)] *)
Fixpoint mapSet (map : ReverseKeyMap) (action : KeyAction) (codes : list Z)
  : ReverseKeyMap :=
  match map with
  | [] => [(action, codes)]
  | (a, old) :: rest =>
      if bool_decide (a = action) then (a, codes) :: rest
      else (a, old) :: mapSet rest action codes
  end.

(** [buildReverseKeyMap()] *)
Definition buildReverseKeyMap (keyMap : PlatformKeyMap) : ReverseKeyMap :=
  foldl (fun map '(keyCode, action) =>
           let existing := default [] (mapGet map action) in
           mapSet map action (existing ++ [keyCode]))
        [] (entries keyMap).

(** [getKeyCodesForAction(action)] *)
Definition getKeyCodesForAction (keyMap : PlatformKeyMap) (action : KeyAction)
  : list Z :=
  default [] (mapGet (buildReverseKeyMap keyMap) action).

End PlatformAdapter.

(** ** Progress, skip countdown and controls ([src/core/AdPlayer.ts]) *)

Module AdPlayerProgress.
Import Vast PlayerTypes Runtime AdPlayer.

(** [updateState({ currentTime, duration })] *)
Definition withTimes (t d : Num.JsNum) (st : AdPlayerState) : AdPlayerState :=
  mkAdPlayerState (status st) t d (muted st) (volume st)
    (canSkip st) (skipCountdown st) (mediaFile st) (error st).

(** [updateState({ skipCountdown })] and [updateState({ canSkip })] *)
Definition withSkipCountdown (r : Num.JsNum) (st : AdPlayerState) : AdPlayerState :=
  mkAdPlayerState (status st) (currentTime st) (duration st) (muted st)
    (volume st) (canSkip st) r (mediaFile st) (error st).

Definition withCanSkip (b : bool) (st : AdPlayerState) : AdPlayerState :=
  mkAdPlayerState (status st) (currentTime st) (duration st) (muted st)
    (volume st) b (skipCountdown st) (mediaFile st) (error st).

(** [updateState({ muted })] *)
Definition withMuted (b : bool) (st : AdPlayerState) : AdPlayerState :=
  mkAdPlayerState (status st) (currentTime st) (duration st) b
    (volume st) (canSkip st) (skipCountdown st) (mediaFile st) (error st).

(** [calculateQuartile(percentage)] *)
Definition calculateQuartile (percentage : Num.JsNum) : Z :=
  if NumOps.geZ percentage 100 then 4
  else if NumOps.geZ percentage 75 then 3
  else if NumOps.geZ percentage 50 then 2
  else if NumOps.geZ percentage 25 then 1
  else 0.

(** The table of [fireQuartileEvents]. *)
Definition quartiles : list (Z * string) :=
  [ (25, "firstQuartile"); (50, "midpoint"); (75, "thirdQuartile") ].

(** One iteration of the loop of [fireQuartileEvents]. *)
Definition fireQuartile (amb : Ambient) (percentage : Num.JsNum)
           (q : Z * string) : Step :=
  fun p w =>
    let '(threshold, event) := q in
    if NumOps.geZ percentage threshold
       && negb (bool_decide (threshold ∈ quartilesFired p))
    then
      ((fun p w => (setQuartilesFired (quartilesFired p ∪ {[ threshold ]}) p, w)) >>>
       trackerTrack amb event >>>
       emit (EvQuartile event)) p w
    else (p, w).

(** [fireQuartileEvents(percentage)] *)
Definition fireQuartileEvents (amb : Ambient) (percentage : Num.JsNum) : Step :=
  fun p w =>
    foldl (fun st q => fireQuartile amb percentage q st.1 st.2) (p, w) quartiles.

(** [config.skipOffset ?? linear?.skipOffset] *)
Definition effectiveSkipOffset (p : AdPlayer) : option Num.JsNum :=
  match skipOffset (config p) with
  | Some x => Some x
  | None => getFirstLinearCreative p ≫= Vast.skipOffset
  end.

(** [updateSkipCountdown(currentTime)] *)
Definition updateSkipCountdown (currentTime : Q) : Step :=
  fun p w =>
    match effectiveSkipOffset p with
    | None => (p, w)
    | Some skipOffset =>
        if negb (Num.truthy skipOffset) || negb (skipButtonElement p) then (p, w)
        else
          let remaining := NumOps.max0 (NumOps.subQ skipOffset currentTime) in
          let p := setState (withSkipCountdown remaining (state p)) p in
          if Num.leZero remaining && negb (canSkip (state p)) then
            (setState (withCanSkip true (state p)) p, w)
          else (p, w)
    end.

(** [this.tracker?.updateMacroContext({ adPlayhead: currentTime })] *)
Definition notePlayhead (currentTime : Q) : Step :=
  fun p w =>
    (setTracker
       (AdTracker.updateMacroContext
          {| Macros.assetUri := None; Macros.contentPlayhead := None;
             Macros.adPlayhead := Some currentTime; Macros.errorCode := None;
             Macros.breakPosition := None; Macros.adType := None |}
          <$> tracker p) p, w).

(** [handleTimeUpdate(video)], with [video.currentTime] (always finite)
    and [video.duration] ([NaN] while unknown, infinite for a stream). *)
Definition handleTimeUpdate (amb : Ambient) (currentTime : Q)
           (duration : Num.JsNum) : Step :=
  fun p w =>
    if negb (Num.truthy duration) || NumOps.isNaN duration then (p, w)
    else
      let percentage := NumOps.percentOf currentTime duration in
      let quartile := calculateQuartile percentage in
      let progress :=
        {| pr_currentTime := Num.Fin currentTime; pr_duration := duration;
           pr_percentage := percentage; pr_quartile := quartile |} in
      (updateState (withTimes (Num.Fin currentTime) duration) >>>
       updateSkipCountdown currentTime >>>
       notePlayhead currentTime >>>
       emit (EvProgress progress) >>>
       callback onProgress (OnProgress progress) >>>
       fireQuartileEvents amb percentage) p w.

(** [unmute()] and [mute()] *)
Definition unmute (amb : Ambient) : Step :=
  fun p w =>
    if videoElement p then
      (updateState (withMuted false) >>>
       trackerTrack amb "unmute" >>>
       emit EvUnmute) p w
    else (p, w).

Definition mute (amb : Ambient) : Step :=
  fun p w =>
    if videoElement p then
      (updateState (withMuted true) >>>
       trackerTrack amb "mute" >>>
       emit EvMute) p w
    else (p, w).

(** What a key asks of the video element. *)
Inductive VideoCommand : Type :=
| VideoPlay
| VideoPause.

(** [handleKeyAction(action)]: the change of the player and the command
    sent to the video element, if any.  [accepted] and [reason] are the
    outcome of [play()] should the key start the ad. *)
Definition handleKeyAction (amb : Ambient) (accepted : bool) (reason : string)
           (action : PlatformAdapter.KeyAction) (p : AdPlayer) (w : World)
  : AdPlayer * World * option VideoCommand :=
  match action with
  | PlatformAdapter.Enter =>
      match status (state p) with
      | WaitingForInteraction => (onStartClick amb accepted reason p w, None)
      | _ => if canSkip (state p) then (skip amb p w, None) else (p, w, None)
      end
  | PlatformAdapter.Play =>
      (p, w, if videoElement p then Some VideoPlay else None)
  | PlatformAdapter.Pause =>
      (p, w, if videoElement p then Some VideoPause else None)
  | _ => (p, w, None)
  end.

(** The [keydown] listener installed by [setupFocusManagement]. *)
Definition onKeyDown (amb : Ambient) (accepted : bool) (reason : string)
           (keyMap : PlatformAdapter.PlatformKeyMap) (keyCode : Z)
           (p : AdPlayer) (w : World)
  : AdPlayer * World * option VideoCommand :=
  match PlatformAdapter.normalizeKeyCode keyMap keyCode with
  | Some action => handleKeyAction amb accepted reason action p w
  | None => (p, w, None)
  end.

End AdPlayerProgress.

(** * Auxiliary notions used in the statements *)

Module TokenDefs.
(** The overlap of two strings laid side by side from their first
    characters: they agree when the shorter is a prefix of the longer. *)
Fixpoint agree (p q : string) : bool :=
  match p, q with
  | String a p', String b q' => Ascii.eqb a b && agree p' q'
  | _, _ => true
  end.

(** The non-empty suffixes of a string. *)
Fixpoint tails (s : string) : list string :=
  match s with
  | EmptyString => []
  | String _ s' => s :: tails s'
  end.

(** No occurrence of [pat] can share a character with an occurrence of
    [q], whatever surrounds them. *)
Definition noOverlap (pat q : string) : bool :=
  forallb (fun p' => negb (agree p' q)) (tails pat)
  && forallb (fun q' => negb (agree pat q')) (tails q).
End TokenDefs.

Module MacroSpec.
Import Macros.

(** The macros that [replaceMacros] replaces under a condition. *)
Inductive ConditionalMacro : Type :=
| ASSETURI
| CONTENTPLAYHEAD
| ADPLAYHEAD
| ERRORCODE
| BREAKPOSITION
| ADTYPE.

Definition token (m : ConditionalMacro) : string :=
  match m with
  | ASSETURI => "[ASSETURI]"
  | CONTENTPLAYHEAD => "[CONTENTPLAYHEAD]"
  | ADPLAYHEAD => "[ADPLAYHEAD]"
  | ERRORCODE => "[ERRORCODE]"
  | BREAKPOSITION => "[BREAKPOSITION]"
  | ADTYPE => "[ADTYPE]"
  end.

(** The context has the field of macro [m]. *)
Definition present (m : ConditionalMacro) (c : MacroContext) : bool :=
  match m with
  | ASSETURI => bool_decide (is_Some (assetUri c))
  | CONTENTPLAYHEAD => bool_decide (is_Some (contentPlayhead c))
  | ADPLAYHEAD => bool_decide (is_Some (adPlayhead c))
  | ERRORCODE => bool_decide (is_Some (errorCode c))
  | BREAKPOSITION => bool_decide (is_Some (breakPosition c))
  | ADTYPE => bool_decide (is_Some (adType c))
  end.

(** The guard that [replaceMacros] evaluates for macro [m]: truthiness
    for the two string fields, [!== undefined] for the numeric ones. *)
Definition guard (m : ConditionalMacro) (c : MacroContext) : bool :=
  match m with
  | ASSETURI => bool_decide (is_Some (truthyStr (assetUri c)))
  | ADTYPE => bool_decide (is_Some (truthyStr (adType c)))
  | _ => present m c
  end.
End MacroSpec.

Module SelectSpec.

(** [m] is the first element of [l] with the least value of [f]. *)
Definition firstLeast {A : Type} (f : A → Z) (m : A) (l : list A) : Prop :=
  ∃ l1 l2, l = l1 ++ m :: l2
           ∧ (∀ x, x ∈ l1 → f m < f x)
           ∧ (∀ x, x ∈ l2 → f m <= f x).

End SelectSpec.

Module TrackerSpec.
Import Vast Runtime AdTracker.

(** The URLs registered for an event type, in registration order. *)
Definition registeredUrls (events : list TrackingEvent) (e : string) : list string :=
  te_url <$> filter (λ ev, event ev = e) events.

(** The URLs sent when [urls] are expanded one after the other, the
    first expansion being the [k]-th reading of the ambient values. *)
Fixpoint expandAll (amb : Ambient) (c : Macros.MacroContext) (k : nat)
         (urls : list string) : list string :=
  match urls with
  | [] => []
  | u :: rest =>
      Macros.replaceMacros u c (dateNow amb k) (randomToken amb k)
      :: expandAll amb c (S k) rest
  end.

(** The URLs of [urls] that fire under [once = true] when the fired-set
    is [F] at the start. *)
Fixpoint firstFirings (e : string) (F : gset string) (urls : list string)
  : list string :=
  match urls with
  | [] => []
  | u :: rest =>
      if bool_decide (eventKey e u ∈ F) then firstFirings e F rest
      else u :: firstFirings e (F ∪ {[ eventKey e u ]}) rest
  end.

(** Two calls of [track] in a row. *)
Definition trackTwice (amb : Ambient) (e : string) (once : bool)
           (t : AdTracker) (w : World) : AdTracker * World :=
  let '(t1, w1) := track amb e once t w in
  track amb e once t1 w1.
End TrackerSpec.

Module ResolverSpec.
Import Vast VASTParser.

(** [wrapperChain host url ws]: the document at [url] starts a chain of
    nested wrappers [ws] — each document of the chain is fetched and
    parsed successfully and holds one wrapper Ad, pointing to the next
    document — that ends in a document without wrapper to follow. *)
Inductive wrapperChain (host : Host) : string → list Wrapper → Prop :=
| chain_inline (url : string) (status : Z) (statusText xml : string)
               (vast : VastElement) :
    fetchFn host url = Response true status statusText xml →
    xmlParser host xml = XmlDoc (Some vast) →
    (∀ ad, ad ∈ ve_ads vast → hasWrapperURI ad = false) →
    wrapperChain host url []
| chain_wrapper (url : string) (status : Z) (statusText xml : string)
                (vast : VastElement) (ad : Ad) (w : Wrapper)
                (ws : list Wrapper) :
    fetchFn host url = Response true status statusText xml →
    xmlParser host xml = XmlDoc (Some vast) →
    ve_ads vast = [ad] →
    Vast.wrapper ad = Some w →
    vastAdTagURI w ≠ "" →
    wrapperChain host (vastAdTagURI w) ws →
    wrapperChain host url (w :: ws).

(** The error thrown at the depth bound. *)
Definition wrapperLimitExceeded (config : Config) : Thrown :=
  ErrorObj ("Wrapper limit exceeded (max: "
            +:+ pretty (maxWrapperDepth config) +:+ ")").

(** The failure result that [parse] builds from a message. *)
Definition failure (message : string) : ParseResult :=
  {| success := false;
     response := None;
     error := Some {| code := 300; message := message |} |}.

(** The message [parse] reports for a thrown value. *)
Definition messageOf (e : Thrown) : string :=
  match e with
  | ErrorObj m => m
  | NonError => "Unknown error"
  end.
End ResolverSpec.

Module MergeSpec.
Import Vast.

(** The Linear payloads of an Ad, in creative order. *)
Definition linears (ad : Ad) : list Linear := omap linear (creatives ad).

(** The first Linear of an Ad. *)
Definition firstLinear (ad : Ad) : option Linear := head (linears ad).
End MergeSpec.

Module PlayerSpec.
Import Vast PlayerTypes Runtime AdPlayer TrackerSpec.

(** The context [fireError] substitutes with. *)
Definition errorContext (c : Macros.MacroContext) (errorCode : Z)
  : Macros.MacroContext :=
  Macros.mergeContext c
    {| Macros.assetUri := None; Macros.contentPlayhead := None;
       Macros.adPlayhead := None; Macros.errorCode := Some errorCode;
       Macros.breakPosition := None; Macros.adType := None |}.

(** What [emit] followed by an optional callback appends. *)
Definition announce (p : AdPlayer) (ev : AdPlayerEvent)
           (supplied : bool) (call : CallbackCall) : list Effect :=
  ((λ l, Notify l ev) <$> listeners p)
  ++ (if supplied then [Callback call] else []).

(** The URLs a tracker holds for an event type. *)
Definition urlsOf (t : AdTracker.AdTracker) (e : string) : list string :=
  te_url <$> default [] (AdTracker.trackingEvents t !! e).

(** The tracker after the [start] and [creativeView] calls. *)
Definition trackerAfterStart (t : AdTracker.AdTracker) : AdTracker.AdTracker :=
  AdTracker.mkAdTracker (AdTracker.trackingEvents t)
    (AdTracker.firedEvents t
     ∪ list_to_set (AdTracker.eventKey "start" <$> urlsOf t "start")
     ∪ list_to_set (AdTracker.eventKey "creativeView" <$> urlsOf t "creativeView"))
    (AdTracker.macroContext t).

(** The URLs delivered by a playback start, in order: impressions,
    [start] endpoints not fired yet, [creativeView] endpoints not fired
    yet. *)
Definition startDeliveries (p : AdPlayer) (t : AdTracker.AdTracker) : list string :=
  VASTParser.aggregateImpressions (ads p)
  ++ firstFirings "start" (AdTracker.firedEvents t) (urlsOf t "start")
  ++ firstFirings "creativeView"
       (AdTracker.firedEvents t
        ∪ list_to_set (AdTracker.eventKey "start" <$> urlsOf t "start"))
       (urlsOf t "creativeView").
End PlayerSpec.

(** ** Documents and hosts of the unit tests ([VASTParser.test.ts]) *)

Module Fixtures.
Import Vast VASTParser.

(** The Ad of [SIMPLE_VAST]. *)
Definition simpleLinear : Linear :=
  {| duration := Num.ofZ 30;
     skipOffset := None;
     mediaFiles :=
       [ {| mf_url := "https://example.com/video.mp4";
            delivery := "progressive"; type := "video/mp4";
            width := 1920; height := 1080; bitrate := Some 2500;
            codec := None |} ];
     trackingEvents :=
       [ mkTrackingEvent "start" "https://example.com/start" None;
         mkTrackingEvent "complete" "https://example.com/complete" None ];
     clickThrough := None |}.

Definition simpleAd : Ad :=
  {| ad_id := "12345"; ad_sequence := None;
     impressions := [ mkImpression (Some "imp1") "https://example.com/impression" ];
     creatives := [ mkCreative (Some "creative1") None None (Some simpleLinear) ];
     errors := [];
     wrapper := None;
     inLine := true |}.

(** The Ad of [WRAPPER_VAST]; [fallback] is its [fallbackOnNoAd]
    attribute, absent in the test document. *)
Definition wrapperOf (fallback : bool) : Wrapper :=
  {| vastAdTagURI := "https://example.com/inline-vast.xml";
     followAdditionalWrappers := true;
     allowMultipleAds := false;
     fallbackOnNoAd := fallback |}.

Definition wrapperAd (fallback : bool) : Ad :=
  {| ad_id := "wrapper1"; ad_sequence := None;
     impressions := [ mkImpression None "https://example.com/wrapper-impression" ];
     creatives :=
       [ mkCreative None None None
           (Some {| duration := Num.ofZ 0; skipOffset := None;
                    mediaFiles := [];
                    trackingEvents :=
                      [ mkTrackingEvent "start"
                          "https://example.com/wrapper-start" None ];
                    clickThrough := None |}) ];
     errors := [];
     wrapper := Some (wrapperOf fallback);
     inLine := false |}.

(** An inline Ad that carries an error URL and no creative. *)
Definition noLinearAd : Ad :=
  {| ad_id := "nolinear"; ad_sequence := None;
     impressions := [];
     creatives := [];
     errors := [ "https://example.com/error?code=[ERRORCODE]" ];
     wrapper := None;
     inLine := true |}.

Definition vastOf (ads : list Ad) : VastElement :=
  {| ve_version := Some "4.0"; ve_ads := ads; ve_errors := [] |}.

(** The XML library on the test documents, each named after the
    constant of the test file that holds its text. *)
Definition testXml (xml : string) : XmlOutcome :=
  if String.eqb xml "SIMPLE_VAST" then XmlDoc (Some (vastOf [simpleAd]))
  else if String.eqb xml "WRAPPER_VAST" then XmlDoc (Some (vastOf [wrapperAd false]))
  else if String.eqb xml "WRAPPER_VAST fallbackOnNoAd" then
    XmlDoc (Some (vastOf [wrapperAd true]))
  else if String.eqb xml "NO_LINEAR_VAST" then XmlDoc (Some (vastOf [noLinearAd]))
  else if String.eqb xml "EMPTY_VAST" then XmlDoc (Some (vastOf []))
  else XmlDoc None.

(** A server with one document per URL; anything else is a 404. *)
Definition testFetch (url : string) : FetchOutcome :=
  if String.eqb url "https://example.com/vast.xml" then
    Response true 200 "OK" "SIMPLE_VAST"
  else if String.eqb url "https://example.com/inline-vast.xml" then
    Response true 200 "OK" "SIMPLE_VAST"
  else if String.eqb url "https://example.com/wrapper.xml" then
    Response true 200 "OK" "WRAPPER_VAST"
  else if String.eqb url "https://example.com/wrapper-fallback.xml" then
    Response true 200 "OK" "WRAPPER_VAST fallbackOnNoAd"
  else if String.eqb url "https://example.com/no-linear.xml" then
    Response true 200 "OK" "NO_LINEAR_VAST"
  else if String.eqb url "https://example.com/empty.xml" then
    Response true 200 "OK" "EMPTY_VAST"
  else if String.eqb url "https://example.com/invalid.xml" then
    Response true 200 "OK" "not valid xml"
  else if String.eqb url "https://example.com/timeout.xml" then
    Rejected (ErrorObj "Aborted")
  else Response false 404 "Not Found" "".

Definition testHost : Host := {| fetchFn := testFetch; xmlParser := testXml |}.

(** [mockFetch.mockResolvedValue(WRAPPER_VAST)]: every URL answers with
    the wrapper document. *)
Definition loopHost : Host :=
  {| fetchFn := λ _, Response true 200 "OK" "WRAPPER_VAST";
     xmlParser := testXml |}.

Definition configOf (maxDepth : Z) : Config :=
  construct {| cfg_maxWrapperDepth := Some maxDepth;
               cfg_timeout := None; cfg_debug := None |}.

(** A host whose XML library throws on every input. *)
Definition brokenXmlHost : Host :=
  {| fetchFn := λ _, Response true 200 "OK" "<VAST";
     xmlParser := λ _, XmlThrows (ErrorObj "Unclosed tag") |}.

(** Two renditions: a 4K file at the target bitrate and a 1080p file
    far from it. *)
Definition file4K : MediaFile :=
  {| mf_url := "https://example.com/3840x2160.mp4"; delivery := "progressive";
     type := "video/mp4"; width := 3840; height := 2160;
     bitrate := Some 2500; codec := None |}.

Definition file1080 : MediaFile :=
  {| mf_url := "https://example.com/1920x1080.mp4"; delivery := "progressive";
     type := "video/mp4"; width := 1920; height := 1080;
     bitrate := Some 15000; codec := None |}.

(** The renditions of the test "should prefer 1080p over 4K". *)
Definition testRenditions : list MediaFile :=
  [ {| mf_url := "https://example.com/3840x2160.mp4"; delivery := "progressive";
       type := "video/mp4"; width := 3840; height := 2160;
       bitrate := Some 8000; codec := None |};
    {| mf_url := "https://example.com/1920x1080.mp4"; delivery := "progressive";
       type := "video/mp4"; width := 1920; height := 1080;
       bitrate := Some 2500; codec := None |};
    {| mf_url := "https://example.com/1280x720.mp4"; delivery := "progressive";
       type := "video/mp4"; width := 1280; height := 720;
       bitrate := Some 1500; codec := None |} ].
End Fixtures.

Module PlayerFixtures.
Import AdPlayer Runtime.

(** A configuration with the defaults of [DEFAULT_CONFIG] and every
    callback supplied. *)
Definition configFor (url : string) : AdPlayerConfig :=
  {| vastUrl := url; targetBitrate := 2500; maxWrapperDepth := 5;
     timeout := 10000; debug := false; skipButtonText := "Skip Ad";
     skipOffset := None; customStartOverlay := false;
     onStart := true; onComplete := true; onSkip := true;
     onProgress := true; onError := true |}.

(** A frozen clock and a constant random token. *)
Definition testAmbient : Ambient :=
  {| dateNow := λ _, 1768305600000; randomToken := λ _, "k3j2h1" |}.

(** The player as [init] leaves it just before [attemptAutoplay], for
    the document [SIMPLE_VAST], with one listener registered. *)
Definition readyPlayer : AdPlayer :=
  {| config := configFor "https://example.com/vast.xml";
     parser := VASTParser.construct
                 {| VASTParser.cfg_maxWrapperDepth := Some 5;
                    VASTParser.cfg_timeout := Some 10000;
                    VASTParser.cfg_debug := Some false |};
     videoElement := true;
     overlayElement := false;
     skipButtonElement := false;
     focusTrap := true;
     boundKeyHandler := true;
     tracker :=
       Some (AdTracker.mkAdTracker
               (AdTracker.groupEventsByType
                  (Vast.trackingEvents Fixtures.simpleLinear))
               ∅
               (Macros.mkMacroContext (Some "https://example.com/video.mp4")
                  None None None None None));
     state :=
       {| PlayerTypes.status := PlayerTypes.Loading;
          PlayerTypes.currentTime := Num.ofZ 0;
          PlayerTypes.duration := Num.ofZ 0;
          PlayerTypes.muted := true; PlayerTypes.volume := Num.ofZ 1;
          PlayerTypes.canSkip := false;
          PlayerTypes.skipCountdown := Num.ofZ 0;
          PlayerTypes.mediaFile := None; PlayerTypes.error := None |};
     ads := [Fixtures.simpleAd];
     listeners := [7%nat];
     quartilesFired := ∅ |}.
End PlayerFixtures.

Module ExtraSpec.
Import Vast VASTParser.

(** A non-empty string of decimal digits. *)
Fixpoint allDigits (s : string) : bool :=
  match s with
  | EmptyString => true
  | String c s' => Js.isDigit c && allDigits s'
  end.

Definition isDigits (s : string) : bool :=
  match s with
  | EmptyString => false
  | _ => allDigits s
  end.

(** [s.includes(c)] for a single character. *)
Fixpoint hasChar (c : ascii) (s : string) : bool :=
  match s with
  | EmptyString => false
  | String d s' => Ascii.eqb c d || hasChar c s'
  end.

(** What may follow a run of digits for the run to end there. *)
Definition stops (r : string) : bool :=
  match r with
  | EmptyString => true
  | String c _ => negb (Js.isDigit c)
  end.

(** The listener notifications in a trace. *)
Definition notified (es : list Runtime.Effect)
  : list (nat * PlayerTypes.AdPlayerEvent) :=
  omap (λ e, match e with
             | Runtime.Notify l ev => Some (l, ev)
             | _ => None
             end) es.

(** A successful [ParseResult]. *)
Definition succeeded (response : VASTResponse) : ParseResult :=
  {| success := true; response := Some response; error := None |}.

(** The response [parseXml] builds from the [VAST] element. *)
Definition responseOf (vast : VastElement) (ads : list Ad) : VASTResponse :=
  {| version := default "4.0" (Macros.truthyStr (ve_version vast));
     ads := ads;
     vr_errors := ve_errors vast |}.

(** [init] ends in the error [e]: the status is [Error], [e] is
    recorded, no tracker was made and no pixel went out. *)
Definition initFailsWith (host : Host) (amb : Runtime.Ambient)
           (accepted : bool) (p : AdPlayer.AdPlayer) (w : Runtime.World)
           (e : PlayerTypes.AdError) : Prop :=
  let r := AdPlayer.init host amb accepted p w in
  PlayerTypes.status (AdPlayer.state r.1) = PlayerTypes.Error
  ∧ PlayerTypes.error (AdPlayer.state r.1) = Some e
  ∧ AdPlayer.tracker r.1 = None
  ∧ Runtime.pixels (Runtime.trace r.2) = Runtime.pixels (Runtime.trace w).
End ExtraSpec.

Module ExtraFixtures.
Import Vast VASTParser Fixtures.

(** A wrapper Ad whose tag URI cannot be fetched. *)
Definition deadWrapperAd (fallback : bool) : Ad :=
  {| ad_id := "dead"; ad_sequence := None;
     impressions := [];
     creatives := [];
     errors := [];
     wrapper :=
       Some {| vastAdTagURI := "https://example.com/timeout.xml";
               followAdditionalWrappers := true;
               allowMultipleAds := false;
               fallbackOnNoAd := fallback |};
     inLine := false |}.

(** A server whose only document holds an inline Ad, then the dead
    wrapper, then an Ad without creative. *)
Definition mixedHost (fallback : bool) : Host :=
  {| fetchFn := λ url,
       if String.eqb url "https://example.com/mixed.xml"
       then Response true 200 "OK" "MIXED_VAST"
       else Rejected (ErrorObj "Aborted");
     xmlParser := λ _,
       XmlDoc (Some (vastOf [simpleAd; deadWrapperAd fallback; noLinearAd])) |}.

(** A playing ad with a skip button that opens after five seconds,
    set by the configuration. *)
Definition skippablePlayer : AdPlayer.AdPlayer :=
  AdPlayer.mkAdPlayer
    {| AdPlayer.vastUrl := "https://example.com/vast.xml";
       AdPlayer.targetBitrate := 2500; AdPlayer.maxWrapperDepth := 5;
       AdPlayer.timeout := 10000; AdPlayer.debug := false;
       AdPlayer.skipButtonText := "Skip Ad";
       AdPlayer.skipOffset := Some (Num.ofZ 5);
       AdPlayer.customStartOverlay := false;
       AdPlayer.onStart := true; AdPlayer.onComplete := true;
       AdPlayer.onSkip := true; AdPlayer.onProgress := true;
       AdPlayer.onError := true |}
    (AdPlayer.parser PlayerFixtures.readyPlayer)
    true false true true true
    (AdPlayer.tracker PlayerFixtures.readyPlayer)
    (AdPlayer.withSkip (Num.ofZ 5) false
       (AdPlayer.withStatus PlayerTypes.Playing
          (AdPlayer.state PlayerFixtures.readyPlayer)))
    (AdPlayer.ads PlayerFixtures.readyPlayer)
    (AdPlayer.listeners PlayerFixtures.readyPlayer)
    ∅.

(** The same ad with the offset of the configuration set to 0 and a
    creative that asks for five seconds. *)
Definition zeroOffsetPlayer : AdPlayer.AdPlayer :=
  AdPlayer.mkAdPlayer
    {| AdPlayer.vastUrl := "https://example.com/vast.xml";
       AdPlayer.targetBitrate := 2500; AdPlayer.maxWrapperDepth := 5;
       AdPlayer.timeout := 10000; AdPlayer.debug := false;
       AdPlayer.skipButtonText := "Skip Ad";
       AdPlayer.skipOffset := Some (Num.ofZ 0);
       AdPlayer.customStartOverlay := false;
       AdPlayer.onStart := true; AdPlayer.onComplete := true;
       AdPlayer.onSkip := true; AdPlayer.onProgress := true;
       AdPlayer.onError := true |}
    (AdPlayer.parser PlayerFixtures.readyPlayer)
    true false false true true
    (AdPlayer.tracker PlayerFixtures.readyPlayer)
    (AdPlayer.withStatus PlayerTypes.Playing
       (AdPlayer.state PlayerFixtures.readyPlayer))
    [ {| ad_id := "12345"; ad_sequence := None;
         impressions := [];
         creatives :=
           [ mkCreative None None None
               (Some {| duration := Num.ofZ 30;
                        skipOffset := Some (Num.ofZ 5);
                        mediaFiles := mediaFiles simpleLinear;
                        trackingEvents := [];
                        clickThrough := None |}) ];
         errors := [];
         wrapper := None;
         inLine := true |} ]
    (AdPlayer.listeners PlayerFixtures.readyPlayer)
    ∅.
End ExtraFixtures.

(** * Properties *)

Section StringFacts.
Import TokenDefs.

Lemma str_app_cons (c : ascii) (s t : string) :
  String c s +:+ t = String c (s +:+ t).
Proof. reflexivity. Qed.

Lemma str_app_nil_l (t : string) : EmptyString +:+ t = t.
Proof. reflexivity. Qed.

Lemma str_app_nil_r (t : string) : t +:+ EmptyString = t.
Proof. induction t as [|c t IH]; [done | by rewrite str_app_cons, IH]. Qed.

Lemma str_app_assoc (a b c : string) : (a +:+ b) +:+ c = a +:+ b +:+ c.
Proof.
  induction a as [|x a IH]; [done |]. by rewrite !str_app_cons, IH.
Qed.

Lemma prefix_app (p b : string) : String.prefix p (p +:+ b) = true.
Proof.
  induction p as [|x p IH].
  - rewrite str_app_nil_l. by destruct b.
  - rewrite str_app_cons. simpl. destruct (ascii_dec x x); [exact IH | done].
Qed.

Lemma prefix_split (p s : string) :
  String.prefix p s = true → ∃ b, s = p +:+ b.
Proof.
  revert s. induction p as [|x p IH]; intros s H.
  - by exists s.
  - destruct s as [|y s]; simpl in H; [done |].
    destruct (ascii_dec x y) as [->|]; [| done].
    destruct (IH _ H) as [b ->]. by exists b.
Qed.

Lemma includes_here (q s : string) :
  String.prefix q s = true → Js.includes q s = true.
Proof. intros H. destruct s; cbn [Js.includes]; by rewrite H. Qed.

Lemma includes_intro (q a b : string) : Js.includes q (a +:+ q +:+ b) = true.
Proof.
  induction a as [|x a IH].
  - rewrite str_app_nil_l. apply includes_here, prefix_app.
  - rewrite str_app_cons. cbn [Js.includes]. rewrite IH. apply orb_true_r.
Qed.

Lemma includes_elim (q s : string) :
  Js.includes q s = true → ∃ a b, s = a +:+ q +:+ b.
Proof.
  induction s as [|x s IH]; cbn [Js.includes]; intros H.
  - rewrite orb_false_r in H. destruct (prefix_split _ _ H) as [b Hb].
    by exists EmptyString, b.
  - apply orb_true_iff in H as [H | H].
    + destruct (prefix_split _ _ H) as [b Hb]. by exists EmptyString, b.
    + destruct (IH H) as (a & b & ->). by exists (String x a), b.
Qed.

Lemma prefix_agree (p q b : string) :
  String.prefix p (q +:+ b) = true → agree p q = true.
Proof.
  revert q. induction p as [|x p IH]; intros q H; [done |].
  destruct q as [|y q]; [done |]. rewrite str_app_cons in H. simpl in *.
  destruct (ascii_dec x y) as [->|]; [| done].
  rewrite Ascii.eqb_refl. simpl. by apply IH.
Qed.

Lemma prefix_straddle (pat a s : string) :
  String.prefix pat (a +:+ s) = true →
  (String.length a < String.length pat)%nat →
  ∃ p', p' ∈ tails pat ∧ String.prefix p' s = true.
Proof.
  revert pat. induction a as [|x a IH]; intros pat H Hlen.
  - destruct pat as [|y pat]; simpl in Hlen; [lia |].
    exists (String y pat). split; [left | exact H].
  - destruct pat as [|y pat]; simpl in Hlen; [lia |].
    rewrite str_app_cons in H. simpl in H. destruct (ascii_dec y x); [| done].
    destruct (IH pat H ltac:(lia)) as (p' & Hin & Hp).
    exists p'. split; [by right | done].
Qed.

Section Preserve.
Variables pat template q : string.
Hypothesis Hno : noOverlap pat q = true.

Lemma no_match_inside (q' b : string) :
  q' ∈ tails q → String.prefix pat (q' +:+ b) = false.
Proof.
  intros Hin. apply andb_true_iff in Hno as [_ H2].
  rewrite forallb_forall in H2.
  specialize (H2 q'). rewrite <- list_elem_of_In in H2. specialize (H2 Hin).
  destruct (String.prefix pat (q' +:+ b)) eqn:E; [| done].
  apply prefix_agree in E. by rewrite E in H2.
Qed.

Lemma no_match_across (a b : string) :
  String.prefix pat (a +:+ q +:+ b) = true →
  (String.length pat <= String.length a)%nat.
Proof.
  intros H. destruct (le_lt_dec (String.length pat) (String.length a)); [done |].
  destruct (prefix_straddle _ _ _ H l) as (p' & Hin & Hp).
  apply prefix_agree in Hp.
  apply andb_true_iff in Hno as [H1 _]. rewrite forallb_forall in H1.
  specialize (H1 p'). rewrite <- list_elem_of_In in H1. specialize (H1 Hin).
  by rewrite Hp in H1.
Qed.

Lemma copy_inside (q' before b : string) :
  (∀ s, s ∈ tails q' → s ∈ tails q) →
  Js.replaceAll_go pat template 0 before (q' +:+ b)
  = q' +:+ Js.replaceAll_go pat template 0 (before +:+ q') b.
Proof.
  revert before. induction q' as [|c q' IH]; intros before Hsub.
  - by rewrite str_app_nil_l, str_app_nil_r.
  - rewrite !str_app_cons. cbn [Js.replaceAll_go].
    rewrite <- str_app_cons, no_match_inside by (apply Hsub; left).
    f_equal. rewrite IH.
    + by rewrite str_app_assoc.
    + intros s Hs. apply Hsub. by right.
Qed.

Lemma replaceAll_go_keeps (a b : string) :
  ∀ (k : nat) (before : string),
    (k <= String.length a)%nat →
    ∃ r r', Js.replaceAll_go pat template k before (a +:+ q +:+ b)
            = r +:+ q +:+ r'.
Proof.
  induction a as [|c a IH]; intros k before Hk.
  - simpl in Hk. assert (k = 0%nat) as -> by lia.
    rewrite str_app_nil_l. exists EmptyString. eexists.
    rewrite str_app_nil_l. apply copy_inside. auto.
  - rewrite str_app_cons.
    destruct k as [|k]; cbn [Js.replaceAll_go].
    + destruct (String.prefix pat (String c (a +:+ q +:+ b))) eqn:E.
      * apply (no_match_across (String c a) b) in E. simpl in E.
        destruct (IH (String.length pat - 1)%nat
                     (before +:+ String c EmptyString) ltac:(lia))
          as (r & r' & ->).
        eexists (_ +:+ r), r'. symmetry. apply str_app_assoc.
      * destruct (IH 0%nat (before +:+ String c EmptyString) ltac:(lia))
          as (r & r' & ->).
        by exists (String c r), r'.
    + simpl in Hk. apply IH. lia.
Qed.

Lemma replaceAll_keeps (s : string) :
  Js.includes q s = true →
  Js.includes q (Js.replaceAll pat template s) = true.
Proof.
  intros H. apply includes_elim in H as (a & b & ->).
  destruct (replaceAll_go_keeps a b 0 EmptyString ltac:(lia)) as (r & r' & E).
  unfold Js.replaceAll. rewrite E. apply includes_intro.
Qed.
End Preserve.
End StringFacts.

Section MacroFacts.
Import Macros MacroSpec TokenDefs.

Lemma replaceWhen_keeps (pat q : string) (v : option string) (s : string) :
  noOverlap pat q = true →
  Js.includes q s = true →
  Js.includes q (replaceWhen pat v s) = true.
Proof.
  intros Hno H. destruct v as [x|]; [| exact H].
  by apply replaceAll_keeps.
Qed.

Lemma guard_present (m : ConditionalMacro) (c : MacroContext) :
  present m c = false → guard m c = false.
Proof.
  destruct m; cbn [guard present]; try done;
    rewrite !bool_decide_eq_false; intros H [x Hx]; apply H;
    [destruct (assetUri c) | destruct (adType c)]; by eauto.
Qed.

Ltac keep_token :=
  repeat first
    [ apply replaceWhen_keeps; [vm_compute; reflexivity |]
    | apply replaceAll_keeps; [vm_compute; reflexivity |] ].

Lemma replaceMacros_keeps_unguarded (m : ConditionalMacro) (url : string)
      (c : MacroContext) (now : Z) (rnd : string) :
  guard m c = false →
  Js.includes (token m) url = true →
  Js.includes (token m) (replaceMacros url c now rnd) = true.
Proof.
  intros Hg Hin. unfold replaceMacros.
  destruct m; cbn [guard present] in Hg; apply bool_decide_eq_false in Hg;
    rewrite <- eq_None_not_Some in Hg; cbn [token] in *.
  - keep_token. rewrite Hg. cbn. keep_token. exact Hin.
  - keep_token. rewrite Hg. cbn. keep_token. exact Hin.
  - keep_token. rewrite Hg. cbn. keep_token. exact Hin.
  - keep_token. rewrite Hg. cbn. keep_token. exact Hin.
  - keep_token. rewrite Hg. cbn. keep_token. exact Hin.
  - rewrite Hg. cbn. keep_token. exact Hin.
Qed.

(** C7. For every URL and every macro context, a conditional macro
    ([ASSETURI], [CONTENTPLAYHEAD], [ADPLAYHEAD], [ERRORCODE],
    [BREAKPOSITION], [ADTYPE]) whose context field is absent is not
    replaced: if its bracketed token occurs in the URL, the token still
    occurs literally in the output of [replaceMacros], whatever the other
    fields, the clock and the random token are.  In particular
    [ASSETURI] survives a context without [assetUri]. *)
Theorem replaceMacros_leaves_absent_macro (m : ConditionalMacro)
        (url : string) (c : MacroContext) (now : Z) (rnd : string) :
  present m c = false →
  Js.includes (token m) url = true →
  Js.includes (token m) (replaceMacros url c now rnd) = true.
Proof. intros H. apply replaceMacros_keeps_unguarded, guard_present, H. Qed.
End MacroFacts.

Section DurationFacts.
Import Num VASTParser.

(** The examples of the test suite and of the documentation. *)
Lemma parseDuration_examples :
  parseDuration (VStr "00:00:30") = Fin 30
  ∧ parseDuration (VStr "01:30:45") = Fin 5445
  ∧ parseDuration (VStr "00:00:30.500") = Fin (61 # 2)
  ∧ parseDuration (VStr "50%") = Fin (1 # 2).
Proof. repeat split. Qed.

(** A trailing [%] selects the percentage branch, which divides what
    [parseFloat] returns by 100 and nothing else. *)
Lemma parseDuration_percent (s : string) :
  Js.endsWith "%" s = true →
  parseDuration (VStr s) = divPos (parseFloat s) 100.
Proof. intros H. unfold parseDuration. by rewrite H. Qed.

(** Without a trailing [%], input that matches nothing yields 0. *)
Lemma parseDuration_fallback_zero (s : string) :
  Js.endsWith "%" s = false →
  matchHMS s = None →
  parseFloat s = NaN →
  parseDuration (VStr s) = Fin 0.
Proof. intros H1 H2 H3. unfold parseDuration. by rewrite H1, H2, H3. Qed.

Lemma parseDuration_not_a_string : parseDuration VOther = Fin 0.
Proof. reflexivity. Qed.

(** C6, failing input.  An expression that ends in [%] and holds no
    number ("abc%", "%") yields [NaN], not 0, while the same text without
    the [%] yields 0. *)
Theorem parseDuration_percent_without_number :
  parseDuration (VStr "abc%") = NaN
  ∧ parseDuration (VStr "%") = NaN
  ∧ parseDuration (VStr "abc") = Fin 0.
Proof. repeat split. Qed.
End DurationFacts.

Section SelectFacts.
Import Vast VASTParser SelectSpec Fixtures.

Section Sorting.
Context {A : Type} (f : A → Z).

Lemma head_insertBy (x : A) (s : list A) :
  head (insertBy (λ a b, f a - f b) x s)
  = match head s with
    | None => Some x
    | Some y => if f x - f y <=? 0 then Some x else Some y
    end.
Proof.
  destruct s as [|y s]; [done |]. cbn [insertBy head].
  by destruct (f x - f y <=? 0).
Qed.

Lemma head_sortBy_firstLeast (l : list A) :
  l ≠ [] →
  ∃ m, head (sortBy (λ a b, f a - f b) l) = Some m ∧ firstLeast f m l.
Proof.
  induction l as [|x l IH]; [done |]. intros _.
  unfold sortBy. cbn [foldr]. fold (sortBy (λ a b, f a - f b) l).
  rewrite head_insertBy.
  destruct l as [|y l'].
  - exists x. split; [done |]. exists [], []. split; [done |].
    split; intros z Hz; by apply elem_of_nil in Hz.
  - destruct (IH ltac:(done)) as (m & -> & l1 & l2 & E & H1 & H2).
    destruct (f x - f m <=? 0) eqn:C.
    + apply Z.leb_le in C. exists x. split; [done |].
      exists [], (y :: l'). split; [done |].
      split; [intros z Hz; by apply elem_of_nil in Hz |].
      intros z Hz. rewrite E in Hz.
      apply elem_of_app in Hz as [Hz | Hz].
      * specialize (H1 z Hz). lia.
      * apply elem_of_cons in Hz as [-> | Hz]; [lia |].
        specialize (H2 z Hz). lia.
    + apply Z.leb_gt in C. exists m. split; [done |].
      exists (x :: l1), l2. split; [by rewrite E |].
      split; [| done].
      intros z Hz. apply elem_of_cons in Hz as [-> | Hz]; [lia | by apply H1].
Qed.
End Sorting.

Lemma candidatesOf_cases (mediaFiles : list MediaFile) :
  candidatesOf mediaFiles = filter (λ mf, isMp4 mf = true) mediaFiles
  ∧ filter (λ mf, isMp4 mf = true) mediaFiles ≠ []
  ∨ candidatesOf mediaFiles = mediaFiles
    ∧ filter (λ mf, isMp4 mf = true) mediaFiles = [].
Proof.
  unfold candidatesOf.
  destruct (filter (λ mf, isMp4 mf = true) mediaFiles) as [|x l]; cbn; auto.
Qed.

Lemma candidatesOf_nonempty (mediaFiles : list MediaFile) :
  mediaFiles ≠ [] → candidatesOf mediaFiles ≠ [].
Proof.
  intros H. destruct (candidatesOf_cases mediaFiles) as [[-> ?] | [-> _]]; done.
Qed.

(** Whatever is selected is the first candidate of least score. *)
Lemma selectBestMediaFile_firstLeast (mediaFiles : list MediaFile) (target : Z) :
  mediaFiles ≠ [] →
  ∃ m, selectBestMediaFile mediaFiles target = Some m
       ∧ firstLeast (score target) m (candidatesOf mediaFiles).
Proof.
  intros H. unfold selectBestMediaFile.
  destruct mediaFiles as [|x l]; [done |]. cbn [length Nat.eqb].
  apply head_sortBy_firstLeast, candidatesOf_nonempty. done.
Qed.

Lemma selectBestMediaFile_empty (target : Z) :
  selectBestMediaFile [] target = None.
Proof. reflexivity. Qed.

(** C3, counterexample.  It is not the case that a file of height at
    most 1080 is returned whenever one exists among the candidates: with
    a 1080p file at 15000 kbps, a 4K file at 2500 kbps and target 2500,
    the scores are 12500 and 10000 and the 4K file is returned. *)
Lemma selectBestMediaFile_may_pick_4K :
  ¬ (∀ (mediaFiles : list MediaFile) (target : Z) (m : MediaFile),
       mediaFiles ≠ [] →
       (∃ c, c ∈ candidatesOf mediaFiles ∧ height c <= 1080) →
       selectBestMediaFile mediaFiles target = Some m →
       height m <= 1080).
Proof.
  intros H.
  specialize (H [file1080; file4K] 2500 file4K ltac:(done)).
  assert (height file4K <= 1080) as Hh; [| vm_compute in Hh; by apply Hh].
  apply H; [| reflexivity].
  exists file1080. split; [| vm_compute; discriminate].
  vm_compute. left.
Qed.

(** C3, amended.  For every non-empty list and every target, what
    [selectBestMediaFile] returns is the first candidate, in the
    original order, of least score
    [abs(bitrate_or_0 - target) + (height > 1080 ? 10000 : 0)]; and
    whenever some considered candidate has height at most 1080 and
    [abs(bitrate_or_0 - target) < 10000], the file returned has height
    at most 1080, even if a taller file has a closer bitrate. *)
Theorem selectBestMediaFile_prefers_1080 (mediaFiles : list MediaFile)
        (target : Z) :
  mediaFiles ≠ [] →
  ∃ m, selectBestMediaFile mediaFiles target = Some m
       ∧ firstLeast (score target) m (candidatesOf mediaFiles)
       ∧ ((∃ c, c ∈ candidatesOf mediaFiles
                ∧ height c <= 1080
                ∧ Z.abs (default 0 (bitrate c) - target) < 10000) →
          height m <= 1080).
Proof.
  intros Hne.
  destruct (selectBestMediaFile_firstLeast mediaFiles target Hne)
    as (m & Hm & Hfl).
  exists m. split; [done |]. split; [done |].
  intros (c & Hc & Hh & Hb).
  destruct Hfl as (l1 & l2 & E & H1 & H2).
  assert (score target m <= score target c) as Hle.
  { rewrite E in Hc. apply elem_of_app in Hc as [Hc | Hc].
    - specialize (H1 c Hc). lia.
    - apply elem_of_cons in Hc as [-> | Hc]; [lia | by apply H2]. }
  unfold score in Hle.
  destruct (height c >? 1080) eqn:C1; [apply Z.gtb_lt in C1; lia |].
  destruct (height m >? 1080) eqn:C2; [| rewrite Z.gtb_ltb in C2; apply Z.ltb_ge in C2; lia].
  lia.
Qed.
End SelectFacts.

Section TrackerFacts.
Import Vast Runtime AdTracker TrackerSpec.

Lemma groupEventsByType_acc (events : list TrackingEvent) (e : string) :
  ∀ m : gmap string (list TrackingEvent),
    default []
      (foldl (λ (map : gmap string (list TrackingEvent)) ev,
                <[event ev := default [] (map !! event ev) ++ [ev]]> map)
             m events !! e)
    = default [] (m !! e) ++ filter (λ ev, event ev = e) events.
Proof.
  induction events as [|ev events IH]; intros m.
  - by rewrite app_nil_r.
  - cbn [foldl]. rewrite IH, filter_cons.
    destruct (decide (event ev = e)) as [<- | Hne].
    + rewrite lookup_insert_eq. cbn. by rewrite <- app_assoc.
    + by rewrite lookup_insert_ne.
Qed.

Lemma groupEventsByType_lookup (events : list TrackingEvent) (e : string) :
  default [] (groupEventsByType events !! e)
  = filter (λ ev, event ev = e) events.
Proof.
  unfold groupEventsByType. rewrite groupEventsByType_acc.
  by rewrite lookup_empty.
Qed.

(** A missing entry behaves like an empty list of endpoints. *)
Lemma track_foldl (amb : Ambient) (e : string) (once : bool)
      (t : AdTracker) (w : World) :
  track amb e once t w
  = foldl (trackOne amb e once) (t, w) (default [] (trackingEvents t !! e)).
Proof. unfold track. by destruct (trackingEvents t !! e). Qed.

Lemma loop_always (amb : Ambient) (e : string) (t : AdTracker)
      (evs : list TrackingEvent) :
  ∀ w, foldl (trackOne amb e false) (t, w) evs
       = (t, {| reads := reads w + length evs;
                trace := trace w ++ (FirePixel <$>
                           expandAll amb (macroContext t) (reads w)
                                     (te_url <$> evs)) |}).
Proof.
  induction evs as [|ev evs IH]; intros w.
  - cbn. rewrite Nat.add_0_r, app_nil_r. by destruct w.
  - cbn [foldl]. unfold trackOne at 2. cbn [andb expand firePixel perform].
    rewrite IH. cbn. f_equal. f_equal; [lia |].
    by rewrite <- app_assoc.
Qed.

Lemma loop_once (amb : Ambient) (e : string) (evs : list TrackingEvent) :
  ∀ (t : AdTracker) (w : World),
    foldl (trackOne amb e true) (t, w) evs
    = ({| trackingEvents := trackingEvents t;
          firedEvents :=
            firedEvents t ∪ list_to_set (eventKey e <$> (te_url <$> evs));
          macroContext := macroContext t |},
       {| reads :=
            reads w + length (firstFirings e (firedEvents t) (te_url <$> evs));
          trace := trace w ++ (FirePixel <$>
                     expandAll amb (macroContext t) (reads w)
                       (firstFirings e (firedEvents t) (te_url <$> evs))) |}).
Proof.
  induction evs as [|ev evs IH]; intros t w.
  - cbn. rewrite Nat.add_0_r, app_nil_r, union_empty_r_L.
    by destruct t, w.
  - cbn [foldl]. unfold trackOne at 2. cbn [andb fmap list_fmap firstFirings].
    destruct (bool_decide (eventKey e (te_url ev) ∈ firedEvents t)) eqn:B.
    + rewrite IH. apply bool_decide_eq_true in B.
      f_equal. f_equal. cbn. set_solver.
    + cbn [expand firePixel perform]. rewrite IH. cbn.
      f_equal; f_equal; [set_solver | lia | by rewrite <- app_assoc].
Qed.

Lemma firstFirings_spec (e : string) (urls : list string) :
  ∀ F : gset string,
    NoDup (firstFirings e F urls)
    ∧ ∀ u, u ∈ firstFirings e F urls ↔ u ∈ urls ∧ eventKey e u ∉ F.
Proof.
  induction urls as [|u0 urls IH]; intros F.
  - cbn. split; [constructor |]. intros u. set_solver.
  - cbn [firstFirings]. case_bool_decide as B.
    + destruct (IH F) as [Hnd Hin]. split; [done |].
      intros u. rewrite Hin. split; [set_solver |].
      intros [Hu Hk]. apply elem_of_cons in Hu as [-> | Hu]; [done | auto].
    + destruct (IH (F ∪ {[eventKey e u0]})) as [Hnd Hin]. split.
      * constructor; [| done]. rewrite Hin. set_solver.
      * intros u. rewrite elem_of_cons, Hin. split.
        -- intros [-> | [Hu Hk]]; [set_solver | set_solver].
        -- intros [Hu Hk]. apply elem_of_cons in Hu as [-> | Hu]; [by left |].
           destruct (decide (u = u0)) as [-> | Hne]; [by left | right].
           split; [done |]. intros Hx.
           apply elem_of_union in Hx as [Hx | Hx]; [done |].
           apply elem_of_singleton in Hx. unfold eventKey in Hx.
           apply (inj (String.app e)) in Hx.
           apply (inj (String.app ":")) in Hx. done.
Qed.

Lemma firstFirings_none (e : string) (urls : list string) :
  ∀ F : gset string,
    (∀ u, u ∈ urls → eventKey e u ∈ F) → firstFirings e F urls = [].
Proof.
  induction urls as [|u0 urls IH]; intros F H; [done |].
  cbn [firstFirings]. rewrite bool_decide_eq_true_2 by (apply H; left).
  apply IH. intros u Hu. apply H. by right.
Qed.
End TrackerFacts.

Section TrackerClaims.
Import Vast Runtime AdTracker TrackerSpec.

Lemma expandAll_app (amb : Ambient) (c : Macros.MacroContext)
      (xs ys : list string) :
  ∀ k, expandAll amb c k (xs ++ ys)
       = expandAll amb c k xs ++ expandAll amb c (k + length xs) ys.
Proof.
  induction xs as [|x xs IH]; intros k; cbn.
  - by rewrite Nat.add_0_r.
  - rewrite IH. do 3 f_equal. lia.
Qed.

(** One call with [once = true], from any fired-set. *)
Lemma track_once (amb : Ambient) (events : list TrackingEvent) (e : string)
      (c : Macros.MacroContext) (F : gset string) (w : World) :
  track amb e true (mkAdTracker (groupEventsByType events) F c) w
  = (mkAdTracker (groupEventsByType events)
       (F ∪ list_to_set (eventKey e <$> registeredUrls events e)) c,
     {| reads := reads w + length (firstFirings e F (registeredUrls events e));
        trace := trace w ++ (FirePixel <$>
                   expandAll amb c (reads w)
                     (firstFirings e F (registeredUrls events e))) |}).
Proof.
  rewrite track_foldl. cbn [trackingEvents].
  rewrite groupEventsByType_lookup, loop_once. reflexivity.
Qed.

(** One call with [once = false], from any fired-set. *)
Lemma track_always (amb : Ambient) (events : list TrackingEvent) (e : string)
      (c : Macros.MacroContext) (F : gset string) (w : World) :
  track amb e false (mkAdTracker (groupEventsByType events) F c) w
  = (mkAdTracker (groupEventsByType events) F c,
     {| reads := reads w + length (registeredUrls events e);
        trace := trace w ++ (FirePixel <$>
                   expandAll amb c (reads w) (registeredUrls events e)) |}).
Proof.
  rewrite track_foldl. cbn [trackingEvents].
  rewrite groupEventsByType_lookup, loop_always. cbn [macroContext].
  unfold registeredUrls. by rewrite length_fmap.
Qed.

(** After [reset()] every registered URL fires on the next call. *)
Lemma track_after_reset (amb : Ambient) (events : list TrackingEvent)
      (e : string) (c : Macros.MacroContext) (F : gset string) (w : World) :
  ∃ fired,
    NoDup fired
    ∧ (∀ u, u ∈ fired ↔ u ∈ registeredUrls events e)
    ∧ trace (track amb e true
               (reset (mkAdTracker (groupEventsByType events) F c)) w).2
      = trace w ++ (FirePixel <$> expandAll amb c (reads w) fired).
Proof.
  exists (firstFirings e ∅ (registeredUrls events e)).
  destruct (firstFirings_spec e (registeredUrls events e) ∅) as [Hnd Hin].
  split; [done |]. split; [intros u; rewrite Hin; set_solver |].
  unfold reset. cbn [trackingEvents macroContext]. by rewrite track_once.
Qed.

(** C1. For a tracker built from a fixed list of tracking events and for
    every event type [e]: two calls [track(e)] with [once = true] on the
    fresh tracker deliver each URL registered for [e] exactly once (the
    delivered pixels are the expansions of a duplicate-free list holding
    exactly the registered URLs); two calls with [once = false] deliver
    every registration twice, leave the fired-set as it was and deliver
    the same whatever the fired-set holds; and after [reset()] a further
    [track(e)] with [once = true] delivers each registered URL again. *)
Theorem track_dedup_and_reset (amb : Ambient) (events : list TrackingEvent)
        (e : string) (c : Macros.MacroContext) (F : gset string) (w : World) :
  let urls := registeredUrls events e in
  let fresh := mkAdTracker (groupEventsByType events) ∅ c in
  let used := mkAdTracker (groupEventsByType events) F c in
  (∃ fired,
      NoDup fired
      ∧ (∀ u, u ∈ fired ↔ u ∈ urls)
      ∧ trace (trackTwice amb e true fresh w).2
        = trace w ++ (FirePixel <$> expandAll amb c (reads w) fired))
  ∧ (trace (trackTwice amb e false used w).2
     = trace w ++ (FirePixel <$> expandAll amb c (reads w) (urls ++ urls))
     ∧ firedEvents (trackTwice amb e false used w).1 = F
     ∧ (trackTwice amb e false used w).2 = (trackTwice amb e false fresh w).2)
  ∧ (∃ fired,
        NoDup fired
        ∧ (∀ u, u ∈ fired ↔ u ∈ urls)
        ∧ trace (track amb e true
                   (reset (trackTwice amb e true fresh w).1)
                   (trackTwice amb e true fresh w).2).2
          = trace (trackTwice amb e true fresh w).2
            ++ (FirePixel <$>
                  expandAll amb c (reads (trackTwice amb e true fresh w).2)
                            fired)).
Proof.
  intros urls fresh used.
  assert (trackTwice amb e true fresh w
          = (mkAdTracker (groupEventsByType events)
               (list_to_set (eventKey e <$> urls)) c,
             {| reads := reads w + length (firstFirings e ∅ urls);
                trace := trace w ++ (FirePixel <$>
                           expandAll amb c (reads w) (firstFirings e ∅ urls)) |}))
    as Htwice.
  { unfold trackTwice, fresh. rewrite track_once, track_once.
    fold urls.
    rewrite (firstFirings_none e urls (∅ ∪ list_to_set (eventKey e <$> urls))).
    - cbn. rewrite Nat.add_0_r, app_nil_r. f_equal. f_equal. set_solver.
    - intros u Hu. apply elem_of_union_r, elem_of_list_to_set.
      by apply list_elem_of_fmap_2. }
  split; [| split].
  - exists (firstFirings e ∅ urls).
    destruct (firstFirings_spec e urls ∅) as [Hnd Hin].
    split; [done |]. split; [intros u; rewrite Hin; set_solver |].
    by rewrite Htwice.
  - assert (∀ G, trackTwice amb e false
                   (mkAdTracker (groupEventsByType events) G c) w
                 = (mkAdTracker (groupEventsByType events) G c,
                    {| reads := reads w + length urls + length urls;
                       trace := trace w ++ (FirePixel <$>
                                  expandAll amb c (reads w) (urls ++ urls)) |}))
      as Hboth.
    { intros G. unfold trackTwice. rewrite track_always, track_always.
      fold urls. cbn. rewrite expandAll_app, fmap_app, <- app_assoc. done. }
    unfold used, fresh. rewrite !Hboth. done.
  - rewrite Htwice. cbn [fst snd].
    destruct (track_after_reset amb events e c
                (list_to_set (eventKey e <$> urls))
                {| reads := reads w + length (firstFirings e ∅ urls);
                   trace := trace w ++ (FirePixel <$>
                              expandAll amb c (reads w) (firstFirings e ∅ urls)) |})
      as (fired & Hnd & Hin & Ht).
    exists fired. done.
Qed.
End TrackerClaims.

Section ResolverFacts.
Import Vast VASTParser ResolverSpec.

Variable host : Host.
Variable config : Config.

(** The recursion on [remaining] is the recursion of the source on
    [depth]. *)
Lemma fetchAndParse_unfold (url : string) (depth : Z) :
  fetchAndParse host config url depth
  = if depth >=? maxWrapperDepth config then
      ([], Throw (wrapperLimitExceeded config))
    else
      match fetchWithTimeout host url with
      | Throw e => ([url], Throw e)
      | Return xml =>
          match parseXml host xml with
          | Throw e => ([url], Throw e)
          | Return parsed =>
              let '(fetched, resolved) :=
                allFlat
                  (map (λ ad,
                          if hasWrapperURI ad
                          then resolveWrapper host config ad (depth + 1)
                          else ([], Return [ad]))
                       (ads parsed)) in
              (url :: fetched,
               match resolved with
               | Return resolvedAds =>
                   Return {| version := version parsed;
                             ads := resolvedAds;
                             vr_errors := vr_errors parsed |}
               | Throw e => Throw e
               end)
          end
      end.
Proof.
  unfold fetchAndParse, resolveWrapper.
  destruct (depth >=? maxWrapperDepth config) eqn:C.
  - apply Z.geb_le in C.
    replace (Z.to_nat (maxWrapperDepth config - depth)) with 0%nat by lia.
    reflexivity.
  - rewrite Z.geb_leb in C. apply Z.leb_gt in C.
    replace (Z.to_nat (maxWrapperDepth config - depth))
      with (S (Z.to_nat (maxWrapperDepth config - (depth + 1)))) by lia.
    reflexivity.
Qed.

(** At or beyond the bound nothing is fetched. *)
Lemma fetchAndParse_at_limit (url : string) (depth : Z) :
  depth >= maxWrapperDepth config →
  fetchAndParse host config url depth
  = ([], Throw (wrapperLimitExceeded config)).
Proof.
  intros H. rewrite fetchAndParse_unfold.
  destruct (depth >=? maxWrapperDepth config) eqn:C; [done |].
  rewrite Z.geb_leb in C. apply Z.leb_gt in C. lia.
Qed.

Lemma fetch_ok (url : string) (status : Z) (statusText xml : string) :
  fetchFn host url = Response true status statusText xml →
  fetchWithTimeout host url = Return xml.
Proof. unfold fetchWithTimeout. by intros ->. Qed.

Lemma parseXml_ok (xml : string) (vast : VastElement) :
  xmlParser host xml = XmlDoc (Some vast) →
  ∃ parsed, parseXml host xml = Return parsed ∧ ads parsed = ve_ads vast.
Proof. unfold parseXml. intros ->. eauto. Qed.

Lemma allFlat_inline (l : list Ad) :
  (∀ ad, ad ∈ l → hasWrapperURI ad = false) →
  ∀ f, allFlat (map (λ ad, if hasWrapperURI ad then f ad else ([], Return [ad])) l)
       = ([], Return l).
Proof.
  induction l as [|ad l IH]; intros H f; [done |].
  cbn [map allFlat]. rewrite (H ad) by left.
  rewrite IH by (intros x Hx; apply H; by right). done.
Qed.

Lemma hasWrapperURI_true (ad : Ad) (w : Wrapper) :
  Vast.wrapper ad = Some w → vastAdTagURI w ≠ "" → hasWrapperURI ad = true.
Proof.
  unfold hasWrapperURI. intros -> H.
  apply negb_true_iff, String.eqb_neq, H.
Qed.

Lemma resolveWrapper_with_at (nested : string → Outcome VASTResponse)
      (ad : Ad) (w : Wrapper) :
  Vast.wrapper ad = Some w → vastAdTagURI w ≠ "" →
  resolveWrapper_with nested ad
  = match nested (vastAdTagURI w) with
    | (fetched, Return nestedResponse) =>
        (fetched, Return (map (mergeWrapperTracking ad) (ads nestedResponse)))
    | (fetched, Throw error) =>
        if fallbackOnNoAd w then (fetched, Return [])
        else (fetched, Throw error)
    end.
Proof.
  unfold resolveWrapper_with. intros -> H.
  apply String.eqb_neq in H. by rewrite H.
Qed.

(** A chain shorter than the levels allowed resolves. *)
Lemma chain_resolves (url : string) (ws : list Wrapper) :
  wrapperChain host url ws →
  ∀ remaining, (length ws < remaining)%nat →
    ∃ fetched resp,
      fetchAndParse_rec host config remaining url = (fetched, Return resp).
Proof.
  induction 1 as [url status statusText xml vast Hf Hx Hin
                 |url status statusText xml vast ad w ws Hf Hx Hads Hw Huri Hch IH];
    intros remaining Hlen.
  - destruct remaining as [|r]; [cbn in Hlen; lia |].
    cbn [fetchAndParse_rec]. rewrite (fetch_ok _ _ _ _ Hf).
    destruct (parseXml_ok _ _ Hx) as (parsed & -> & Hp).
    rewrite Hp, allFlat_inline by done. eauto.
  - destruct remaining as [|r]; [cbn in Hlen; lia |].
    cbn [fetchAndParse_rec]. rewrite (fetch_ok _ _ _ _ Hf).
    destruct (parseXml_ok _ _ Hx) as (parsed & -> & Hp).
    rewrite Hp, Hads. cbn [map allFlat].
    rewrite (hasWrapperURI_true _ _ Hw Huri).
    rewrite (resolveWrapper_with_at _ _ _ Hw Huri).
    destruct (IH r ltac:(cbn in Hlen; lia)) as (fetched & resp & ->).
    eauto.
Qed.

(** A chain at least as long as the levels allowed, none of whose
    wrappers falls back, runs into the bound. *)
Lemma chain_exhausts (url : string) (ws : list Wrapper) :
  wrapperChain host url ws →
  Forall (λ w, fallbackOnNoAd w = false) ws →
  ∀ remaining, (remaining <= length ws)%nat →
    ∃ fetched,
      fetchAndParse_rec host config remaining url
      = (fetched, Throw (wrapperLimitExceeded config))
      ∧ length fetched = remaining.
Proof.
  induction 1 as [url status statusText xml vast Hf Hx Hin
                 |url status statusText xml vast ad w ws Hf Hx Hads Hw Huri Hch IH];
    intros Hfb remaining Hlen.
  - cbn in Hlen. assert (remaining = 0%nat) as -> by lia. by exists [].
  - destruct remaining as [|r]; [by exists [] |].
    cbn [fetchAndParse_rec]. rewrite (fetch_ok _ _ _ _ Hf).
    destruct (parseXml_ok _ _ Hx) as (parsed & -> & Hp).
    rewrite Hp, Hads. cbn [map allFlat].
    rewrite (hasWrapperURI_true _ _ Hw Huri).
    rewrite (resolveWrapper_with_at _ _ _ Hw Huri).
    apply Forall_cons in Hfb as [Hw0 Hfb].
    destruct (IH Hfb r ltac:(cbn in Hlen; lia)) as (fetched & -> & Hl).
    rewrite Hw0. cbn. exists (url :: fetched ++ []).
    split; [done |]. cbn. rewrite app_nil_r. by rewrite Hl.
Qed.
End ResolverFacts.

Section ResolverClaims.
Import Vast VASTParser ResolverSpec Fixtures.

Lemma parse_of_outcome (host : Host) (config : Config) (url : string) :
  parse host config url
  = match fetchAndParse_rec host config
            (Z.to_nat (maxWrapperDepth config)) url with
    | (fetched, Return resp) =>
        (fetched, {| success := true; response := Some resp; error := None |})
    | (fetched, Throw e) =>
        (fetched,
         failure match e with ErrorObj m => m | NonError => "Unknown error" end)
    end.
Proof.
  unfold parse, fetchAndParse. rewrite Z.sub_0_r. reflexivity.
Qed.

(** C2, counterexample.  A chain of exactly [maxWrapperDepth] nested
    wrappers need not fail: with [maxWrapperDepth = 1] and a wrapper
    that sets [fallbackOnNoAd], the limit error of the nested fetch is
    caught and [parse] succeeds with an empty ad list. *)
Lemma wrapper_limit_absorbed_by_fallback :
  ¬ (∀ (host : Host) (config : Config) (url : string) (ws : list Wrapper),
       wrapperChain host url ws →
       Z.of_nat (length ws) = maxWrapperDepth config →
       success (parse host config url).2 = false).
Proof.
  intros H.
  specialize (H testHost (configOf 1) "https://example.com/wrapper-fallback.xml"
                [wrapperOf true]).
  assert (success (parse testHost (configOf 1)
                     "https://example.com/wrapper-fallback.xml").2 = false)
    as Hs; [| vm_compute in Hs; discriminate].
  apply H; [| reflexivity].
  eapply (chain_wrapper testHost _ 200 "OK" "WRAPPER_VAST fallbackOnNoAd"
            (vastOf [wrapperAd true]) (wrapperAd true) (wrapperOf true) []);
    try reflexivity; [discriminate |].
  eapply (chain_inline testHost _ 200 "OK" "SIMPLE_VAST" (vastOf [simpleAd]));
    try reflexivity.
  intros ad Had. apply list_elem_of_singleton in Had as ->. reflexivity.
Qed.

(** C2, amended.  For every [maxWrapperDepth]: a chain of exactly
    [maxWrapperDepth] nested wrappers, none of which sets
    [fallbackOnNoAd], fails with the error "Wrapper limit exceeded" after
    fetching only the wrapper documents; a chain of
    [maxWrapperDepth - 1] nested wrappers succeeds; and a fetch entered
    at a depth [>= maxWrapperDepth] fails at once, before fetching. *)
Theorem wrapper_depth_bound (host : Host) (config : Config) (url : string)
        (ws : list Wrapper) :
  wrapperChain host url ws →
  (Z.of_nat (length ws) = maxWrapperDepth config →
   Forall (λ w, fallbackOnNoAd w = false) ws →
   ∃ fetched,
     parse host config url
     = (fetched,
        failure ("Wrapper limit exceeded (max: "
                 +:+ pretty (maxWrapperDepth config) +:+ ")"))
     ∧ length fetched = length ws)
  ∧ (Z.of_nat (length ws) = maxWrapperDepth config - 1 →
     success (parse host config url).2 = true)
  ∧ (∀ (u : string) (depth : Z),
       depth >= maxWrapperDepth config →
       fetchAndParse host config u depth
       = ([], Throw (ErrorObj ("Wrapper limit exceeded (max: "
                               +:+ pretty (maxWrapperDepth config) +:+ ")")))).
Proof.
  intros Hch. split; [| split].
  - intros Hlen Hfb. rewrite parse_of_outcome.
    destruct (chain_exhausts host config url ws Hch Hfb
                (Z.to_nat (maxWrapperDepth config)) ltac:(lia))
      as (fetched & -> & Hl).
    exists fetched. split; [done | lia].
  - intros Hlen. rewrite parse_of_outcome.
    destruct (chain_resolves host config url ws Hch
                (Z.to_nat (maxWrapperDepth config)) ltac:(lia))
      as (fetched & resp & ->).
    reflexivity.
  - intros u depth Hd. by apply fetchAndParse_at_limit.
Qed.

Lemma testHost_chain :
  wrapperChain testHost "https://example.com/wrapper.xml" [wrapperOf false].
Proof.
  eapply (chain_wrapper testHost _ 200 "OK" "WRAPPER_VAST"
            (vastOf [wrapperAd false]) (wrapperAd false) (wrapperOf false) []);
    try reflexivity; [discriminate |].
  eapply (chain_inline testHost _ 200 "OK" "SIMPLE_VAST" (vastOf [simpleAd]));
    try reflexivity.
  intros ad Had. apply list_elem_of_singleton in Had as ->. reflexivity.
Qed.

Lemma wrapper_depth_bound_witness :
  (∃ fetched,
      parse testHost (configOf 1) "https://example.com/wrapper.xml"
      = (fetched, failure "Wrapper limit exceeded (max: 1)")
      ∧ length fetched = 1%nat)
  ∧ success (parse testHost (configOf 2) "https://example.com/wrapper.xml").2
    = true
  ∧ fetchAndParse testHost (configOf 2) "https://example.com/wrapper.xml" 2
    = ([], Throw (ErrorObj "Wrapper limit exceeded (max: 2)")).
Proof.
  split; [| split].
  - apply (wrapper_depth_bound testHost (configOf 1) _ _ testHost_chain);
      [reflexivity |].
    repeat constructor.
  - apply (wrapper_depth_bound testHost (configOf 2) _ _ testHost_chain).
    reflexivity.
  - apply (wrapper_depth_bound testHost (configOf 2) _ _ testHost_chain).
    vm_compute. discriminate.
Defined.
End ResolverClaims.

Section MergeFacts.
Import Vast VASTParser ResolverSpec MergeSpec Fixtures.

(** The wrapper's events are those of all its Linear creatives, in
    order. *)
Lemma getWrapperTrackingEvents_concat (wrapper : Ad) :
  getWrapperTrackingEvents wrapper
  = concat (trackingEvents <$> linears wrapper).
Proof.
  unfold getWrapperTrackingEvents, linears.
  enough (∀ cs acc,
            foldl (λ events creative,
                     match linear creative with
                     | Some l => events ++ trackingEvents l
                     | None => events
                     end) acc cs
            = acc ++ concat (trackingEvents <$> omap linear cs)) as H.
  { by rewrite H. }
  induction cs as [|cr cs IH]; intros acc.
  - cbn. by rewrite app_nil_r.
  - cbn [foldl]. rewrite IH.
    change (omap linear (cr :: cs))
      with (match linear cr with
            | Some l => l :: omap linear cs
            | None => omap linear cs
            end).
    destruct (linear cr) as [l|]; [| done].
    rewrite fmap_cons. cbn [concat]. by rewrite <- app_assoc.
Qed.

(** Every Linear of the merged Ad is the nested one with the wrapper's
    events in front. *)
Lemma mergeWrapperTracking_linears (wrapper nested : Ad) :
  linears (mergeWrapperTracking wrapper nested)
  = (λ l, {| duration := duration l;
             skipOffset := skipOffset l;
             mediaFiles := mediaFiles l;
             trackingEvents :=
               getWrapperTrackingEvents wrapper ++ trackingEvents l;
             clickThrough := clickThrough l |}) <$> linears nested.
Proof.
  unfold linears, mergeWrapperTracking. cbn [creatives].
  induction (creatives nested) as [|cr cs IH]; [done |].
  cbn [map].
  change (omap linear (cr :: cs))
    with (match linear cr with
          | Some l => l :: omap linear cs
          | None => omap linear cs
          end).
  match goal with
  | |- omap linear (?c :: ?r) = _ =>
      change (omap linear (c :: r))
        with (match linear c with
              | Some l => l :: omap linear r
              | None => omap linear r
              end)
  end.
  cbn [linear]. rewrite IH. by destruct (linear cr).
Qed.

(** C4. When the nested document of a wrapper Ad resolves, the result of
    [resolveWrapper] has one Ad per Ad of the nested document, in order,
    and in each of them the impressions are the wrapper's own followed by
    the nested Ad's, the errors likewise, and the tracking events of each
    Linear, the first one in particular, are the events of all the
    wrapper's Linear creatives followed by that Linear's own; nothing
    of either side is dropped. *)
Theorem resolveWrapper_merges_tracking (host : Host) (config : Config)
        (wrapperAd : Ad) (w : Wrapper) (depth : Z)
        (fetched : list string) (nestedResponse : VASTResponse) :
  Vast.wrapper wrapperAd = Some w →
  vastAdTagURI w ≠ "" →
  fetchAndParse host config (vastAdTagURI w) depth
  = (fetched, Return nestedResponse) →
  ∃ merged,
    resolveWrapper host config wrapperAd depth = (fetched, Return merged)
    ∧ Forall2
        (λ nested m,
           impressions m = impressions wrapperAd ++ impressions nested
           ∧ errors m = errors wrapperAd ++ errors nested
           ∧ Forall2
               (λ l l',
                  trackingEvents l'
                  = concat (trackingEvents <$> linears wrapperAd)
                    ++ trackingEvents l)
               (linears nested) (linears m)
           ∧ ∀ l, firstLinear nested = Some l →
               ∃ l', firstLinear m = Some l'
                     ∧ trackingEvents l'
                       = concat (trackingEvents <$> linears wrapperAd)
                         ++ trackingEvents l)
        (ads nestedResponse) merged.
Proof.
  intros Hw Huri Hnested.
  exists (map (mergeWrapperTracking wrapperAd) (ads nestedResponse)).
  split.
  - unfold resolveWrapper. rewrite (resolveWrapper_with_at _ _ _ Hw Huri).
    by rewrite Hnested.
  - apply Forall2_fmap_r, Forall_Forall2_diag, Forall_forall.
    intros nested _. split; [done |]. split; [done |].
    unfold firstLinear. rewrite mergeWrapperTracking_linears.
    rewrite <- getWrapperTrackingEvents_concat. split.
    + apply Forall2_fmap_r, Forall_Forall2_diag, Forall_forall. done.
    + intros l Hl. destruct (linears nested) as [|l0 ls]; [done |].
      injection Hl as ->. eexists. split; [reflexivity | done].
Qed.

Lemma resolveWrapper_merges_tracking_witness :
  ∃ merged,
    resolveWrapper testHost (configOf 5) (wrapperAd false) 1
    = (["https://example.com/inline-vast.xml"], Return merged)
    ∧ Forall2
        (λ nested m,
           impressions m = impressions (wrapperAd false) ++ impressions nested
           ∧ errors m = errors (wrapperAd false) ++ errors nested
           ∧ Forall2
               (λ l l',
                  trackingEvents l'
                  = concat (trackingEvents <$> linears (wrapperAd false))
                    ++ trackingEvents l)
               (linears nested) (linears m)
           ∧ ∀ l, firstLinear nested = Some l →
               ∃ l', firstLinear m = Some l'
                     ∧ trackingEvents l'
                       = concat (trackingEvents <$> linears (wrapperAd false))
                         ++ trackingEvents l)
        [simpleAd] merged.
Proof.
  apply (resolveWrapper_merges_tracking testHost (configOf 5) (wrapperAd false)
           (wrapperOf false) 1 ["https://example.com/inline-vast.xml"]
           {| version := "4.0"; ads := [simpleAd]; vr_errors := [] |}).
  - reflexivity.
  - discriminate.
  - vm_compute. reflexivity.
Defined.
End MergeFacts.

Section ParseFailureFacts.
Import Vast VASTParser ResolverSpec Fixtures.

Lemma parse_root_throw (host : Host) (config : Config) (url : string)
      (e : Thrown) :
  0 < maxWrapperDepth config →
  (fetchWithTimeout host url = Throw e
   ∨ ∃ xml, fetchWithTimeout host url = Return xml
            ∧ parseXml host xml = Throw e) →
  parse host config url = ([url], failure (messageOf e)).
Proof.
  intros Hmax H. rewrite parse_of_outcome.
  destruct (Z.to_nat (maxWrapperDepth config)) as [|r] eqn:E; [lia |].
  cbn [fetchAndParse_rec].
  destruct H as [-> | (xml & -> & ->)]; by destruct e.
Qed.

(** C10. [parse] never throws: it returns either a success, or a failure
    whose error code is 300 and which differs from any other failure only
    in its message.  A rejected or aborted fetch, a non-2xx status, an
    exception of the XML library, a missing [VAST] element and the depth
    limit all end in that failure with code 300, each with its own
    message. *)
Theorem parse_failure_code_300 (host : Host) (config : Config) (url : string) :
  (let r := (parse host config url).2 in
   (success r = true ∧ is_Some (response r) ∧ error r = None)
   ∨ ∃ msg, r = {| success := false;
                   response := None;
                   error := Some {| code := 300; message := msg |} |})
  ∧ (∀ e, 0 < maxWrapperDepth config →
          fetchFn host url = Rejected e →
          (parse host config url).2 = failure (messageOf e))
  ∧ (∀ status statusText text,
       0 < maxWrapperDepth config →
       fetchFn host url = Response false status statusText text →
       (parse host config url).2
       = failure ("HTTP " +:+ pretty status +:+ ": " +:+ statusText))
  ∧ (∀ status statusText text e,
       0 < maxWrapperDepth config →
       fetchFn host url = Response true status statusText text →
       xmlParser host text = XmlThrows e →
       (parse host config url).2 = failure (messageOf e))
  ∧ (∀ status statusText text,
       0 < maxWrapperDepth config →
       fetchFn host url = Response true status statusText text →
       xmlParser host text = XmlDoc None →
       (parse host config url).2
       = failure "Invalid VAST: missing VAST element")
  ∧ (maxWrapperDepth config <= 0 →
     (parse host config url).2
     = failure ("Wrapper limit exceeded (max: "
                +:+ pretty (maxWrapperDepth config) +:+ ")")).
Proof.
  split; [| split; [| split; [| split; [| split]]]].
  - rewrite parse_of_outcome.
    destruct (fetchAndParse_rec host config _ url) as [fetched [resp | e]];
      cbn [snd].
    + left. cbn. eauto.
    + right. eexists. reflexivity.
  - intros e Hmax Hf.
    rewrite (parse_root_throw host config url e Hmax); [done |].
    left. unfold fetchWithTimeout. by rewrite Hf.
  - intros status statusText text Hmax Hf.
    rewrite (parse_root_throw host config url
               (ErrorObj ("HTTP " +:+ pretty status +:+ ": " +:+ statusText))
               Hmax); [done |].
    left. unfold fetchWithTimeout. by rewrite Hf.
  - intros status statusText text e Hmax Hf Hx.
    rewrite (parse_root_throw host config url e Hmax); [done |].
    right. exists text. unfold fetchWithTimeout, parseXml. by rewrite Hf, Hx.
  - intros status statusText text Hmax Hf Hx.
    rewrite (parse_root_throw host config url
               (ErrorObj "Invalid VAST: missing VAST element") Hmax); [done |].
    right. exists text. unfold fetchWithTimeout, parseXml. by rewrite Hf, Hx.
  - intros Hmax. rewrite parse_of_outcome.
    replace (Z.to_nat (maxWrapperDepth config)) with 0%nat by lia.
    reflexivity.
Qed.

Lemma parse_failure_code_300_witness :
  (parse testHost (configOf 5) "https://example.com/timeout.xml").2
  = failure "Aborted"
  ∧ (parse testHost (configOf 5) "https://example.com/missing.xml").2
    = failure "HTTP 404: Not Found"
  ∧ (parse brokenXmlHost (configOf 5) "https://example.com/vast.xml").2
    = failure "Unclosed tag"
  ∧ (parse testHost (configOf 5) "https://example.com/invalid.xml").2
    = failure "Invalid VAST: missing VAST element"
  ∧ (parse testHost (configOf 0) "https://example.com/vast.xml").2
    = failure "Wrapper limit exceeded (max: 0)".
Proof.
  split; [| split; [| split; [| split]]].
  - destruct (parse_failure_code_300 testHost (configOf 5)
                "https://example.com/timeout.xml") as (_ & H & _).
    apply (H (ErrorObj "Aborted")); reflexivity.
  - destruct (parse_failure_code_300 testHost (configOf 5)
                "https://example.com/missing.xml") as (_ & _ & H & _).
    apply (H 404 "Not Found" ""); reflexivity.
  - destruct (parse_failure_code_300 brokenXmlHost (configOf 5)
                "https://example.com/vast.xml") as (_ & _ & _ & H & _).
    apply (H 200 "OK" "<VAST" (ErrorObj "Unclosed tag")); reflexivity.
  - destruct (parse_failure_code_300 testHost (configOf 5)
                "https://example.com/invalid.xml") as (_ & _ & _ & _ & H & _).
    apply (H 200 "OK" "not valid xml"); reflexivity.
  - destruct (parse_failure_code_300 testHost (configOf 0)
                "https://example.com/vast.xml") as (_ & _ & _ & _ & _ & H).
    apply H. vm_compute. discriminate.
Defined.
End ParseFailureFacts.

Section DestroyFacts.
Import PlayerTypes Runtime AdPlayer PlayerFixtures.

Lemma emit_trace (ev : AdPlayerEvent) (p : AdPlayer) (w : World) :
  emit ev p w
  = (p, {| reads := reads w;
           trace := trace w ++ ((λ l, Notify l ev) <$> listeners p) |}).
Proof. reflexivity. Qed.

Lemma on_registers (l : nat) (p : AdPlayer) : l ∈ listeners (on l p).
Proof.
  unfold on. case_bool_decide as H; [done |].
  cbn. apply elem_of_app. right. left.
Qed.

(** C9. A listener that is registered when [destroy()] is called would be
    notified of an event emitted at that moment, but [destroy()] empties
    the registry before it emits [destroy]: it leaves no listener
    registered and appends nothing to the trace, so the listener is not
    notified of [destroy] nor of anything else. *)
Theorem destroy_is_not_observed (p : AdPlayer) (w : World) (l : nat) :
  l ∈ listeners p →
  Notify l EvDestroy ∈ trace (emit EvDestroy p w).2
  ∧ listeners (destroy p w).1 = []
  ∧ (destroy p w).2 = w
  ∧ ∀ ev, Notify l ev ∉ drop (length (trace w)) (trace (destroy p w).2).
Proof.
  intros Hl.
  assert ((destroy p w).2 = w) as Hw.
  { unfold destroy, andThen. rewrite emit_trace. cbn.
    rewrite app_nil_r. by destruct w. }
  split; [| split; [| split]].
  - rewrite emit_trace. cbn. apply elem_of_app. right.
    by apply (list_elem_of_fmap_2 (λ l, Notify l EvDestroy)).
  - reflexivity.
  - exact Hw.
  - intros ev. rewrite Hw, drop_all. apply not_elem_of_nil.
Qed.

Lemma destroy_is_not_observed_witness :
  Notify 7%nat EvDestroy
    ∈ trace (emit EvDestroy (on 7%nat (construct (configFor "https://example.com/vast.xml")))
               initialWorld).2
  ∧ listeners (destroy (on 7%nat (construct (configFor "https://example.com/vast.xml")))
                 initialWorld).1 = []
  ∧ (destroy (on 7%nat (construct (configFor "https://example.com/vast.xml")))
       initialWorld).2 = initialWorld
  ∧ ∀ ev, Notify 7%nat ev
          ∉ drop (length (trace initialWorld))
              (trace (destroy (on 7%nat (construct (configFor "https://example.com/vast.xml")))
                        initialWorld).2).
Proof.
  apply (destroy_is_not_observed
           (on 7%nat (construct (configFor "https://example.com/vast.xml")))
           initialWorld 7%nat).
  apply on_registers.
Defined.
End DestroyFacts.

Section ErrorFacts.
Import Vast PlayerTypes Runtime AdPlayer TrackerSpec PlayerSpec Fixtures PlayerFixtures.

Lemma fire_loop (amb : Ambient) (c : Macros.MacroContext) (urls : list string) :
  ∀ w,
    foldl (λ w url,
             let '(processedUrl, w1) := AdTracker.expand amb url c w in
             AdTracker.firePixel processedUrl w1) w urls
    = {| reads := reads w + length urls;
         trace := trace w ++ (FirePixel <$> expandAll amb c (reads w) urls) |}.
Proof.
  induction urls as [|u urls IH]; intros w.
  - cbn. rewrite Nat.add_0_r, app_nil_r. by destruct w.
  - cbn [foldl AdTracker.expand AdTracker.firePixel perform]. rewrite IH. cbn.
    f_equal; [lia | by rewrite <- app_assoc].
Qed.

Lemma fireImpressions_trace (amb : Ambient) (urls : list string)
      (t : AdTracker.AdTracker) (w : World) :
  AdTracker.fireImpressions amb urls t w
  = {| reads := reads w + length urls;
       trace := trace w ++ (FirePixel <$>
                  expandAll amb (AdTracker.macroContext t) (reads w) urls) |}.
Proof. apply fire_loop. Qed.

Lemma fireError_trace (amb : Ambient) (urls : list string) (errorCode : Z)
      (t : AdTracker.AdTracker) (w : World) :
  AdTracker.fireError amb urls errorCode t w
  = {| reads := reads w + length urls;
       trace := trace w ++ (FirePixel <$>
                  expandAll amb (errorContext (AdTracker.macroContext t) errorCode)
                            (reads w) urls) |}.
Proof. apply fire_loop. Qed.

(** Without a tracker [handleError] delivers nothing: it only notifies
    and calls back. *)
Lemma handleError_without_tracker (amb : Ambient) (err : AdError)
      (p : AdPlayer) (w : World) :
  tracker p = None →
  handleError amb err p w
  = (setState (withError Error err (state p)) p,
     {| reads := reads w;
        trace := trace w ++ announce p (EvError err) (onError (config p))
                                     (OnError err) |}).
Proof.
  intros Ht.
  unfold handleError, andThen, updateState, emit, callback, announce,
    perform, performAll.
  cbn. rewrite Ht. cbn. destruct (onError (config p)); cbn.
  - by rewrite <- app_assoc.
  - by rewrite app_nil_r.
Qed.

(** With a tracker, every error URL of every Ad is delivered, with the
    error code in the context, before the listeners and the callback
    hear of the error. *)
Lemma handleError_with_tracker (amb : Ambient) (err : AdError)
      (p : AdPlayer) (t : AdTracker.AdTracker) (w : World) :
  tracker p = Some t →
  handleError amb err p w
  = (setState (withError Error err (state p)) p,
     {| reads := reads w + length (concat (map errors (ads p)));
        trace :=
          trace w
          ++ (FirePixel <$>
                expandAll amb (errorContext (AdTracker.macroContext t) (code err))
                          (reads w) (concat (map errors (ads p))))
          ++ announce p (EvError err) (onError (config p)) (OnError err) |}).
Proof.
  intros Ht.
  unfold handleError, andThen, updateState, emit, callback, announce,
    perform, performAll.
  cbn -[AdTracker.fireError]. rewrite Ht, fireError_trace.
  cbn -[expandAll]. destruct (onError (config p)); cbn -[expandAll].
  - by rewrite <- !app_assoc.
  - by rewrite app_nil_r, <- app_assoc.
Qed.

Lemma pixels_app (xs ys : list Effect) :
  pixels (xs ++ ys) = pixels xs ++ pixels ys.
Proof. apply omap_app. Qed.

Lemma pixels_announce (p : AdPlayer) (ev : AdPlayerEvent) (b : bool)
      (call : CallbackCall) :
  pixels (announce p ev b call) = [].
Proof.
  unfold announce. rewrite pixels_app.
  assert (pixels ((λ l, Notify l ev) <$> listeners p) = []) as ->.
  { induction (listeners p) as [|l ls IH]; [done | exact IH]. }
  by destruct b.
Qed.

Lemma pixels_fetched (urls : list string) : pixels (Fetched <$> urls) = [].
Proof. induction urls as [|u urls IH]; [done | exact IH]. Qed.

Lemma andThen_eq (a b : Step) (p : AdPlayer) (w : World) :
  (a >>> b) p w = b (a p w).1 (a p w).2.
Proof. unfold andThen. by destruct (a p w). Qed.

Lemma trackerTrack_state (amb : Ambient) (e : string) (p : AdPlayer) (w : World) :
  state (trackerTrack amb e p w).1 = state p.
Proof.
  unfold trackerTrack. destruct (tracker p) as [t|]; [| done].
  by destruct (AdTracker.track amb e true t w).
Qed.

Lemma setupSkipButton_status (p : AdPlayer) (w : World) :
  status (state (setupSkipButton p w).1) = status (state p).
Proof.
  unfold setupSkipButton.
  destruct (match skipOffset (config p) with
            | Some x => Some x
            | None => getFirstLinearCreative p ≫= Vast.skipOffset
            end) as [off|]; [| done].
  by destruct (negb (Num.truthy off) || Num.leZero off).
Qed.

(** A playback start always ends in [Playing]. *)
Lemma handlePlaybackStart_status (amb : Ambient) (p : AdPlayer) (w : World) :
  status (state (handlePlaybackStart amb p w).1) = Playing.
Proof.
  unfold handlePlaybackStart. rewrite !andThen_eq.
  rewrite setupSkipButton_status, !trackerTrack_state.
  unfold updateState, emit, callback. cbn [fst snd].
  by destruct (tracker _).
Qed.

(** Whenever [init] ends in [Error], no pixel was delivered, whatever
    error URLs the resolved ads carry. *)
Lemma init_error_fires_no_pixel (host : VASTParser.Host) (amb : Ambient)
      (accepted : bool) (p : AdPlayer) (w : World) :
  tracker p = None →
  status (state (init host amb accepted p w).1) = Error →
  pixels (trace (init host amb accepted p w).2) = pixels (trace w).
Proof.
  intros Ht. unfold init. rewrite andThen_eq.
  unfold updateState. cbn [fst snd]. unfold initBody.
  cbn [config parser setState ads].
  destruct (VASTParser.parse host (parser p) (vastUrl (config p)))
    as [fetched result].
  assert (∀ err q,
            tracker q = None →
            pixels (trace (handleError amb err q
                             (performAll (Fetched <$> fetched) w)).2)
            = pixels (trace w)) as Herr.
  { intros err q Hq. rewrite handleError_without_tracker by done. cbn.
    rewrite !pixels_app, pixels_announce, pixels_fetched.
    by rewrite !app_nil_r. }
  destruct (VASTParser.success result), (VASTParser.response result) as [resp|];
    try (intros _; apply Herr; exact Ht).
  cbn [setAds ads].
  destruct (length (Vast.ads resp) =? 0)%nat;
    [intros _; apply Herr; exact Ht |].
  destruct (getFirstLinearCreative _) as [linear|];
    [| intros _; apply Herr; exact Ht].
  destruct (VASTParser.selectBestMediaFile _ _) as [mediaFile|];
    [| intros _; apply Herr; exact Ht].
  rewrite !andThen_eq.
  unfold attemptAutoplay, createVideoElement, setupFocusManagement.
  cbn [fst snd videoElement setFocus setVideoElement negb].
  destruct accepted.
  - rewrite handlePlaybackStart_status. discriminate.
  - unfold showStartOverlay. rewrite andThen_eq. cbn. discriminate.
Qed.

(** C5, failing input.  [init()] on a document whose only Ad carries an
    error URL and no Linear creative ends in [Error] with code 400 and
    calls the error callback, yet delivers no pixel: the error URL
    collected from the Ad is never fired, because the tracker does not
    exist yet when [handleError] runs. *)
Theorem init_without_linear_fires_no_error_pixel :
  let p0 := construct (configFor "https://example.com/no-linear.xml") in
  let result := init testHost testAmbient true p0 initialWorld in
  status (state result.1) = Error
  ∧ error (state result.1) = Some (createError 400 "No linear creative found")
  ∧ concat (map errors (ads result.1))
    = ["https://example.com/error?code=[ERRORCODE]"]
  ∧ trace result.2
    = [ Fetched "https://example.com/no-linear.xml";
        Callback (OnError (createError 400 "No linear creative found")) ]
  ∧ pixels (trace result.2) = [].
Proof. vm_compute. repeat split. Qed.
End ErrorFacts.

Section AutoplayFacts.
Import Vast PlayerTypes Runtime AdPlayer TrackerSpec PlayerSpec Fixtures PlayerFixtures.

Lemma track_once_any (amb : Ambient) (e : string) (t : AdTracker.AdTracker)
      (w : World) :
  AdTracker.track amb e true t w
  = (AdTracker.mkAdTracker (AdTracker.trackingEvents t)
       (AdTracker.firedEvents t
        ∪ list_to_set (AdTracker.eventKey e <$> urlsOf t e))
       (AdTracker.macroContext t),
     {| reads := reads w
                 + length (firstFirings e (AdTracker.firedEvents t) (urlsOf t e));
        trace := trace w ++ (FirePixel <$>
                   expandAll amb (AdTracker.macroContext t) (reads w)
                     (firstFirings e (AdTracker.firedEvents t) (urlsOf t e))) |}).
Proof. rewrite track_foldl, loop_once. reflexivity. Qed.

Lemma setupSkipButton_world (p : AdPlayer) (w : World) :
  (setupSkipButton p w).2 = w.
Proof.
  unfold setupSkipButton.
  destruct (match skipOffset (config p) with
            | Some x => Some x
            | None => getFirstLinearCreative p ≫= Vast.skipOffset
            end) as [off|]; [| done].
  by destruct (negb (Num.truthy off) || Num.leZero off).
Qed.

Lemma trackerTrack_some (amb : Ambient) (e : string) (p : AdPlayer)
      (t : AdTracker.AdTracker) (w : World) :
  tracker p = Some t →
  trackerTrack amb e p w
  = (setTracker
       (Some (AdTracker.mkAdTracker (AdTracker.trackingEvents t)
                (AdTracker.firedEvents t
                 ∪ list_to_set (AdTracker.eventKey e <$> urlsOf t e))
                (AdTracker.macroContext t))) p,
     {| reads := reads w
                 + length (firstFirings e (AdTracker.firedEvents t) (urlsOf t e));
        trace := trace w ++ (FirePixel <$>
                   expandAll amb (AdTracker.macroContext t) (reads w)
                     (firstFirings e (AdTracker.firedEvents t) (urlsOf t e))) |}).
Proof. unfold trackerTrack. intros ->. by rewrite track_once_any. Qed.

Lemma setupSkipButton_fields (p : AdPlayer) (w : World) :
  tracker (setupSkipButton p w).1 = tracker p
  ∧ ads (setupSkipButton p w).1 = ads p
  ∧ listeners (setupSkipButton p w).1 = listeners p
  ∧ config (setupSkipButton p w).1 = config p
  ∧ videoElement (setupSkipButton p w).1 = videoElement p.
Proof.
  unfold setupSkipButton.
  destruct (match skipOffset (config p) with
            | Some x => Some x
            | None => getFirstLinearCreative p ≫= Vast.skipOffset
            end) as [off|]; [| done].
  by destruct (negb (Num.truthy off) || Num.leZero off).
Qed.

(** A playback start, for a player that owns a tracker. *)
Lemma handlePlaybackStart_eq (amb : Ambient) (p : AdPlayer)
      (t : AdTracker.AdTracker) (w : World) :
  tracker p = Some t →
  handlePlaybackStart amb p w
  = setupSkipButton
      (setTracker (Some (trackerAfterStart t))
         (setState (withStatus Playing (state p)) p))
      {| reads := reads w + length (startDeliveries p t);
         trace :=
           trace w ++ announce p EvStart (onStart (config p)) OnStart
           ++ (FirePixel <$>
                 expandAll amb (AdTracker.macroContext t) (reads w)
                           (startDeliveries p t)) |}.
Proof.
  intros Ht.
  unfold handlePlaybackStart, andThen, updateState, emit, callback.
  cbn [tracker setState ads config listeners].
  rewrite Ht, fireImpressions_trace.
  rewrite (trackerTrack_some amb "start" _ t) by exact Ht.
  erewrite (trackerTrack_some amb "creativeView") by reflexivity.
  cbn [AdTracker.trackingEvents AdTracker.firedEvents AdTracker.macroContext
       reads trace].
  unfold urlsOf at 3 5. cbn [AdTracker.trackingEvents].
  fold (urlsOf t "creativeView").
  f_equal.
  unfold startDeliveries, announce, perform, performAll.
  rewrite !expandAll_app, !fmap_app, !length_app.
  destruct (onStart (config p)); cbn [reads trace];
    rewrite <- ?app_assoc, ?app_nil_r, ?Nat.add_assoc; reflexivity.
Qed.
End AutoplayFacts.

Section AutoplayClaims.
Import Vast PlayerTypes Runtime AdPlayer TrackerSpec PlayerSpec Fixtures PlayerFixtures.

Lemma urlsOf_grouped (events : list TrackingEvent) (F : gset string)
      (c : Macros.MacroContext) (e : string) :
  urlsOf (AdTracker.mkAdTracker (AdTracker.groupEventsByType events) F c) e
  = registeredUrls events e.
Proof.
  unfold urlsOf, registeredUrls. cbn [AdTracker.trackingEvents].
  by rewrite groupEventsByType_lookup.
Qed.

Lemma eventKey_start_creativeView (u u' : string) :
  AdTracker.eventKey "creativeView" u ≠ AdTracker.eventKey "start" u'.
Proof. unfold AdTracker.eventKey. rewrite !str_app_cons. discriminate. Qed.

(** The interactive start after a rejected autoplay is the start that an
    accepted autoplay would have been. *)
Lemma onStartClick_after_rejection (amb : Ambient) (p : AdPlayer) (w : World)
      (reason : string) :
  videoElement p = true →
  overlayElement p = false →
  onStartClick amb true reason (attemptAutoplay amb false p w).1
               (attemptAutoplay amb false p w).2
  = attemptAutoplay amb true p w.
Proof.
  intros Hv Ho. unfold attemptAutoplay, onStartClick, showStartOverlay,
    removeOverlay, andThen, updateState.
  rewrite Hv. cbn [negb fst snd videoElement setOverlayElement setState].
  rewrite Hv. unfold handlePlaybackStart at 1 2. unfold andThen at 1 8.
  unfold updateState at 1 2.
  destruct p. cbn in Ho. subst. reflexivity.
Qed.

(** The effects of an accepted interactive start. *)
Lemma onStartClick_trace (amb : Ambient) (q : AdPlayer)
      (t : AdTracker.AdTracker) (w : World) (reason : string) :
  videoElement q = true →
  tracker q = Some t →
  trace (onStartClick amb true reason q w).2
  = trace w ++ announce q EvStart (onStart (config q)) OnStart
    ++ (FirePixel <$>
          expandAll amb (AdTracker.macroContext t) (reads w)
                    (startDeliveries q t)).
Proof.
  intros Hv Ht. unfold onStartClick, removeOverlay. rewrite andThen_eq.
  cbn [fst snd videoElement setOverlayElement]. rewrite Hv.
  erewrite handlePlaybackStart_eq by exact Ht.
  rewrite setupSkipButton_world. reflexivity.
Qed.

(** C8. When [play()] is rejected during [attemptAutoplay], the player
    goes to [WaitingForInteraction], not to [Error], and nothing at all is
    delivered, notified or called back.  An accepted interactive start
    that follows leaves the player and the world exactly as an accepted
    autoplay would have (status [Playing], the same effects in the same
    order), and it delivers each URL registered for [start] exactly once;
    invoking the interactive start once more delivers the impressions
    again but no [start] URL. *)
Theorem autoplay_rejection_then_interactive_start
        (amb : Ambient) (p : AdPlayer) (w : World)
        (events : list TrackingEvent) (c : Macros.MacroContext)
        (reason : string) :
  videoElement p = true →
  overlayElement p = false →
  tracker p
  = Some (AdTracker.mkAdTracker (AdTracker.groupEventsByType events) ∅ c) →
  let rejected := attemptAutoplay amb false p w in
  let started := onStartClick amb true reason rejected.1 rejected.2 in
  let again := onStartClick amb true reason started.1 started.2 in
  status (state rejected.1) = WaitingForInteraction
  ∧ rejected.2 = w
  ∧ started = attemptAutoplay amb true p w
  ∧ status (state started.1) = Playing
  ∧ (∃ startFired viewFired,
        NoDup startFired
        ∧ (∀ u, u ∈ startFired ↔ u ∈ registeredUrls events "start")
        ∧ NoDup viewFired
        ∧ (∀ u, u ∈ viewFired ↔ u ∈ registeredUrls events "creativeView")
        ∧ trace started.2
          = trace w ++ announce p EvStart (onStart (config p)) OnStart
            ++ (FirePixel <$>
                  expandAll amb c (reads w)
                    (VASTParser.aggregateImpressions (ads p)
                     ++ startFired ++ viewFired)))
  ∧ trace again.2
    = trace started.2 ++ announce p EvStart (onStart (config p)) OnStart
      ++ (FirePixel <$>
            expandAll amb c (reads started.2)
              (VASTParser.aggregateImpressions (ads p))).
Proof.
  intros Hv Ho Ht rejected started again.
  assert (started = attemptAutoplay amb true p w) as Hstarted.
  { apply onStartClick_after_rejection; done. }
  assert (attemptAutoplay amb true p w = handlePlaybackStart amb p w) as Hauto.
  { unfold attemptAutoplay. by rewrite Hv. }
  pose proof (handlePlaybackStart_eq amb p _ w Ht) as Heq.
  cbn [AdTracker.macroContext AdTracker.firedEvents] in Heq.
  split; [| split; [| split; [| split; [| split]]]].
  - unfold rejected, attemptAutoplay. by rewrite Hv.
  - unfold rejected, attemptAutoplay. by rewrite Hv.
  - exact Hstarted.
  - rewrite Hstarted, Hauto. apply handlePlaybackStart_status.
  - rewrite Hstarted, Hauto, Heq, setupSkipButton_world. cbn [trace].
    unfold startDeliveries. rewrite !urlsOf_grouped.
    cbn [AdTracker.firedEvents].
    destruct (firstFirings_spec "start" (registeredUrls events "start") ∅)
      as [Hnd1 Hin1].
    destruct (firstFirings_spec "creativeView"
                (registeredUrls events "creativeView")
                (∅ ∪ list_to_set (AdTracker.eventKey "start"
                                    <$> registeredUrls events "start")))
      as [Hnd2 Hin2].
    eexists _, _. split; [exact Hnd1 |].
    split; [intros u; rewrite Hin1; set_solver |].
    split; [exact Hnd2 |]. split; [| reflexivity].
    intros u. rewrite Hin2. split; [by intros [? _] |].
    intros Hu. split; [done |].
    rewrite elem_of_union, elem_of_list_to_set, list_elem_of_fmap.
    intros [Hx | (u' & Hk & _)]; [set_solver |].
    by apply eventKey_start_creativeView in Hk.
  - set (t0 := AdTracker.mkAdTracker (AdTracker.groupEventsByType events) ∅ c)
      in *.
    assert (started
            = setupSkipButton
                (setTracker (Some (trackerAfterStart t0))
                   (setState (withStatus Playing (state p)) p))
                {| reads := reads w + length (startDeliveries p t0);
                   trace :=
                     trace w ++ announce p EvStart (onStart (config p)) OnStart
                     ++ (FirePixel <$>
                           expandAll amb c (reads w) (startDeliveries p t0)) |})
      as Hs by (by rewrite Hstarted, Hauto, Heq).
    destruct (setupSkipButton_fields
                (setTracker (Some (trackerAfterStart t0))
                   (setState (withStatus Playing (state p)) p))
                {| reads := reads w + length (startDeliveries p t0);
                   trace :=
                     trace w ++ announce p EvStart (onStart (config p)) OnStart
                     ++ (FirePixel <$>
                           expandAll amb c (reads w) (startDeliveries p t0)) |})
      as (Hf1 & Hf2 & Hf3 & Hf4 & Hf5).
    rewrite <- Hs in Hf1, Hf2, Hf3, Hf4, Hf5.
    cbn [tracker ads listeners config videoElement setTracker setState]
      in Hf1, Hf2, Hf3, Hf4, Hf5.
    unfold again.
    rewrite (onStartClick_trace amb started.1 (trackerAfterStart t0)
               started.2 reason); [| by rewrite Hf5 | exact Hf1].
    unfold announce, startDeliveries. rewrite Hf2, Hf3, Hf4.
    cbn [trackerAfterStart AdTracker.macroContext AdTracker.firedEvents t0].
    unfold urlsOf. cbn [AdTracker.trackingEvents].
    fold (urlsOf t0 "start"). fold (urlsOf t0 "creativeView").
    rewrite !firstFirings_none; [by rewrite !app_nil_r | |].
    + intros u Hu. change (u ∈ urlsOf t0 "creativeView") in Hu.
      apply (list_elem_of_fmap_2 (AdTracker.eventKey "creativeView")) in Hu.
      rewrite !elem_of_union, !elem_of_list_to_set. tauto.
    + intros u Hu. change (u ∈ urlsOf t0 "start") in Hu.
      apply (list_elem_of_fmap_2 (AdTracker.eventKey "start")) in Hu.
      rewrite !elem_of_union, !elem_of_list_to_set. tauto.
Qed.
End AutoplayClaims.

Section InitFacts.
Import Vast PlayerTypes Runtime AdPlayer TrackerSpec PlayerSpec.

(** When the document resolves and a media file is selected, [init]
    reaches [attemptAutoplay] with a video element, a fresh tracker
    seeded from the aggregated tracking events of the resolved ads and
    the selected asset URI in its macro context. *)
Lemma init_reaches_autoplay (host : VASTParser.Host) (amb : Ambient)
      (accepted : bool) (p : AdPlayer) (w : World)
      (fetched : list string) (resp : VASTResponse)
      (linear : Linear) (mediaFile : MediaFile) :
  VASTParser.parse host (parser p) (vastUrl (config p))
  = (fetched, VASTParser.mkParseResult true (Some resp) None) →
  Vast.ads resp ≠ [] →
  getFirstLinearCreative (setAds (Vast.ads resp) p) = Some linear →
  VASTParser.selectBestMediaFile (mediaFiles linear) (targetBitrate (config p))
  = Some mediaFile →
  ∃ p',
    init host amb accepted p w
    = attemptAutoplay amb accepted p' (performAll (Fetched <$> fetched) w)
    ∧ videoElement p' = true
    ∧ overlayElement p' = overlayElement p
    ∧ tracker p'
      = Some (AdTracker.mkAdTracker
                (AdTracker.groupEventsByType
                   (VASTParser.aggregateTrackingEvents (Vast.ads resp)))
                ∅
                (Macros.mkMacroContext (Some (mf_url mediaFile))
                   None None None None None))
    ∧ ads p' = Vast.ads resp
    ∧ listeners p' = listeners p
    ∧ config p' = config p.
Proof.
  intros Hparse Hads Hlin Hsel.
  unfold init. rewrite andThen_eq. unfold updateState. cbn [fst snd].
  unfold initBody. cbn [config parser setState].
  rewrite Hparse. cbn [VASTParser.success VASTParser.response].
  destruct (Vast.ads resp) as [|ad rest] eqn:E; [done |].
  cbn [ads setAds length Nat.eqb].
  change (getFirstLinearCreative
            (setAds (ad :: rest) (setState (withStatus Loading (state p)) p)))
    with (getFirstLinearCreative (setAds (ad :: rest) p)).
  rewrite Hlin. cbn [config setAds setState]. rewrite Hsel.
  rewrite !andThen_eq.
  unfold createVideoElement, setupFocusManagement, updateState.
  cbn [fst snd].
  eexists. split; [reflexivity |]. repeat split.
Qed.
End InitFacts.

Section Instances.
Import Vast PlayerTypes Runtime Macros MacroSpec VASTParser SelectSpec
       TrackerSpec PlayerSpec Fixtures PlayerFixtures.

Lemma replaceMacros_leaves_absent_macro_witness :
  Js.includes "[ASSETURI]"
    (replaceMacros
       "https://example.com/track?asset=[ASSETURI]&error=[ERRORCODE]"
       emptyContext 1768305600000 "k3j2h1") = true.
Proof.
  apply (replaceMacros_leaves_absent_macro ASSETURI
           "https://example.com/track?asset=[ASSETURI]&error=[ERRORCODE]"
           emptyContext 1768305600000 "k3j2h1");
    reflexivity.
Defined.

(** A supplied field is replaced; the other tokens stay. *)
Example replaceMacros_errorcode_only :
  replaceMacros "https://example.com/track?asset=[ASSETURI]&error=[ERRORCODE]"
    (mkMacroContext None None None (Some 402) None None)
    1768305600000 "k3j2h1"
  = "https://example.com/track?asset=[ASSETURI]&error=402".
Proof. reflexivity. Qed.

(** An empty [assetUri] is present and still not substituted. *)
Example replaceMacros_empty_assetUri :
  replaceMacros "https://example.com/track?asset=[ASSETURI]"
    (mkMacroContext (Some "") None None None None None)
    1768305600000 "k3j2h1"
  = "https://example.com/track?asset=[ASSETURI]".
Proof. reflexivity. Qed.

Lemma selectBestMediaFile_prefers_1080_witness :
  ∃ m, selectBestMediaFile
         [ file4K;
           {| mf_url := "https://example.com/1920x1080.mp4";
              delivery := "progressive"; type := "video/mp4";
              width := 1920; height := 1080; bitrate := Some 5000;
              codec := None |} ] 2500 = Some m
       ∧ height m <= 1080
       ∧ mf_url m = "https://example.com/1920x1080.mp4".
Proof.
  destruct (selectBestMediaFile_prefers_1080
              [ file4K;
                {| mf_url := "https://example.com/1920x1080.mp4";
                   delivery := "progressive"; type := "video/mp4";
                   width := 1920; height := 1080; bitrate := Some 5000;
                   codec := None |} ] 2500)
    as (m & Hm & _ & Hh).
  - discriminate.
  - exists m. split; [exact Hm |]. split.
    + apply Hh. eexists. split; [vm_compute; right; left |].
      split; [vm_compute; discriminate | vm_compute; reflexivity].
    + vm_compute in Hm. injection Hm as <-. reflexivity.
Defined.

Example selectBestMediaFile_test_1080 :
  height <$> selectBestMediaFile testRenditions 2500 = Some 1080.
Proof. reflexivity. Qed.

Lemma autoplay_rejection_then_interactive_start_witness :
  let rejected := AdPlayer.attemptAutoplay testAmbient false readyPlayer initialWorld in
  let started := AdPlayer.onStartClick testAmbient true "NotAllowedError"
                   rejected.1 rejected.2 in
  let again := AdPlayer.onStartClick testAmbient true "NotAllowedError"
                 started.1 started.2 in
  status (AdPlayer.state rejected.1) = WaitingForInteraction
  ∧ rejected.2 = initialWorld
  ∧ started = AdPlayer.attemptAutoplay testAmbient true readyPlayer initialWorld
  ∧ status (AdPlayer.state started.1) = Playing
  ∧ (∃ startFired viewFired,
        NoDup startFired
        ∧ (∀ u, u ∈ startFired
                ↔ u ∈ registeredUrls (trackingEvents simpleLinear) "start")
        ∧ NoDup viewFired
        ∧ (∀ u, u ∈ viewFired
                ↔ u ∈ registeredUrls (trackingEvents simpleLinear) "creativeView")
        ∧ trace started.2
          = trace initialWorld
            ++ announce readyPlayer EvStart
                 (AdPlayer.onStart (AdPlayer.config readyPlayer)) OnStart
            ++ (FirePixel <$>
                  expandAll testAmbient
                    (mkMacroContext (Some "https://example.com/video.mp4")
                       None None None None None)
                    (reads initialWorld)
                    (aggregateImpressions (AdPlayer.ads readyPlayer)
                     ++ startFired ++ viewFired)))
  ∧ trace again.2
    = trace started.2
      ++ announce readyPlayer EvStart
           (AdPlayer.onStart (AdPlayer.config readyPlayer)) OnStart
      ++ (FirePixel <$>
            expandAll testAmbient
              (mkMacroContext (Some "https://example.com/video.mp4")
                 None None None None None)
              (reads started.2)
              (aggregateImpressions (AdPlayer.ads readyPlayer))).
Proof.
  apply (autoplay_rejection_then_interactive_start testAmbient readyPlayer
           initialWorld (trackingEvents simpleLinear)
           (mkMacroContext (Some "https://example.com/video.mp4")
              None None None None None) "NotAllowedError");
    reflexivity.
Defined.

(** End to end on [SIMPLE_VAST] with autoplay rejected: the player waits
    for interaction having delivered nothing; the accepted interactive
    start then delivers the impression and the [start] endpoint once. *)
Example rejected_autoplay_end_to_end :
  let p0 := AdPlayer.on 7%nat
              (AdPlayer.construct (configFor "https://example.com/vast.xml")) in
  let waiting := AdPlayer.init testHost testAmbient false p0 initialWorld in
  let started := AdPlayer.onStartClick testAmbient true "" waiting.1 waiting.2 in
  status (AdPlayer.state waiting.1) = WaitingForInteraction
  ∧ trace waiting.2 = [Fetched "https://example.com/vast.xml"]
  ∧ status (AdPlayer.state started.1) = Playing
  ∧ trace started.2
    = [ Fetched "https://example.com/vast.xml";
        Notify 7%nat EvStart;
        Callback OnStart;
        FirePixel "https://example.com/impression";
        FirePixel "https://example.com/start" ].
Proof. vm_compute. repeat split. Qed.

(** The sibling path of C5: once the tracker exists, an error delivers
    the error URLs, with the code substituted, before the callback. *)
Example error_after_tracker_fires_pixels :
  let p := AdPlayer.setAds [simpleAd; noLinearAd] readyPlayer in
  trace (AdPlayer.onStartClick testAmbient false "NotAllowedError" p initialWorld).2
  = [ FirePixel "https://example.com/error?code=400";
      Notify 7%nat
        (EvError (AdPlayer.createError 400 "Playback failed: NotAllowedError"));
      Callback
        (OnError (AdPlayer.createError 400 "Playback failed: NotAllowedError")) ].
Proof. vm_compute. reflexivity. Qed.

(** The unit tests of the tracker. *)
Example tracker_test_dedup :
  let t := AdTracker.construct
             [mkTrackingEvent "start" "https://example.com/start" None] in
  pixels (trace (trackTwice testAmbient "start" true t initialWorld).2)
  = ["https://example.com/start"]
  ∧ pixels (trace (trackTwice testAmbient "start" false t initialWorld).2)
    = ["https://example.com/start"; "https://example.com/start"]
  ∧ pixels (trace (AdTracker.track testAmbient "midpoint" true t initialWorld).2)
    = [].
Proof. vm_compute. repeat split. Qed.
End Instances.

(** * Further properties of the resolver *)

Section AggregateFacts.
Import Vast VASTParser MergeSpec.

Lemma foldl_linear_events (cs : list Creative) :
  ∀ acc,
    foldl (λ events creative,
             match linear creative with
             | Some l => events ++ trackingEvents l
             | None => events
             end) acc cs
    = acc ++ concat (trackingEvents <$> omap linear cs).
Proof.
  induction cs as [|cr cs IH]; intros acc.
  - cbn. by rewrite app_nil_r.
  - cbn [foldl]. rewrite IH.
    change (omap linear (cr :: cs))
      with (match linear cr with
            | Some l => l :: omap linear cs
            | None => omap linear cs
            end).
    destruct (linear cr) as [l|]; [| done].
    rewrite fmap_cons. cbn [concat]. by rewrite <- app_assoc.
Qed.

Lemma aggregateTrackingEvents_concat (ads : list Ad) :
  aggregateTrackingEvents ads
  = concat ((λ ad, concat (trackingEvents <$> linears ad)) <$> ads).
Proof.
  unfold aggregateTrackingEvents.
  enough (∀ acc,
            foldl (λ events ad,
                     foldl (λ events creative,
                              match linear creative with
                              | Some l => events ++ trackingEvents l
                              | None => events
                              end) events (creatives ad)) acc ads
            = acc ++ concat ((λ ad, concat (trackingEvents <$> linears ad))
                               <$> ads)) as H by apply H.
  induction ads as [|ad ads IH]; intros acc.
  - cbn. by rewrite app_nil_r.
  - cbn [foldl]. rewrite IH, foldl_linear_events, fmap_cons.
    cbn [concat]. by rewrite <- app_assoc.
Qed.

Lemma aggregateImpressions_concat (ads : list Ad) :
  aggregateImpressions ads
  = imp_url <$> concat (impressions <$> ads).
Proof.
  unfold aggregateImpressions.
  assert (∀ imps acc,
            foldl (λ urls impression, urls ++ [imp_url impression]) acc imps
            = acc ++ (imp_url <$> imps)) as Hin.
  { induction imps as [|i imps IH]; intros acc; cbn.
    - by rewrite app_nil_r.
    - rewrite IH. by rewrite <- app_assoc. }
  enough (∀ acc,
            foldl (λ urls ad,
                     foldl (λ urls impression, urls ++ [imp_url impression])
                           urls (impressions ad)) acc ads
            = acc ++ (imp_url <$> concat (impressions <$> ads))) as H
      by apply H.
  induction ads as [|ad ads IH]; intros acc.
  - cbn. by rewrite app_nil_r.
  - cbn [foldl]. rewrite IH, Hin, fmap_cons. cbn [concat].
    by rewrite fmap_app, <- app_assoc.
Qed.

Lemma aggregateTrackingEvents_of_merge (wrapper : Ad) (nested : list Ad) :
  aggregateTrackingEvents (mergeWrapperTracking wrapper <$> nested)
  = concat
      ((λ l, concat (trackingEvents <$> linears wrapper) ++ trackingEvents l)
         <$> concat (linears <$> nested)).
Proof.
  rewrite aggregateTrackingEvents_concat.
  induction nested as [|n nested IH]; [done |].
  rewrite !fmap_cons. cbn [concat]. rewrite IH, fmap_app, concat_app.
  f_equal. rewrite mergeWrapperTracking_linears, getWrapperTrackingEvents_concat.
  rewrite <- list_fmap_compose. done.
Qed.

Lemma aggregateImpressions_of_merge (wrapper : Ad) (nested : list Ad) :
  aggregateImpressions (mergeWrapperTracking wrapper <$> nested)
  = concat
      ((λ n, (imp_url <$> impressions wrapper) ++ (imp_url <$> impressions n))
         <$> nested).
Proof.
  rewrite aggregateImpressions_concat.
  induction nested as [|n nested IH]; [done |].
  rewrite !fmap_cons. cbn [concat]. rewrite fmap_app, IH.
  f_equal. cbn [mergeWrapperTracking impressions]. by rewrite fmap_app.
Qed.

(** X1. After a wrapper is merged into the Ads of its nested document, the
    aggregated tracking events hold the wrapper's events once for every
    Linear creative of every nested Ad, each time in front of that
    Linear's own events (with no nested Linear they are gone), and the
    aggregated impressions hold the wrapper's URLs once for every
    nested Ad, in front of that Ad's own. *)
Theorem aggregates_after_merge (wrapper : Ad) (nested : list Ad) :
  aggregateTrackingEvents (mergeWrapperTracking wrapper <$> nested)
  = concat
      ((λ l, concat (trackingEvents <$> linears wrapper) ++ trackingEvents l)
         <$> concat (linears <$> nested))
  ∧ aggregateImpressions (mergeWrapperTracking wrapper <$> nested)
    = concat
        ((λ n, (imp_url <$> impressions wrapper)
               ++ (imp_url <$> impressions n))
           <$> nested).
Proof.
  split; [apply aggregateTrackingEvents_of_merge
         | apply aggregateImpressions_of_merge].
Qed.

(** X2. The aggregates flatten in document order, nothing dropped and
    nothing merged: [aggregateTrackingEvents] lists the events of every
    Linear of every Ad, [aggregateImpressions] the impression URLs of
    every Ad, duplicates kept. *)
Theorem aggregates_flatten (ads : list Ad) :
  aggregateTrackingEvents ads
  = concat ((λ ad, concat (trackingEvents <$> linears ad)) <$> ads)
  ∧ aggregateImpressions ads = imp_url <$> concat (impressions <$> ads).
Proof.
  split; [apply aggregateTrackingEvents_concat | apply aggregateImpressions_concat].
Qed.
End AggregateFacts.

Section SelectMoreFacts.
Import Vast VASTParser SelectSpec Fixtures.

Lemma firstLeast_elem {A : Type} (f : A → Z) (m : A) (l : list A) :
  firstLeast f m l → m ∈ l.
Proof.
  intros (l1 & l2 & -> & _). apply elem_of_app. right. left.
Qed.

Lemma candidatesOf_subseteq (mediaFiles : list MediaFile) (m : MediaFile) :
  m ∈ candidatesOf mediaFiles → m ∈ mediaFiles.
Proof.
  destruct (candidatesOf_cases mediaFiles) as [[-> _] | [-> _]]; [| done].
  intros H. by apply list_elem_of_filter in H as [_ H].
Qed.

(** X3. [selectBestMediaFile] answers [null] for the empty list only, and
    what it selects is one of the files it was given. *)
Theorem selectBestMediaFile_total (mediaFiles : list MediaFile) (target : Z) :
  (selectBestMediaFile mediaFiles target = None ↔ mediaFiles = [])
  ∧ ∀ m, selectBestMediaFile mediaFiles target = Some m → m ∈ mediaFiles.
Proof.
  destruct (decide (mediaFiles = [])) as [-> | Hne].
  - split; [done |]. intros m H. discriminate.
  - destruct (selectBestMediaFile_firstLeast mediaFiles target Hne)
      as (m & Hm & Hfl).
    split; [split; [by rewrite Hm | done] |].
    intros m' Hm'. rewrite Hm in Hm'. injection Hm' as <-.
    by apply candidatesOf_subseteq, (firstLeast_elem (score target)).
Qed.

(** X4. When some file is MP4, the selected file is MP4, whatever the
    bitrates and heights of the other containers. *)
Theorem selectBestMediaFile_prefers_mp4 (mediaFiles : list MediaFile)
        (target : Z) (f : MediaFile) :
  f ∈ mediaFiles →
  isMp4 f = true →
  ∃ m, selectBestMediaFile mediaFiles target = Some m ∧ isMp4 m = true.
Proof.
  intros Hf Hmp4.
  assert (mediaFiles ≠ []) as Hne.
  { intros ->. by apply elem_of_nil in Hf. }
  destruct (selectBestMediaFile_firstLeast mediaFiles target Hne)
    as (m & Hm & Hfl).
  exists m. split; [done |].
  apply (firstLeast_elem (score target)) in Hfl.
  destruct (candidatesOf_cases mediaFiles) as [[E _] | [_ E]].
  - rewrite E in Hfl. by apply list_elem_of_filter in Hfl as [? _].
  - assert (f ∈ filter (λ mf, isMp4 mf = true) mediaFiles) as Hin
      by (by apply list_elem_of_filter).
    rewrite E in Hin. by apply elem_of_nil in Hin.
Qed.

Lemma selectBestMediaFile_prefers_mp4_witness :
  ∃ m, selectBestMediaFile
         [ {| mf_url := "https://example.com/a.webm"; delivery := "progressive";
              type := "video/webm"; width := 1920; height := 1080;
              bitrate := Some 2500; codec := None |};
           {| mf_url := "https://example.com/b.mp4"; delivery := "progressive";
              type := "video/mp4"; width := 3840; height := 2160;
              bitrate := Some 9000; codec := None |} ] 2500 = Some m
       ∧ isMp4 m = true.
Proof.
  apply (selectBestMediaFile_prefers_mp4 _ 2500
           {| mf_url := "https://example.com/b.mp4"; delivery := "progressive";
              type := "video/mp4"; width := 3840; height := 2160;
              bitrate := Some 9000; codec := None |}).
  - right. left.
  - reflexivity.
Defined.
End SelectMoreFacts.

Section DurationMoreFacts.
Import Num VASTParser ExtraSpec.

Lemma digit_not_space (c : ascii) :
  Js.isDigit c = true →
  Ascii.is_space c = false
  ∧ Ascii.eqb c "-" = false ∧ Ascii.eqb c "+" = false
  ∧ Ascii.eqb c "%" = false ∧ c ≠ "I"%char.
Proof.
  destruct c as [[] [] [] [] [] [] [] []]; vm_compute; intros H;
    try discriminate H; repeat split; discriminate.
Qed.

Lemma spanDigits_app (d r : string) :
  allDigits d = true → stops r = true → spanDigits (d +:+ r) = (d, r).
Proof.
  intros Hd Hr. induction d as [|c d IH].
  - rewrite str_app_nil_l. destruct r as [|c r]; [done |].
    cbn in *. apply negb_true_iff in Hr. by rewrite Hr.
  - rewrite str_app_cons. cbn in *. apply andb_true_iff in Hd as [Hc Hd].
    by rewrite Hc, IH.
Qed.

Lemma spanDigits_all (d : string) :
  allDigits d = true → spanDigits d = (d, EmptyString).
Proof.
  intros Hd. rewrite <- (str_app_nil_r d) at 1. by apply spanDigits_app.
Qed.

Lemma parseInt10_digits (d : string) :
  isDigits d = true → parseInt10 d = ofZ (digitsValue d).
Proof.
  destruct d as [|c d]; [done |]. intros Hd. cbn [isDigits] in Hd.
  pose proof Hd as Hc. cbn in Hc. apply andb_true_iff in Hc as [Hc _].
  destruct (digit_not_space c Hc) as (Hs & Hm & Hp & _).
  unfold parseInt10. cbn [skipWhite]. rewrite Hs. cbn [takeSign].
  rewrite Hm, Hp, spanDigits_all by done. reflexivity.
Qed.

Lemma endsWith_cons (q : string) (c : ascii) (s : string) :
  Js.endsWith q (String c s) = String.eqb (String c s) q || Js.endsWith q s.
Proof. reflexivity. Qed.

Lemma endsWith_percent_digits (a d : string) :
  isDigits d = true → Js.endsWith "%" (a +:+ d) = false.
Proof.
  intros Hd.
  assert (∀ s, allDigits s = true → Js.endsWith "%" s = false) as Hbase.
  { induction s as [|c s IH]; [done |]. intros Hs.
    cbn [allDigits] in Hs. apply andb_true_iff in Hs as [Hc Hs].
    rewrite endsWith_cons, (IH Hs), orb_false_r.
    destruct (digit_not_space c Hc) as (_ & _ & _ & Hpc & _).
    cbn. by rewrite Hpc. }
  induction a as [|x a IH].
  - rewrite str_app_nil_l. apply Hbase. by destruct d.
  - rewrite str_app_cons, endsWith_cons, IH, orb_false_r.
    destruct (a +:+ d) eqn:E.
    + destruct a, d; discriminate.
    + cbn. by destruct (Ascii.eqb x "%").
Qed.

Lemma isDigits_allDigits (d : string) : isDigits d = true → allDigits d = true.
Proof. by destruct d. Qed.

Lemma matchHMS_at (s : string) (r : string * string * string) :
  matchHMSAt s = Some r → matchHMS s = Some r.
Proof. intros H. destruct s; cbn [matchHMS]; by rewrite H. Qed.

Lemma str_app_char (c : ascii) (x : string) :
  String c EmptyString +:+ x = String c x.
Proof. reflexivity. Qed.

Lemma matchHMSAt_plain (h m s : string) :
  isDigits h = true → isDigits m = true → isDigits s = true →
  matchHMSAt (h +:+ ":" +:+ m +:+ ":" +:+ s) = Some (h, m, s).
Proof.
  intros Hh Hm Hs. unfold matchHMSAt. rewrite !str_app_char.
  rewrite (spanDigits_app h) by (by apply isDigits_allDigits || done).
  destruct h as [|h0 h]; [done |]. cbn [Ascii.eqb Bool.eqb].
  rewrite (spanDigits_app m) by (by apply isDigits_allDigits || done).
  destruct m as [|m0 m]; [done |]. cbn [Ascii.eqb Bool.eqb].
  rewrite (spanDigits_all s) by (by apply isDigits_allDigits).
  by destruct s.
Qed.

Lemma matchHMSAt_fraction (h m s f : string) :
  isDigits h = true → isDigits m = true → isDigits s = true →
  isDigits f = true →
  matchHMSAt (h +:+ ":" +:+ m +:+ ":" +:+ s +:+ "." +:+ f)
  = Some (h, m, s +:+ "." +:+ f).
Proof.
  intros Hh Hm Hs Hf. unfold matchHMSAt. rewrite !str_app_char.
  rewrite (spanDigits_app h) by (by apply isDigits_allDigits || done).
  destruct h as [|h0 h]; [done |]. cbn [Ascii.eqb Bool.eqb].
  rewrite (spanDigits_app m) by (by apply isDigits_allDigits || done).
  destruct m as [|m0 m]; [done |]. cbn [Ascii.eqb Bool.eqb].
  rewrite (spanDigits_app s) by (by apply isDigits_allDigits || done).
  destruct s as [|s0 s]; [done |]. cbn [Ascii.eqb Bool.eqb].
  rewrite (spanDigits_all f) by (by apply isDigits_allDigits).
  destruct f; [done |]. by rewrite str_app_char.
Qed.

Lemma Qred_inject_Z (q : Q) (z : Z) : q == inject_Z z → Qred q = inject_Z z.
Proof.
  intros H. rewrite <- (Qcanon.Qred_identity (inject_Z z)).
  - by apply Qred_complete.
  - cbn. apply Z.gcd_1_r.
Qed.

Lemma prefix_cons (a b : ascii) (p s : string) :
  String.prefix (String a p) (String b s)
  = if ascii_dec a b then String.prefix p s else false.
Proof. reflexivity. Qed.

Lemma parseFloat_digits (s : string) :
  isDigits s = true →
  parseFloat s = Fin (inject_Z (digitsValue s)).
Proof.
  intros Hs. destruct s as [|c s]; [done |].
  pose proof Hs as Hc. cbn in Hc. apply andb_true_iff in Hc as [Hc _].
  destruct (digit_not_space c Hc) as (Hsp & Hm & Hp & _ & HI).
  unfold parseFloat. cbn [skipWhite]. rewrite Hsp. cbn [takeSign].
  rewrite Hm, Hp.
  assert (String.prefix "Infinity" (String c s) = false) as ->.
  { rewrite prefix_cons.
    destruct (ascii_dec "I" c) as [<- |]; [by destruct HI | done]. }
  rewrite spanDigits_all by done. cbn [exponent String.length].
  f_equal. apply Qred_inject_Z. rewrite Z.pow_0_r. unfold Qdiv.
  change (Qpower (inject_Z 10) 0) with 1%Q.
  change (inject_Z (digitsValue "")) with 0%Q.
  change (/ inject_Z 1) with 1%Q. ring.
Qed.

Lemma parseFloat_fraction (s f : string) :
  isDigits s = true → isDigits f = true →
  parseFloat (s +:+ "." +:+ f)
  = Fin (Qred (inject_Z (digitsValue s)
               + inject_Z (digitsValue f)
                 / inject_Z (10 ^ Z.of_nat (String.length f)))).
Proof.
  intros Hs Hf. destruct s as [|c s]; [done |].
  pose proof Hs as Hc. cbn in Hc. apply andb_true_iff in Hc as [Hc _].
  destruct (digit_not_space c Hc) as (Hsp & Hm & Hp & _ & HI).
  unfold parseFloat. rewrite str_app_cons. cbn [skipWhite]. rewrite Hsp.
  cbn [takeSign]. rewrite Hm, Hp.
  assert (String.prefix "Infinity" (String c (s +:+ "." +:+ f)) = false) as ->.
  { rewrite prefix_cons.
    destruct (ascii_dec "I" c) as [<- |]; [by destruct HI | done]. }
  rewrite str_app_char, <- str_app_cons, (spanDigits_app (String c s)) by done.
  cbn [Ascii.eqb Bool.eqb].
  rewrite (spanDigits_all f) by (by apply isDigits_allDigits).
  cbn [exponent]. f_equal. apply Qred_complete.
  change (Qpower (inject_Z 10) 0) with 1%Q. ring.
Qed.

Lemma parseDuration_hms_fraction (h m s f : string) :
  isDigits h = true → isDigits m = true → isDigits s = true →
  isDigits f = true →
  parseDuration (VStr (h +:+ ":" +:+ m +:+ ":" +:+ s +:+ "." +:+ f))
  = Fin (Qred (inject_Z (3600 * digitsValue h + 60 * digitsValue m
                         + digitsValue s)
               + inject_Z (digitsValue f)
                 / inject_Z (10 ^ Z.of_nat (String.length f)))).
Proof.
  intros Hh Hm Hs Hf. unfold parseDuration.
  pose proof (endsWith_percent_digits
                (h +:+ ":" +:+ m +:+ ":" +:+ s +:+ ".") f Hf) as HE.
  rewrite !str_app_assoc in HE. rewrite HE.
  rewrite (matchHMS_at _ _ (matchHMSAt_fraction h m s f Hh Hm Hs Hf)).
  rewrite !parseInt10_digits, parseFloat_fraction by done.
  unfold add, mulPos, ofZ. f_equal. apply Qred_complete.
  rewrite !Qred_correct, !inject_Z_plus, !inject_Z_mult. ring.
Qed.

(** X5. A duration [H:M:S], each group a non-empty run of digits, is
    [H*3600 + M*60 + S] seconds when that number is below 2^53, where
    whole numbers are exact; a fraction of zeros after the seconds
    changes nothing. *)
Theorem parseDuration_hms (h m s f : string) :
  isDigits h = true → isDigits m = true → isDigits s = true →
  3600 * digitsValue h + 60 * digitsValue m + digitsValue s < 2 ^ 53 →
  parseDuration (VStr (h +:+ ":" +:+ m +:+ ":" +:+ s))
  = Fin (inject_Z (3600 * digitsValue h + 60 * digitsValue m + digitsValue s))
  ∧ (isDigits f = true → digitsValue f = 0 →
     parseDuration (VStr (h +:+ ":" +:+ m +:+ ":" +:+ s +:+ "." +:+ f))
     = Fin (inject_Z (3600 * digitsValue h + 60 * digitsValue m
                      + digitsValue s))).
Proof.
  intros Hh Hm Hs _. split.
  - unfold parseDuration.
    pose proof (endsWith_percent_digits (h +:+ ":" +:+ m +:+ ":") s Hs) as HE.
    rewrite !str_app_assoc in HE. rewrite HE.
    rewrite (matchHMS_at _ _ (matchHMSAt_plain h m s Hh Hm Hs)).
    rewrite !parseInt10_digits, parseFloat_digits by done.
    unfold add, mulPos, ofZ. f_equal. apply Qred_inject_Z.
    rewrite !Qred_correct, !inject_Z_plus, !inject_Z_mult. ring.
  - intros Hf Hz. rewrite parseDuration_hms_fraction by done.
    rewrite Hz. f_equal. apply Qred_inject_Z.
    change (inject_Z 0) with 0%Q. unfold Qdiv. ring.
Qed.

Lemma parseDuration_hms_witness :
  parseDuration (VStr ("1" +:+ ":" +:+ "30" +:+ ":" +:+ "45"))
  = Fin (inject_Z (3600 * digitsValue "1" + 60 * digitsValue "30"
                   + digitsValue "45"))
  ∧ (isDigits "000" = true → digitsValue "000" = 0 →
     parseDuration
       (VStr ("1" +:+ ":" +:+ "30" +:+ ":" +:+ "45" +:+ "." +:+ "000"))
     = Fin (inject_Z (3600 * digitsValue "1" + 60 * digitsValue "30"
                      + digitsValue "45"))).
Proof.
  apply (parseDuration_hms "1" "30" "45" "000"); reflexivity.
Defined.
End DurationMoreFacts.

Section ResolverMoreFacts.
Import Vast VASTParser ResolverSpec ExtraSpec Fixtures ExtraFixtures.

Lemma allFlat_app (xs ys : list (Outcome (list Ad))) :
  allFlat (xs ++ ys)
  = ((allFlat xs).1 ++ (allFlat ys).1,
     match (allFlat xs).2, (allFlat ys).2 with
     | Throw e, _ => Throw e
     | Return _, Throw e => Throw e
     | Return a, Return b => Return (a ++ b)
     end).
Proof.
  induction xs as [|[f c] xs IH].
  - cbn. destruct (allFlat ys) as [fy [b|e]]; done.
  - cbn [app allFlat]. rewrite IH.
    destruct (allFlat xs) as [fx cx], (allFlat ys) as [fy cy]. cbn.
    rewrite app_assoc.
    destruct c, cx, cy; cbn; by rewrite ?app_assoc.
Qed.

Lemma parse_document (host : Host) (config : Config) (url : string)
      (status : Z) (statusText xml : string) (vast : VastElement) :
  0 < maxWrapperDepth config →
  fetchFn host url = Response true status statusText xml →
  xmlParser host xml = XmlDoc (Some vast) →
  parse host config url
  = let '(fetched, resolved) :=
      allFlat
        (map (λ ad,
                if hasWrapperURI ad
                then resolveWrapper host config ad 1
                else ([], Return [ad]))
             (ve_ads vast)) in
    (url :: fetched,
     match resolved with
     | Return resolvedAds => succeeded (responseOf vast resolvedAds)
     | Throw e => failure (messageOf e)
     end).
Proof.
  intros Hd Hf Hx. unfold parse. rewrite fetchAndParse_unfold.
  destruct (0 >=? maxWrapperDepth config) eqn:E; [lia |].
  rewrite (fetch_ok _ _ _ _ _ Hf). unfold parseXml. rewrite Hx.
  cbn [ads version vr_errors]. change (0 + 1) with 1.
  destruct (allFlat _) as [fetched [resolved | e]]; done.
Qed.

(** X6. A document without a wrapper to follow is answered as parsed, after
    one fetch: its Ads in document order (an empty list and wrappers
    without tag URI included), the version defaulting to 4.0. *)
Theorem parse_inline_document (host : Host) (config : Config) (url : string)
        (status : Z) (statusText xml : string) (vast : VastElement) :
  0 < maxWrapperDepth config →
  fetchFn host url = Response true status statusText xml →
  xmlParser host xml = XmlDoc (Some vast) →
  (∀ ad, ad ∈ ve_ads vast → hasWrapperURI ad = false) →
  parse host config url
  = ([url], succeeded (responseOf vast (ve_ads vast))).
Proof.
  intros Hd Hf Hx Hin.
  rewrite (parse_document _ _ _ _ _ _ _ Hd Hf Hx).
  by rewrite (allFlat_inline _ Hin).
Qed.

Lemma parse_inline_document_witness :
  parse testHost (configOf 5) "https://example.com/empty.xml"
  = (["https://example.com/empty.xml"],
     succeeded (responseOf (vastOf []) [])).
Proof.
  apply (parse_inline_document testHost (configOf 5) _ 200 "OK" "EMPTY_VAST"
           (vastOf [])).
  - reflexivity.
  - reflexivity.
  - reflexivity.
  - intros ad H. by apply elem_of_nil in H.
Defined.

(** X7. A wrapper whose document cannot be resolved is dropped when it
    carries [fallbackOnNoAd], the Ads beside it being kept; without
    the attribute the whole parse fails with the nested message. *)
Theorem parse_failed_wrapper (host : Host) (config : Config) (url : string)
        (status : Z) (statusText xml : string) (vast : VastElement)
        (before after : list Ad) (ad : Ad) (w : Wrapper)
        (fetched : list string) (e : Thrown) :
  0 < maxWrapperDepth config →
  fetchFn host url = Response true status statusText xml →
  xmlParser host xml = XmlDoc (Some vast) →
  ve_ads vast = before ++ ad :: after →
  (∀ a, a ∈ before ++ after → hasWrapperURI a = false) →
  Vast.wrapper ad = Some w →
  vastAdTagURI w ≠ "" →
  fetchAndParse host config (vastAdTagURI w) 1 = (fetched, Throw e) →
  parse host config url
  = (url :: fetched,
     if fallbackOnNoAd w
     then succeeded (responseOf vast (before ++ after))
     else failure (messageOf e)).
Proof.
  intros Hd Hf Hx Hads Hin Hw Huri Hnested.
  rewrite (parse_document _ _ _ _ _ _ _ Hd Hf Hx), Hads.
  rewrite map_app, allFlat_app. cbn [map allFlat].
  rewrite (allFlat_inline before), (allFlat_inline after);
    [| intros a Ha; apply Hin, elem_of_app; by right
     | intros a Ha; apply Hin, elem_of_app; by left ].
  rewrite (hasWrapperURI_true _ _ Hw Huri).
  unfold resolveWrapper. rewrite (resolveWrapper_with_at _ _ _ Hw Huri), Hnested.
  destruct (fallbackOnNoAd w); cbn; by rewrite app_nil_r.
Qed.

Lemma parse_failed_wrapper_witness :
  parse (mixedHost true) (configOf 5) "https://example.com/mixed.xml"
  = (["https://example.com/mixed.xml"; "https://example.com/timeout.xml"],
     succeeded
       (responseOf (vastOf [simpleAd; deadWrapperAd true; noLinearAd])
                   ([simpleAd] ++ [noLinearAd]))).
Proof.
  apply (parse_failed_wrapper (mixedHost true) (configOf 5)
           "https://example.com/mixed.xml" 200 "OK" "MIXED_VAST"
           (vastOf [simpleAd; deadWrapperAd true; noLinearAd])
           [simpleAd] [noLinearAd] (deadWrapperAd true)
           {| vastAdTagURI := "https://example.com/timeout.xml";
              followAdditionalWrappers := true;
              allowMultipleAds := false;
              fallbackOnNoAd := true |}
           ["https://example.com/timeout.xml"] (ErrorObj "Aborted")).
  - reflexivity.
  - reflexivity.
  - reflexivity.
  - reflexivity.
  - intros a Ha. apply elem_of_cons in Ha as [-> | Ha]; [reflexivity |].
    apply list_elem_of_singleton in Ha as ->. reflexivity.
  - reflexivity.
  - discriminate.
  - reflexivity.
Defined.
End ResolverMoreFacts.

Section MacroMoreFacts.
Import Js Macros ExtraSpec.

Lemma replaceAll_go_no_first (c0 : ascii) (pat template : string) (s : string) :
  hasChar c0 s = false →
  ∀ before, replaceAll_go (String c0 pat) template 0 before s = s.
Proof.
  induction s as [|c s IH]; intros Hs before; [done |].
  cbn [hasChar] in Hs. apply orb_false_iff in Hs as [Hc Hs].
  cbn [replaceAll_go]. rewrite prefix_cons.
  destruct (ascii_dec c0 c) as [-> |]; [by rewrite Ascii.eqb_refl in Hc |].
  by rewrite IH.
Qed.

Lemma replaceAll_no_first (c0 : ascii) (pat template s : string) :
  hasChar c0 s = false → replaceAll (String c0 pat) template s = s.
Proof. intros H. by apply replaceAll_go_no_first. Qed.

Lemma replaceAll_macros_id (url : string) (context : MacroContext)
      (now : Z) (rnd : string) :
  hasChar "[" url = false →
  replaceMacros url context now rnd = url.
Proof.
  intros H. unfold replaceMacros, replaceWhen.
  rewrite !(replaceAll_no_first "[" _ _ url H).
  destruct (encodeURIComponent <$> truthyStr (assetUri context));
    rewrite ?(replaceAll_no_first "[" _ _ url H);
  destruct (formatPlayhead <$> contentPlayhead context);
    rewrite ?(replaceAll_no_first "[" _ _ url H);
  destruct (formatPlayhead <$> adPlayhead context);
    rewrite ?(replaceAll_no_first "[" _ _ url H);
  destruct (pretty <$> errorCode context);
    rewrite ?(replaceAll_no_first "[" _ _ url H);
  destruct (pretty <$> breakPosition context);
    rewrite ?(replaceAll_no_first "[" _ _ url H);
  destruct (truthyStr (adType context));
    by rewrite ?(replaceAll_no_first "[" _ _ url H).
Qed.

(** X8. A URL without an opening bracket holds no macro: [replaceMacros]
    returns it unchanged, whatever the context, the clock and the
    random token. *)
Theorem replaceMacros_without_bracket (url : string) (context : MacroContext)
        (now : Z) (rnd : string) :
  hasChar "[" url = false →
  replaceMacros url context now rnd = url.
Proof. apply replaceAll_macros_id. Qed.

Lemma replaceMacros_without_bracket_witness :
  replaceMacros "https://example.com/track?id=123"
    (mkMacroContext (Some "https://example.com/video.mp4") None None
                    (Some 405) None (Some "linear"))
    1768305600000 "k3j2h1"
  = "https://example.com/track?id=123".
Proof. apply replaceMacros_without_bracket. reflexivity. Defined.

Lemma unreserved_plain (c : ascii) :
  uriUnreserved c = true →
  Ascii.eqb c "$" = false ∧ Ascii.eqb "[" c = false.
Proof.
  destruct c as [[] [] [] [] [] [] [] []]; vm_compute; intros H;
    (discriminate H || done).
Qed.

Lemma hexDigit_plain (n : N) :
  Ascii.eqb (hexDigit n) "$" = false ∧ Ascii.eqb "[" (hexDigit n) = false.
Proof.
  destruct n as [|p]; [done |].
  do 5 (try destruct p as [p|p|]); done.
Qed.

Lemma encodeURIComponent_plain (s matched before after : string) :
  getSubstitution matched before after (encodeURIComponent s)
  = encodeURIComponent s
  ∧ hasChar "[" (encodeURIComponent s) = false.
Proof.
  induction s as [|c s [IH1 IH2]]; [done |].
  cbn [encodeURIComponent].
  destruct (uriUnreserved c) eqn:E.
  - destruct (unreserved_plain c E) as [H1 H2].
    cbn [getSubstitution hasChar]. rewrite H1, H2, IH1, IH2. done.
  - destruct (hexDigit_plain (N_of_ascii c / 16)) as [H1 H2].
    destruct (hexDigit_plain (N_of_ascii c mod 16)) as [H3 H4].
    cbn [getSubstitution hasChar].
    change (Ascii.eqb "%" "$") with false. change (Ascii.eqb "[" "%") with false.
    cbn [orb]. rewrite H1, H2, H3, H4, IH1, IH2. done.
Qed.

Lemma hasChar_app (c : ascii) (a b : string) :
  hasChar c (a +:+ b) = hasChar c a || hasChar c b.
Proof.
  induction a as [|x a IH]; [done |].
  rewrite str_app_cons. cbn [hasChar]. by rewrite IH, orb_assoc.
Qed.

Lemma replaceAll_go_copy (c0 : ascii) (pat template a s : string) :
  hasChar c0 a = false →
  ∀ before,
    replaceAll_go (String c0 pat) template 0 before (a +:+ s)
    = a +:+ replaceAll_go (String c0 pat) template 0 (before +:+ a) s.
Proof.
  induction a as [|c a IH]; intros Ha before.
  - by rewrite str_app_nil_l, str_app_nil_r.
  - cbn [hasChar] in Ha. apply orb_false_iff in Ha as [Hc Ha].
    rewrite !str_app_cons. cbn [replaceAll_go]. rewrite prefix_cons.
    destruct (ascii_dec c0 c) as [-> |]; [by rewrite Ascii.eqb_refl in Hc |].
    rewrite IH by done. by rewrite str_app_assoc.
Qed.

Lemma replaceAll_go_skip (pat template b : string) (x : string) :
  ∀ before,
    b ≠ "" →
    replaceAll_go pat template (String.length x) before (x +:+ b)
    = replaceAll_go pat template 0 (before +:+ x) b.
Proof.
  induction x as [|c x IH]; intros before Hb.
  - rewrite str_app_nil_l, str_app_nil_r. cbn [String.length].
    by destruct b.
  - rewrite str_app_cons. cbn [String.length replaceAll_go].
    rewrite IH by done. by rewrite str_app_assoc.
Qed.

Lemma replaceAll_go_skip_end (pat template : string) (x : string) :
  ∀ before,
    replaceAll_go pat template (String.length x) before x = "".
Proof.
  induction x as [|c x IH]; intros before; [done |].
  cbn [String.length replaceAll_go]. apply IH.
Qed.

Lemma dropStr_app (p b : string) : dropStr (String.length p) (p +:+ b) = b.
Proof.
  induction p as [|c p IH]; [by destruct b |].
  rewrite str_app_cons. cbn [String.length dropStr]. apply IH.
Qed.

Lemma replaceWhen_id (tok : string) (v : option string) (s : string) :
  hasChar "[" s = false → replaceWhen (String "[" tok) v s = s.
Proof.
  intros H. destruct v; [| done]. by apply replaceAll_no_first.
Qed.

(** One occurrence of the token, between two parts that hold no
    opening bracket. *)
Lemma replaceAll_single (pat template a b : string) :
  hasChar "[" a = false → hasChar "[" b = false →
  replaceAll (String "[" pat) template (a +:+ String "[" pat +:+ b)
  = a +:+ getSubstitution (String "[" pat) a b template +:+ b.
Proof.
  intros Ha Hb. unfold replaceAll.
  rewrite replaceAll_go_copy by done. rewrite str_app_nil_l. f_equal.
  rewrite str_app_cons. cbn [replaceAll_go].
  rewrite <- str_app_cons, prefix_app.
  rewrite (dropStr_app (String "[" pat) b). f_equal.
  cbn [String.length]. rewrite Nat.sub_1_r. cbn [Nat.pred].
  destruct b as [|c b'] eqn:E.
  - rewrite str_app_nil_r. apply replaceAll_go_skip_end.
  - rewrite replaceAll_go_skip by done.
    rewrite <- E in *. by apply replaceAll_go_no_first.
Qed.

(** A token other than [pat] at the only opening bracket. *)
Lemma replaceAll_other (pat template a rest : string) :
  hasChar "[" a = false → hasChar "[" rest = false →
  String.prefix pat rest = false →
  replaceAll (String "[" pat) template (a +:+ String "[" rest)
  = a +:+ String "[" rest.
Proof.
  intros Ha Hr Hp. unfold replaceAll.
  rewrite replaceAll_go_copy by done. f_equal.
  cbn [replaceAll_go]. rewrite prefix_cons.
  destruct (ascii_dec "[" "[") as [_ |]; [| done]. rewrite Hp.
  by rewrite replaceAll_go_no_first.
Qed.

(** X9. The [ASSETURI] token is replaced by the encoded asset URI, put in
    as it is: no [$] pattern of the replacement is expanded and no
    later pass rewrites it. *)
Theorem replaceMacros_asset_uri (a b uri : string) (context : MacroContext)
        (now : Z) (rnd : string) :
  hasChar "[" a = false → hasChar "[" b = false →
  assetUri context = Some uri → uri ≠ "" →
  replaceMacros (a +:+ "[ASSETURI]" +:+ b) context now rnd
  = a +:+ encodeURIComponent uri +:+ b.
Proof.
  intros Ha Hb Hctx Huri. unfold replaceMacros.
  rewrite (replaceAll_other "TIMESTAMP]" _ a ("ASSETURI]" +:+ b));
    [| done | by rewrite hasChar_app, Hb | done].
  rewrite (replaceAll_other "CACHEBUSTING]" _ a ("ASSETURI]" +:+ b));
    [| done | by rewrite hasChar_app, Hb | done].
  rewrite Hctx.
  assert (truthyStr (Some uri) = Some uri) as -> by (by destruct uri).
  cbn [fmap option_fmap option_map replaceWhen].
  change (String "[" ("ASSETURI]" +:+ b)) with ("[ASSETURI]" +:+ b).
  rewrite (replaceAll_single "ASSETURI]" _ a b Ha Hb).
  destruct (encodeURIComponent_plain uri "[ASSETURI]" a b) as [-> Henc].
  assert (hasChar "[" (a +:+ encodeURIComponent uri +:+ b) = false) as Hres
    by (by rewrite !hasChar_app, Ha, Henc, Hb).
  by rewrite !(replaceWhen_id _ _ _ Hres).
Qed.

Lemma replaceMacros_asset_uri_witness :
  replaceMacros ("https://example.com/track?asset=" +:+ "[ASSETURI]" +:+ "&x=1")
    (mkMacroContext (Some "https://example.com/video.mp4") None None
                    (Some 405) None (Some "linear"))
    1768305600000 "k3j2h1"
  = "https://example.com/track?asset="
    +:+ encodeURIComponent "https://example.com/video.mp4" +:+ "&x=1".
Proof.
  apply replaceMacros_asset_uri; [reflexivity | reflexivity | reflexivity |].
  discriminate.
Defined.
End MacroMoreFacts.

Section TrackerMoreFacts.
Import Vast Runtime AdTracker TrackerSpec PlayerSpec ExtraSpec.

(** X10. Tracking an event type for which no endpoint was registered does
    nothing: no pixel, no ambient reading, no change of the tracker. *)
Theorem track_unregistered_type (amb : Ambient) (events : list TrackingEvent)
        (e : string) (once : bool) (w : World) :
  (∀ ev, ev ∈ events → event ev ≠ e) →
  track amb e once (construct events) w = (construct events, w).
Proof.
  intros Hno. rewrite track_foldl. cbn [construct trackingEvents].
  rewrite groupEventsByType_lookup.
  replace (filter (λ ev, event ev = e) events) with (@nil TrackingEvent); [done |].
  symmetry. induction events as [|ev events IH]; [done |].
  rewrite filter_cons. destruct (decide (event ev = e)) as [E | _].
  - exfalso. apply (Hno ev); [left | done].
  - apply IH. intros ev' Hin. apply Hno. by right.
Qed.

Lemma track_unregistered_type_witness :
  track PlayerFixtures.testAmbient "midpoint" true
    (construct (Vast.trackingEvents Fixtures.simpleLinear)) initialWorld
  = (construct (Vast.trackingEvents Fixtures.simpleLinear), initialWorld).
Proof.
  apply track_unregistered_type. intros ev Hin.
  apply elem_of_cons in Hin as [-> | Hin]; [discriminate |].
  apply list_elem_of_singleton in Hin as ->. discriminate.
Defined.

Lemma expandAll_without_bracket (amb : Ambient) (c : Macros.MacroContext)
      (urls : list string) :
  (∀ u, u ∈ urls → hasChar "[" u = false) →
  ∀ k, expandAll amb c k urls = urls.
Proof.
  induction urls as [|u urls IH]; intros H k; [done |].
  cbn [expandAll]. rewrite replaceAll_macros_id by (apply H; left).
  rewrite IH; [done |]. intros u' Hin. apply H. by right.
Qed.

(** X11. [fireImpressions] and [fireError] fire one pixel for every
    entry of the list they are given, in list order, whatever the
    entries are: the URL sent for an entry is its macro expansion, with
    the error code in the context for [fireError].  Nothing is
    deduplicated: a second call sends every entry again.  An entry
    without macro goes out as it is. *)
Theorem fire_urls_verbatim (amb : Ambient) (urls : list string)
        (errorCode : Z) (t : AdTracker) (w : World) :
  trace (fireImpressions amb urls t w)
  = trace w
    ++ (FirePixel <$> expandAll amb (macroContext t) (reads w) urls)
  ∧ trace (fireError amb urls errorCode t w)
    = trace w
      ++ (FirePixel <$>
            expandAll amb (errorContext (macroContext t) errorCode)
                      (reads w) urls)
  ∧ trace (fireImpressions amb urls t (fireImpressions amb urls t w))
    = trace w
      ++ (FirePixel <$> expandAll amb (macroContext t) (reads w) urls)
      ++ (FirePixel <$>
            expandAll amb (macroContext t) (reads w + length urls) urls)
  ∧ (∀ c k, length (expandAll amb c k urls) = length urls)
  ∧ ((∀ u, u ∈ urls → hasChar "[" u = false) →
     ∀ c k, expandAll amb c k urls = urls).
Proof.
  rewrite !fireImpressions_trace, fireError_trace. cbn [trace reads].
  split; [done |]. split; [done |]. split; [by rewrite <- app_assoc |].
  split.
  - intros c k. revert k. induction urls as [|u urls IH]; intros k; [done |].
    cbn [expandAll length]. by rewrite IH.
  - intros H c k. by apply expandAll_without_bracket.
Qed.

Lemma fire_urls_verbatim_witness :
  trace (fireError PlayerFixtures.testAmbient
           ["https://example.com/error?code=[ERRORCODE]";
            "https://example.com/failed";
            "https://example.com/error?code=[ERRORCODE]"]
           405 (construct []) initialWorld)
  = [ FirePixel "https://example.com/error?code=405";
      FirePixel "https://example.com/failed";
      FirePixel "https://example.com/error?code=405" ].
Proof.
  etrans.
  - apply (fire_urls_verbatim PlayerFixtures.testAmbient
             ["https://example.com/error?code=[ERRORCODE]";
              "https://example.com/failed";
              "https://example.com/error?code=[ERRORCODE]"]
             405 (construct []) initialWorld).
  - reflexivity.
Defined.

Lemma eventKey_inj_type (e1 e2 u1 u2 : string) :
  hasChar ":" e1 = false → hasChar ":" e2 = false →
  eventKey e1 u1 = eventKey e2 u2 → e1 = e2.
Proof.
  unfold eventKey. revert e2.
  induction e1 as [|a e1 IH]; intros [|b e2] H1 H2 E; try done.
  - rewrite str_app_nil_l, !str_app_cons in E. injection E as <- _.
    cbn in H2. done.
  - rewrite str_app_nil_l, !str_app_cons in E. injection E as -> _.
    cbn in H1. done.
  - rewrite !str_app_cons in E. injection E as -> E.
    cbn [hasChar] in H1, H2.
    apply orb_false_iff in H1 as [_ H1]. apply orb_false_iff in H2 as [_ H2].
    f_equal. by apply IH.
Qed.

Lemma firstFirings_other_keys (e : string) (urls : list string)
      (G : gset string) :
  (∀ u, eventKey e u ∉ G) →
  ∀ F, firstFirings e (F ∪ G) urls = firstFirings e F urls.
Proof.
  intros HG. induction urls as [|u urls IH]; intros F; [done |].
  cbn [firstFirings].
  destruct (decide (eventKey e u ∈ F)) as [Hin | Hout].
  - rewrite (bool_decide_eq_true_2 (eventKey e u ∈ F ∪ G)) by set_solver.
    rewrite (bool_decide_eq_true_2 (eventKey e u ∈ F)) by done.
    apply IH.
  - rewrite (bool_decide_eq_false_2 (eventKey e u ∈ F ∪ G))
      by (specialize (HG u); set_solver).
    rewrite (bool_decide_eq_false_2 (eventKey e u ∈ F)) by done.
    f_equal. rewrite <- (IH (F ∪ {[eventKey e u]})). f_equal. set_solver.
Qed.

(** X12. Event types are deduplicated apart: what a [track] call delivers
    for one type is the same whether or not another type was tracked
    before it.  The types are names without a colon, as all
    [TrackingEventType] values are. *)
Theorem track_types_independent (amb : Ambient) (events : list TrackingEvent)
        (e1 e2 : string) (c : Macros.MacroContext) (F : gset string)
        (w : World) :
  hasChar ":" e1 = false → hasChar ":" e2 = false → e1 ≠ e2 →
  let t := mkAdTracker (groupEventsByType events) F c in
  let after := track amb e1 true t w in
  (track amb e2 true after.1 after.2).2
  = (track amb e2 true t after.2).2.
Proof.
  intros H1 H2 Hne t after. subst t after.
  rewrite (track_once amb events e1). cbn [fst snd].
  rewrite !(track_once amb events e2). cbn [fst snd].
  rewrite firstFirings_other_keys; [done |].
  intros u Hin. apply elem_of_list_to_set in Hin.
  apply list_elem_of_fmap in Hin as (u' & E & _).
  apply Hne. symmetry. by apply (eventKey_inj_type _ _ _ _ H2 H1) in E.
Qed.

Lemma track_types_independent_witness :
  (track PlayerFixtures.testAmbient "complete" true
     (track PlayerFixtures.testAmbient "start" true
        (mkAdTracker (groupEventsByType (Vast.trackingEvents Fixtures.simpleLinear))
                     ∅ Macros.emptyContext) initialWorld).1
     (track PlayerFixtures.testAmbient "start" true
        (mkAdTracker (groupEventsByType (Vast.trackingEvents Fixtures.simpleLinear))
                     ∅ Macros.emptyContext) initialWorld).2).2
  = (track PlayerFixtures.testAmbient "complete" true
       (mkAdTracker (groupEventsByType (Vast.trackingEvents Fixtures.simpleLinear))
                    ∅ Macros.emptyContext)
       (track PlayerFixtures.testAmbient "start" true
          (mkAdTracker (groupEventsByType (Vast.trackingEvents Fixtures.simpleLinear))
                       ∅ Macros.emptyContext) initialWorld).2).2.
Proof.
  apply (track_types_independent PlayerFixtures.testAmbient
           (Vast.trackingEvents Fixtures.simpleLinear) "start" "complete"
           Macros.emptyContext ∅ initialWorld).
  - reflexivity.
  - reflexivity.
  - discriminate.
Defined.
End TrackerMoreFacts.

Section ProgressFacts.
Import Vast PlayerTypes Runtime AdPlayer AdPlayerProgress NumOps PlayerSpec
       TrackerSpec ExtraSpec.

Lemma fireQuartile_state (amb : Ambient) (pct : Num.JsNum) (q : Z * string)
      (p : AdPlayer) (w : World) :
  state (fireQuartile amb pct q p w).1 = state p.
Proof.
  unfold fireQuartile. destruct q as [threshold ev].
  destruct (geZ pct threshold && _); [| done].
  rewrite !andThen_eq. cbn [emit fst snd]. by rewrite trackerTrack_state.
Qed.

Lemma fireQuartileEvents_state (amb : Ambient) (pct : Num.JsNum)
      (p : AdPlayer) (w : World) :
  state (fireQuartileEvents amb pct p w).1 = state p.
Proof.
  unfold fireQuartileEvents, quartiles. cbn [foldl].
  by rewrite !fireQuartile_state.
Qed.

Lemma handleTimeUpdate_state (amb : Ambient) (t : Q) (d : Num.JsNum)
      (p : AdPlayer) (w : World) :
  Num.truthy d = true → isNaN d = false →
  state (handleTimeUpdate amb t d p w).1
  = state (updateSkipCountdown t
             (setState (withTimes (Num.Fin t) d (state p)) p) w).1.
Proof.
  intros Hd Hn. unfold handleTimeUpdate. rewrite Hd, Hn. cbn [negb orb].
  rewrite !andThen_eq, fireQuartileEvents_state. done.
Qed.

Lemma handleTimeUpdate_invalid (amb : Ambient) (t : Q) (d : Num.JsNum)
      (p : AdPlayer) (w : World) :
  negb (Num.truthy d) || isNaN d = true →
  handleTimeUpdate amb t d p w = (p, w).
Proof. intros H. unfold handleTimeUpdate. by rewrite H. Qed.

Lemma updateSkipCountdown_status (t : Q) (p : AdPlayer) (w : World) :
  status (state (updateSkipCountdown t p w).1) = status (state p).
Proof.
  unfold updateSkipCountdown.
  destruct (effectiveSkipOffset p) as [off|]; [| done].
  destruct (negb (Num.truthy off) || negb (skipButtonElement p)); [done |].
  cbn. by destruct (Num.leZero _ && _).
Qed.

(** X13. A time update never changes the playback status: reaching the end
    of the media by time does not complete the ad, and a paused or
    waiting player stays so. *)
Theorem handleTimeUpdate_keeps_status (amb : Ambient) (t : Q)
        (d : Num.JsNum) (p : AdPlayer) (w : World) :
  status (state (handleTimeUpdate amb t d p w).1) = status (state p).
Proof.
  destruct (negb (Num.truthy d) || isNaN d) eqn:E.
  - by rewrite handleTimeUpdate_invalid.
  - apply orb_false_iff in E as [E1 E2].
    apply negb_false_iff in E1.
    rewrite handleTimeUpdate_state, updateSkipCountdown_status by done.
    done.
Qed.

Lemma updateSkipCountdown_canSkip (t : Q) (p : AdPlayer) (w : World) :
  canSkip (state p) = true →
  canSkip (state (updateSkipCountdown t p w).1) = true.
Proof.
  intros H. unfold updateSkipCountdown.
  destruct (effectiveSkipOffset p) as [off|]; [| done].
  destruct (negb (Num.truthy off) || negb (skipButtonElement p)); [done |].
  cbn. rewrite H. by rewrite andb_false_r.
Qed.

(** X14. Once skipping is allowed it stays allowed: no later time update
    takes [canSkip] back, even one at an earlier position. *)
Theorem canSkip_is_kept (amb : Ambient) (t : Q) (d : Num.JsNum)
        (p : AdPlayer) (w : World) :
  canSkip (state p) = true →
  canSkip (state (handleTimeUpdate amb t d p w).1) = true.
Proof.
  intros H. destruct (negb (Num.truthy d) || isNaN d) eqn:E.
  - by rewrite handleTimeUpdate_invalid.
  - apply orb_false_iff in E as [E1 E2].
    apply negb_false_iff in E1.
    rewrite handleTimeUpdate_state by done.
    by apply updateSkipCountdown_canSkip.
Qed.

Lemma canSkip_is_kept_witness :
  canSkip
    (state
       (handleTimeUpdate PlayerFixtures.testAmbient 1 (Num.ofZ 30)
          (handleTimeUpdate PlayerFixtures.testAmbient 6 (Num.ofZ 30)
             ExtraFixtures.skippablePlayer initialWorld).1
          (handleTimeUpdate PlayerFixtures.testAmbient 6 (Num.ofZ 30)
             ExtraFixtures.skippablePlayer initialWorld).2).1) = true
  ∧ canSkip (state ExtraFixtures.skippablePlayer) = false
  ∧ skipCountdown
      (state
         (handleTimeUpdate PlayerFixtures.testAmbient 1 (Num.ofZ 30)
            (handleTimeUpdate PlayerFixtures.testAmbient 6 (Num.ofZ 30)
               ExtraFixtures.skippablePlayer initialWorld).1
            (handleTimeUpdate PlayerFixtures.testAmbient 6 (Num.ofZ 30)
               ExtraFixtures.skippablePlayer initialWorld).2).1)
    = Num.ofZ 4.
Proof.
  split; [| split; [reflexivity | vm_compute; reflexivity]].
  apply canSkip_is_kept. vm_compute. reflexivity.
Defined.

Lemma Qsub_le_0 (a b : Q) : (a <= b)%Q ↔ (a - b <= 0)%Q.
Proof.
  rewrite (Qle_minus_iff a b), (Qle_minus_iff (a - b) 0).
  assert (0 + - (a - b) == b + - a)%Q as -> by ring. done.
Qed.

Lemma Qle_bool_sub (a b : Q) :
  Qle_bool (Qred (a - b)) 0 = true ↔ (a <= b)%Q.
Proof. by rewrite Qle_bool_iff, Qred_correct, <- Qsub_le_0. Qed.

(** X15. During a time update with a usable duration (neither 0 nor
    [NaN]), a skip button on screen and a positive offset: before the
    offset the countdown shown is positive and [canSkip] stays as it
    was; at or after the offset the countdown is 0 and skipping is
    allowed. *)
Theorem handleTimeUpdate_skip_countdown (amb : Ambient) (t off : Q)
        (d : Num.JsNum) (p : AdPlayer) (w : World) :
  Num.truthy d = true → isNaN d = false →
  skipButtonElement p = true →
  effectiveSkipOffset p = Some (Num.Fin off) →
  (0 < off)%Q →
  let st := state (handleTimeUpdate amb t d p w).1 in
  ((off <= t)%Q → canSkip st = true ∧ skipCountdown st = Num.Fin 0)
  ∧ ((t < off)%Q →
     canSkip st = canSkip (state p)
     ∧ ∃ r, skipCountdown st = Num.Fin r ∧ (0 < r)%Q).
Proof.
  intros Hd Hn Hb Hoff Hpos st. subst st.
  rewrite handleTimeUpdate_state by done.
  unfold updateSkipCountdown.
  change (effectiveSkipOffset (setState _ p)) with (effectiveSkipOffset p).
  rewrite Hoff. cbn [skipButtonElement setState]. rewrite Hb.
  assert (Num.truthy (Num.Fin off) = true) as ->.
  { cbn. apply negb_true_iff. apply not_true_iff_false. intros E.
    apply Qeq_bool_iff in E. rewrite E in Hpos. by apply Qlt_irrefl in Hpos. }
  cbn [negb orb subQ max0].
  split; intros Ht.
  - assert (Qle_bool (Qred (off - t)) 0 = true) as -> by (by apply Qle_bool_sub).
    unfold setState, withSkipCountdown, withCanSkip, withTimes. cbn.
    destruct (canSkip (state p)); done.
  - assert (Qle_bool (Qred (off - t)) 0 = false) as E.
    { apply not_true_iff_false. intros E. apply Qle_bool_sub in E.
      by apply Qlt_not_le in Ht. }
    rewrite E. unfold setState, withSkipCountdown, withCanSkip, withTimes.
    cbn. rewrite E. split; [done |].
    exists (Qred (off - t)). split; [done |].
    apply Qnot_le_lt. intros Hle. apply not_true_iff_false in E. apply E.
    by apply Qle_bool_iff.
Qed.

Lemma handleTimeUpdate_skip_countdown_witness :
  canSkip (state (handleTimeUpdate PlayerFixtures.testAmbient 6 (Num.ofZ 30)
                    ExtraFixtures.skippablePlayer initialWorld).1) = true
  ∧ skipCountdown
      (state (handleTimeUpdate PlayerFixtures.testAmbient 6 (Num.ofZ 30)
                ExtraFixtures.skippablePlayer initialWorld).1) = Num.Fin 0.
Proof.
  refine (proj1 (handleTimeUpdate_skip_countdown PlayerFixtures.testAmbient
                   6 (inject_Z 5) (Num.ofZ 30) ExtraFixtures.skippablePlayer
                   initialWorld _ _ _ _ _) _);
    try reflexivity; vm_compute; congruence.
Defined.

(** X16. A skip offset of 0 in the configuration switches skipping off: it
    takes the place of the creative's own offset, no button is made,
    and no time update ever changes [canSkip]. *)
Theorem zero_skipOffset_disables_skip (amb : Ambient) (t : Q)
        (d : Num.JsNum) (p : AdPlayer) (w : World) :
  skipOffset (config p) = Some (Num.ofZ 0) →
  setupSkipButton p w = (p, w)
  ∧ canSkip (state (handleTimeUpdate amb t d p w).1) = canSkip (state p).
Proof.
  intros H. split.
  - unfold setupSkipButton. by rewrite H.
  - destruct (negb (Num.truthy d) || isNaN d) eqn:E.
    + by rewrite handleTimeUpdate_invalid.
    + apply orb_false_iff in E as [E1 E2]. apply negb_false_iff in E1.
      rewrite handleTimeUpdate_state by done.
      unfold updateSkipCountdown, effectiveSkipOffset.
      cbn [config setState]. by rewrite H.
Qed.

Lemma zero_skipOffset_disables_skip_witness :
  setupSkipButton ExtraFixtures.zeroOffsetPlayer initialWorld
  = (ExtraFixtures.zeroOffsetPlayer, initialWorld)
  ∧ canSkip (state (handleTimeUpdate PlayerFixtures.testAmbient 10 (Num.ofZ 30)
                      ExtraFixtures.zeroOffsetPlayer initialWorld).1)
    = canSkip (state ExtraFixtures.zeroOffsetPlayer).
Proof.
  apply (zero_skipOffset_disables_skip PlayerFixtures.testAmbient 10
           (Num.ofZ 30) ExtraFixtures.zeroOffsetPlayer initialWorld).
  reflexivity.
Defined.
End ProgressFacts.

Section QuartileFacts.
Import Vast PlayerTypes Runtime AdPlayer AdPlayerProgress NumOps PlayerSpec
       TrackerSpec ExtraSpec.

Lemma notified_app (xs ys : list Effect) :
  notified (xs ++ ys) = notified xs ++ notified ys.
Proof. unfold notified. apply omap_app. Qed.

Lemma notified_pixels (urls : list string) : notified (FirePixel <$> urls) = [].
Proof. by induction urls. Qed.

Lemma notified_notify (ev : AdPlayerEvent) (ls : list nat) :
  notified ((λ l, Notify l ev) <$> ls) = (λ l, (l, ev)) <$> ls.
Proof. induction ls as [|l ls IH]; [done |]. cbn. by rewrite <- IH. Qed.

Lemma trackerTrack_frame (amb : Ambient) (e : string) (p : AdPlayer)
      (w : World) :
  listeners (trackerTrack amb e p w).1 = listeners p
  ∧ quartilesFired (trackerTrack amb e p w).1 = quartilesFired p
  ∧ notified (trace (trackerTrack amb e p w).2) = notified (trace w).
Proof.
  destruct (tracker p) as [t|] eqn:E.
  - rewrite (trackerTrack_some _ _ _ _ _ E). cbn.
    by rewrite notified_app, notified_pixels, app_nil_r.
  - unfold trackerTrack. by rewrite E.
Qed.

Lemma fireQuartile_frame (amb : Ambient) (pct : Num.JsNum) (th : Z)
      (ev : string) (p : AdPlayer) (w : World) :
  let r := fireQuartile amb pct (th, ev) p w in
  listeners r.1 = listeners p
  ∧ quartilesFired r.1
    = (if geZ pct th then quartilesFired p ∪ {[ th ]} else quartilesFired p)
  ∧ notified (trace r.2)
    = notified (trace w)
      ++ (if geZ pct th && negb (bool_decide (th ∈ quartilesFired p))
          then (λ l, (l, EvQuartile ev)) <$> listeners p else []).
Proof.
  unfold fireQuartile.
  destruct (geZ pct th) eqn:G; cbn [andb];
    [| by rewrite app_nil_r].
  destruct (decide (th ∈ quartilesFired p)) as [Hin | Hout].
  - rewrite bool_decide_eq_true_2 by done. cbn [negb].
    rewrite app_nil_r. split; [done |]. split; [set_solver | done].
  - rewrite bool_decide_eq_false_2 by done. cbn [negb].
    rewrite !andThen_eq. cbn [fst snd].
    destruct (trackerTrack_frame amb ev
                (setQuartilesFired (quartilesFired p ∪ {[th]}) p) w)
      as (Hl & Hq & Hn).
    rewrite emit_trace. cbn [fst snd trace].
    rewrite Hl, Hq, notified_app, Hn, notified_notify. done.
Qed.

Lemma fireQuartile_skip (amb : Ambient) (pct : Num.JsNum) (th : Z)
      (ev : string) (p : AdPlayer) (w : World) :
  (geZ pct th = true → th ∈ quartilesFired p) →
  fireQuartile amb pct (th, ev) p w = (p, w).
Proof.
  intros H. unfold fireQuartile. destruct (geZ pct th); [| done].
  by rewrite bool_decide_eq_true_2 by (by apply H).
Qed.

Lemma geZ_le (a b : Q) (th : Z) :
  (b <= a)%Q → geZ (Num.Fin b) th = true → geZ (Num.Fin a) th = true.
Proof.
  cbn. rewrite !Qle_bool_iff. intros H1 H2. by apply (Qle_trans _ b).
Qed.

Lemma geZ_threshold (pct : Num.JsNum) (hi lo : Z) :
  lo <= hi → geZ pct hi = true → geZ pct lo = true.
Proof.
  intros H. destruct pct as [x| | |]; cbn; try done.
  rewrite !Qle_bool_iff. intros Hx.
  apply (Qle_trans _ (inject_Z hi)); [| done].
  by rewrite <- Zle_Qle.
Qed.

(** X17. A quartile fires once: after an update at some percentage, an
    update at the same or a lower percentage (a repeated time or a
    seek back) fires no quartile pixel and notifies nobody. *)
Theorem quartiles_fire_once (amb : Ambient) (a b : Q) (p : AdPlayer)
        (w : World) :
  (b <= a)%Q →
  let r := fireQuartileEvents amb (Num.Fin a) p w in
  fireQuartileEvents amb (Num.Fin b) r.1 r.2 = r.
Proof.
  intros Hle r.
  assert (∀ th, th ∈ [25; 50; 75] → geZ (Num.Fin a) th = true →
                th ∈ quartilesFired r.1) as Hfired.
  { intros th Hth Hg. subst r. unfold fireQuartileEvents, quartiles.
    cbn [foldl fst snd].
    set (r1 := fireQuartile amb (Num.Fin a) (25, "firstQuartile") p w).
    set (r2 := fireQuartile amb (Num.Fin a) (50, "midpoint") r1.1 r1.2).
    destruct (fireQuartile_frame amb (Num.Fin a) 25 "firstQuartile" p w)
      as (_ & Q1 & _).
    destruct (fireQuartile_frame amb (Num.Fin a) 50 "midpoint" r1.1 r1.2)
      as (_ & Q2 & _).
    destruct (fireQuartile_frame amb (Num.Fin a) 75 "thirdQuartile" r2.1 r2.2)
      as (_ & Q3 & _).
    cbn zeta in Q1, Q2, Q3. fold r1 in Q1, Q2. fold r2 in Q2, Q3.
    rewrite Q3, Q2, Q1.
    repeat (apply elem_of_cons in Hth as [-> | Hth]);
      [| | | by apply elem_of_nil in Hth];
      rewrite ?Hg; destruct (geZ (Num.Fin a) 25), (geZ (Num.Fin a) 50),
        (geZ (Num.Fin a) 75); try done; set_solver. }
  destruct r as [p' w'] eqn:Er. cbn [fst snd] in *.
  unfold fireQuartileEvents, quartiles. cbn [foldl fst snd].
  rewrite (fireQuartile_skip amb (Num.Fin b) 25 "firstQuartile" p' w').
  2:{ intros G. apply Hfired; [set_solver | by apply (geZ_le a b)]. }
  cbn [fst snd].
  rewrite (fireQuartile_skip amb (Num.Fin b) 50 "midpoint" p' w').
  2:{ intros G. apply Hfired; [set_solver | by apply (geZ_le a b)]. }
  cbn [fst snd].
  rewrite (fireQuartile_skip amb (Num.Fin b) 75 "thirdQuartile" p' w').
  2:{ intros G. apply Hfired; [set_solver | by apply (geZ_le a b)]. }
  done.
Qed.

Lemma quartiles_fire_once_witness :
  fireQuartileEvents PlayerFixtures.testAmbient (Num.Fin 30)
    (fireQuartileEvents PlayerFixtures.testAmbient (Num.Fin 60)
       PlayerFixtures.readyPlayer initialWorld).1
    (fireQuartileEvents PlayerFixtures.testAmbient (Num.Fin 60)
       PlayerFixtures.readyPlayer initialWorld).2
  = fireQuartileEvents PlayerFixtures.testAmbient (Num.Fin 60)
      PlayerFixtures.readyPlayer initialWorld.
Proof.
  apply (quartiles_fire_once PlayerFixtures.testAmbient 60 30
           PlayerFixtures.readyPlayer initialWorld).
  vm_compute. congruence.
Defined.

(** X18. An update that lands at 75 % or more with no quartile fired yet (a
    seek forward) reports the three quartiles at once, in the order
    firstQuartile, midpoint, thirdQuartile, each to every listener. *)
Theorem quartiles_catch_up (amb : Ambient) (pct : Num.JsNum) (p : AdPlayer)
        (w : World) :
  geZ pct 75 = true →
  quartilesFired p = ∅ →
  let r := fireQuartileEvents amb pct p w in
  quartilesFired r.1 = {[ 25; 50; 75 ]}
  ∧ notified (trace r.2)
    = notified (trace w)
      ++ ((λ l, (l, EvQuartile "firstQuartile")) <$> listeners p)
      ++ ((λ l, (l, EvQuartile "midpoint")) <$> listeners p)
      ++ ((λ l, (l, EvQuartile "thirdQuartile")) <$> listeners p).
Proof.
  intros G75 Hnone r. subst r.
  pose proof (geZ_threshold pct 75 50 ltac:(lia) G75) as G50.
  pose proof (geZ_threshold pct 75 25 ltac:(lia) G75) as G25.
  unfold fireQuartileEvents, quartiles. cbn [foldl fst snd].
  set (r1 := fireQuartile amb pct (25, "firstQuartile") p w).
  set (r2 := fireQuartile amb pct (50, "midpoint") r1.1 r1.2).
  destruct (fireQuartile_frame amb pct 25 "firstQuartile" p w)
    as (L1 & Q1 & N1).
  destruct (fireQuartile_frame amb pct 50 "midpoint" r1.1 r1.2)
    as (L2 & Q2 & N2).
  destruct (fireQuartile_frame amb pct 75 "thirdQuartile" r2.1 r2.2)
    as (L3 & Q3 & N3).
  cbn zeta in *. fold r1 in L1, Q1, N1, L2, Q2, N2.
  fold r2 in L2, Q2, N2, L3, Q3, N3.
  rewrite G25 in Q1, N1. rewrite G50 in Q2, N2. rewrite G75 in Q3, N3.
  rewrite Hnone in Q1, N1. rewrite Q1 in Q2, N2. rewrite Q2 in Q3, N3.
  rewrite L1 in L2, N2. rewrite L2 in N3.
  rewrite bool_decide_eq_false_2 in N1 by set_solver.
  rewrite bool_decide_eq_false_2 in N2 by set_solver.
  rewrite bool_decide_eq_false_2 in N3 by set_solver.
  cbn [andb negb] in N1, N2, N3.
  split.
  - rewrite Q3. set_solver.
  - rewrite N3, N2, N1. by rewrite <- !app_assoc.
Qed.

Lemma quartiles_catch_up_witness :
  quartilesFired
    (fireQuartileEvents PlayerFixtures.testAmbient (Num.ofZ 80)
       PlayerFixtures.readyPlayer initialWorld).1 = {[ 25; 50; 75 ]}
  ∧ notified
      (trace (fireQuartileEvents PlayerFixtures.testAmbient (Num.ofZ 80)
                PlayerFixtures.readyPlayer initialWorld).2)
    = notified (trace initialWorld)
      ++ ((λ l, (l, EvQuartile "firstQuartile"))
            <$> listeners PlayerFixtures.readyPlayer)
      ++ ((λ l, (l, EvQuartile "midpoint"))
            <$> listeners PlayerFixtures.readyPlayer)
      ++ ((λ l, (l, EvQuartile "thirdQuartile"))
            <$> listeners PlayerFixtures.readyPlayer).
Proof.
  apply (quartiles_catch_up PlayerFixtures.testAmbient (Num.ofZ 80)
           PlayerFixtures.readyPlayer initialWorld); reflexivity.
Defined.
End QuartileFacts.

Section LifecycleFacts.
Import Vast PlayerTypes Runtime AdPlayer AdPlayerProgress NumOps PlayerSpec
       TrackerSpec ExtraSpec.

Lemma destroy_eq (p : AdPlayer) (w : World) :
  destroy p w
  = (mkAdPlayer (config p) (parser p) false false false false false
       (AdTracker.reset <$> tracker p) (state p) [] [] ∅, w).
Proof.
  cbv [destroy andThen emit performAll setAds setListeners setQuartilesFired
       setTracker setFocus setSkipButtonElement setOverlayElement
       setVideoElement fst snd config parser videoElement overlayElement
       skipButtonElement focusTrap boundKeyHandler tracker state ads
       listeners quartilesFired map reads trace].
  rewrite app_nil_r. by destruct w.
Qed.

Lemma destroy_fields (p : AdPlayer) (w : World) :
  (destroy p w).2 = w
  ∧ state (destroy p w).1 = state p
  ∧ config (destroy p w).1 = config p
  ∧ listeners (destroy p w).1 = []
  ∧ ads (destroy p w).1 = []
  ∧ quartilesFired (destroy p w).1 = ∅
  ∧ videoElement (destroy p w).1 = false
  ∧ overlayElement (destroy p w).1 = false
  ∧ skipButtonElement (destroy p w).1 = false
  ∧ focusTrap (destroy p w).1 = false
  ∧ boundKeyHandler (destroy p w).1 = false
  ∧ tracker (destroy p w).1 = AdTracker.reset <$> tracker p.
Proof. rewrite destroy_eq. by repeat split. Qed.

(** X19. [destroy] can be called again: the second call changes nothing and
    notifies nobody. *)
Theorem destroy_idempotent (p : AdPlayer) (w : World) :
  destroy (destroy p w).1 (destroy p w).2 = destroy p w.
Proof.
  rewrite (destroy_eq p w). cbn [fst snd]. rewrite destroy_eq.
  cbn [config parser state tracker].
  by destruct (tracker p).
Qed.

Lemma trackerTrack_fields (amb : Ambient) (e : string) (p : AdPlayer)
      (w : World) :
  config (trackerTrack amb e p w).1 = config p
  ∧ ads (trackerTrack amb e p w).1 = ads p
  ∧ videoElement (trackerTrack amb e p w).1 = videoElement p.
Proof.
  unfold trackerTrack. destruct (tracker p) as [t|]; [| done].
  by destruct (AdTracker.track amb e true t w).
Qed.

Lemma notified_callback (supplied : AdPlayerConfig → bool)
      (call : CallbackCall) (p : AdPlayer) (w : World) :
  (callback supplied call p w).1 = p
  ∧ notified (trace (callback supplied call p w).2) = notified (trace w).
Proof.
  unfold callback. cbn. destruct (supplied (config p)); [| done].
  cbn. by rewrite notified_app, app_nil_r.
Qed.

(** X20. A skip that is allowed tells every listener [skip], then tears the
    player down: the video, the skip button and the key handler are
    gone and the registry is empty, nobody having heard [destroy].
    The playback state is left as it was, [canSkip] included. *)
Theorem skip_tears_down (amb : Ambient) (p : AdPlayer) (w : World) :
  canSkip (state p) = true →
  let r := skip amb p w in
  notified (trace r.2)
  = notified (trace w) ++ ((λ l, (l, EvSkip)) <$> listeners p)
  ∧ listeners r.1 = []
  ∧ ads r.1 = []
  ∧ videoElement r.1 = false
  ∧ skipButtonElement r.1 = false
  ∧ boundKeyHandler r.1 = false
  ∧ state r.1 = state p.
Proof.
  intros H r. subst r. unfold skip. rewrite H. cbn [negb].
  rewrite !andThen_eq.
  set (r1 := trackerTrack amb "skip" p w).
  set (r2 := emit EvSkip r1.1 r1.2).
  set (r3 := callback onSkip OnSkip r2.1 r2.2).
  destruct (destroy_fields r3.1 r3.2)
    as (Hw & Hs & _ & Hl & Ha & _ & Hv & _ & Hb & _ & Hk & _).
  rewrite Hw, Hs, Hl, Ha, Hv, Hb, Hk.
  destruct (notified_callback onSkip OnSkip r2.1 r2.2) as [Hp3 Hn3].
  fold r3 in Hp3, Hn3. rewrite Hn3, Hp3.
  subst r2. rewrite emit_trace. cbn [fst snd trace].
  destruct (trackerTrack_frame amb "skip" p w) as (Hl1 & _ & Hn1).
  fold r1 in Hl1, Hn1.
  rewrite notified_app, Hn1, Hl1, notified_notify.
  subst r1. by rewrite trackerTrack_state.
Qed.

Lemma skip_tears_down_witness :
  notified
    (trace (skip PlayerFixtures.testAmbient
              (setState (withCanSkip true (state ExtraFixtures.skippablePlayer))
                        ExtraFixtures.skippablePlayer) initialWorld).2)
  = notified (trace initialWorld)
    ++ ((λ l, (l, EvSkip)) <$> [7%nat]).
Proof.
  apply (skip_tears_down PlayerFixtures.testAmbient
           (setState (withCanSkip true (state ExtraFixtures.skippablePlayer))
                     ExtraFixtures.skippablePlayer) initialWorld).
  reflexivity.
Defined.

Lemma handleComplete_status (amb : Ambient) (p : AdPlayer) (w : World) :
  status (state (handleComplete amb p w).1) = Completed.
Proof.
  unfold handleComplete. rewrite !andThen_eq.
  destruct (notified_callback onComplete OnComplete
              (emit EvComplete
                 (trackerTrack amb "complete"
                    (updateState (withStatus Completed) p w).1
                    (updateState (withStatus Completed) p w).2).1
                 (trackerTrack amb "complete"
                    (updateState (withStatus Completed) p w).1
                    (updateState (withStatus Completed) p w).2).2).1
              (emit EvComplete
                 (trackerTrack amb "complete"
                    (updateState (withStatus Completed) p w).1
                    (updateState (withStatus Completed) p w).2).1
                 (trackerTrack amb "complete"
                    (updateState (withStatus Completed) p w).1
                    (updateState (withStatus Completed) p w).2).2).2)
    as [-> _].
  cbn [emit fst]. by rewrite trackerTrack_state.
Qed.

(** X21. The pause that the video element reports when the media ends is
    swallowed: after [handleComplete] a pause changes nothing, fires
    no pixel and notifies nobody, and the status stays [Completed]. *)
Theorem pause_after_complete_is_ignored (amb : Ambient) (p : AdPlayer)
        (w : World) :
  let r := handleComplete amb p w in
  onVideoPause amb r.1 r.2 = r ∧ status (state r.1) = Completed.
Proof.
  intros r. subst r. split; [| apply handleComplete_status].
  unfold onVideoPause. rewrite handleComplete_status.
  by destruct (handleComplete amb p w).
Qed.

Lemma onVideoPause_eq (amb : Ambient) (p : AdPlayer) (w : World) :
  status (state p) ≠ Completed →
  onVideoPause amb p w
  = trackerTrack amb "pause" (setState (withStatus Paused (state p)) p)
      {| reads := reads w;
         trace := trace w ++ ((λ l, Notify l EvPause) <$> listeners p) |}.
Proof.
  intros H. unfold onVideoPause.
  destruct (status (state p)); try done;
    by rewrite !andThen_eq, emit_trace.
Qed.

(** X22. The [pause] endpoints are hit by the first pause only: a pause
    that follows a resume notifies the listeners again and fires no
    pixel.  Resuming itself is silent: no event, no pixel. *)
Theorem pause_pixels_fire_once (amb : Ambient) (p : AdPlayer) (w : World) :
  status (state p) ≠ Completed →
  let r1 := onVideoPause amb p w in
  let r2 := onVideoPlay r1.1 r1.2 in
  let r3 := onVideoPause amb r2.1 r2.2 in
  r2.2 = r1.2
  ∧ status (state r2.1) = Playing
  ∧ trace r3.2 = trace r1.2 ++ ((λ l, Notify l EvPause) <$> listeners p)
  ∧ status (state r3.1) = Paused.
Proof.
  intros H r1 r2 r3. subst r3 r2.
  unfold onVideoPlay, updateState. cbn [fst snd].
  split; [done |]. split; [done |].
  assert (status (state (setState (withStatus Playing (state r1.1)) r1.1))
          ≠ Completed) as Hplay by done.
  rewrite (onVideoPause_eq amb _ _ Hplay).
  rewrite trackerTrack_state. split; [| done].
  subst r1. rewrite (onVideoPause_eq amb p w H).
  set (p1 := setState (withStatus Paused (state p)) p).
  set (w1 := {| reads := reads w;
                trace := trace w ++ ((λ l, Notify l EvPause) <$> listeners p) |}).
  destruct (tracker p) as [t|] eqn:E.
  - assert (tracker p1 = Some t) as E1 by exact E.
    rewrite (trackerTrack_some amb "pause" p1 t w1 E1).
    cbn [fst snd].
    set (t' := AdTracker.mkAdTracker _ _ _).
    set (p2 := setState (withStatus Paused _)
                        (setState _ (setTracker (Some t') p1))).
    assert (tracker p2 = Some t') as E2 by reflexivity.
    rewrite (trackerTrack_some amb "pause" p2 t' _ E2).
    cbn [snd trace reads].
    assert (urlsOf t' "pause" = urlsOf t "pause") as -> by reflexivity.
    rewrite (firstFirings_none "pause" (urlsOf t "pause")
               (AdTracker.firedEvents t')).
    + cbn [expandAll fmap list_fmap]. by rewrite app_nil_r.
    + intros u Hu. subst t'. cbn [AdTracker.firedEvents].
      apply elem_of_union_r, elem_of_list_to_set.
      by apply list_elem_of_fmap_2.
  - assert (∀ q w0, tracker q = None → trackerTrack amb "pause" q w0 = (q, w0))
      as Hnone.
    { intros q w0 Hq. unfold trackerTrack. by rewrite Hq. }
    rewrite (Hnone p1 w1 E). cbn [fst snd].
    rewrite Hnone by exact E. done.
Qed.

Lemma pause_pixels_fire_once_witness :
  (onVideoPlay
     (onVideoPause PlayerFixtures.testAmbient PlayerFixtures.readyPlayer
        initialWorld).1
     (onVideoPause PlayerFixtures.testAmbient PlayerFixtures.readyPlayer
        initialWorld).2).2
  = (onVideoPause PlayerFixtures.testAmbient PlayerFixtures.readyPlayer
       initialWorld).2.
Proof.
  apply (pause_pixels_fire_once PlayerFixtures.testAmbient
           PlayerFixtures.readyPlayer initialWorld).
  discriminate.
Defined.

(** X23. The registry of listeners is a set kept in registration order:
    registering a new listener appends it, registering it again
    changes nothing, and the function [on] returned takes it out
    again. *)
Theorem listener_round_trip (l : nat) (p : AdPlayer) :
  l ∉ listeners p →
  listeners (on l p) = listeners p ++ [l]
  ∧ on l (on l p) = on l p
  ∧ unsubscribe l (on l p) = p.
Proof.
  intros H.
  assert (on l p = setListeners (listeners p ++ [l]) p) as Hon.
  { unfold on. by rewrite bool_decide_eq_false_2. }
  split; [by rewrite Hon |]. split.
  - unfold on at 1. rewrite bool_decide_eq_true_2; [done |].
    rewrite Hon. cbn. apply elem_of_app. right. left.
  - rewrite Hon. unfold unsubscribe. cbn [listeners setListeners].
    rewrite filter_app, filter_cons.
    destruct (decide (l ≠ l)) as [? | _]; [done |].
    rewrite filter_nil, app_nil_r.
    replace (filter (λ l0, l0 ≠ l) (listeners p)) with (listeners p).
    + by destruct p.
    + symmetry. clear -H. induction (listeners p) as [|x xs IH]; [done |].
      rewrite filter_cons.
      destruct (decide (x ≠ l)) as [_ | E].
      * f_equal. apply IH. intros Hin. apply H. by right.
      * exfalso. apply H. apply dec_stable in E as ->. left.
Qed.

Lemma listener_round_trip_witness :
  unsubscribe 8%nat (on 8%nat PlayerFixtures.readyPlayer)
  = PlayerFixtures.readyPlayer.
Proof.
  apply (listener_round_trip 8%nat PlayerFixtures.readyPlayer).
  intros Hin. apply list_elem_of_singleton in Hin. discriminate.
Defined.

(** X24. After [destroy] the controls that need the video element do
    nothing: [mute], [unmute], the start button and the Play and Pause
    keys leave the player and the trace as they are. *)
Theorem controls_after_destroy (amb : Ambient) (accepted : bool)
        (reason : string) (p : AdPlayer) (w w' : World) :
  let d := (destroy p w).1 in
  mute amb d w' = (d, w')
  ∧ unmute amb d w' = (d, w')
  ∧ onStartClick amb accepted reason d w' = (d, w')
  ∧ handleKeyAction amb accepted reason PlatformAdapter.Play d w'
    = (d, w', None)
  ∧ handleKeyAction amb accepted reason PlatformAdapter.Pause d w'
    = (d, w', None).
Proof.
  intros d. subst d. rewrite destroy_eq. cbn [fst].
  repeat split; reflexivity.
Qed.
End LifecycleFacts.

Section KeyFacts.
Import PlayerTypes Runtime AdPlayer AdPlayerProgress PlatformAdapter
       VASTParser.

Lemma property_elem (keyMap : PlatformKeyMap) (keyCode : Z) (action : KeyAction) :
  property keyMap keyCode = Some action → (keyCode, action) ∈ keyMap.
Proof.
  induction keyMap as [|[c a] km IH]; [done |].
  cbn [property]. destruct (property km keyCode) as [later|].
  - intros [= <-]. right. by apply IH.
  - destruct (c =? keyCode) eqn:E; [| done].
    intros [= <-]. apply Z.eqb_eq in E as <-. left.
Qed.

Lemma elem_of_insertBy {A : Type} (cmp : A → A → Z) (x y : A) (l : list A) :
  y ∈ insertBy cmp x l ↔ y = x ∨ y ∈ l.
Proof.
  induction l as [|z l IH]; cbn [insertBy].
  - rewrite list_elem_of_singleton. set_solver.
  - destruct (cmp x z <=? 0); [set_solver |].
    rewrite !elem_of_cons, IH. tauto.
Qed.

Lemma elem_of_sortBy {A : Type} (cmp : A → A → Z) (y : A) (l : list A) :
  y ∈ sortBy cmp l ↔ y ∈ l.
Proof.
  unfold sortBy. induction l as [|z l IH]; [done |].
  cbn [foldr]. rewrite elem_of_insertBy, IH, elem_of_cons. done.
Qed.

Lemma entries_spec (keyMap : PlatformKeyMap) (keyCode : Z) (action : KeyAction) :
  (keyCode, action) ∈ entries keyMap ↔ property keyMap keyCode = Some action.
Proof.
  unfold entries. rewrite list_elem_of_omap. split.
  - intros (c & _ & Hc). destruct (property keyMap c) as [a|] eqn:E; [| done].
    cbn in Hc. by injection Hc as -> ->.
  - intros H. exists keyCode. split; [| by rewrite H].
    apply elem_of_sortBy, elem_of_remove_dups.
    apply property_elem in H.
    by apply (list_elem_of_fmap_2 fst) in H.
Qed.

Lemma mapGet_mapSet (map : ReverseKeyMap) (a a' : KeyAction) (codes : list Z) :
  mapGet (mapSet map a codes) a'
  = if bool_decide (a = a') then Some codes else mapGet map a'.
Proof.
  induction map as [|[b old] map IH]; cbn [mapSet mapGet].
  - done.
  - destruct (decide (b = a)) as [-> | Hne].
    + rewrite bool_decide_eq_true_2 by done. cbn [mapGet].
      destruct (bool_decide (a = a')); done.
    + rewrite (bool_decide_eq_false_2 (b = a)) by done. cbn [mapGet].
      rewrite IH. destruct (decide (b = a')) as [-> | Hne'].
      * rewrite bool_decide_eq_true_2 by done.
        by rewrite bool_decide_eq_false_2 by done.
      * by rewrite (bool_decide_eq_false_2 (b = a')) by done.
Qed.

Lemma buildReverse_acc (es : list (Z * KeyAction)) :
  ∀ (acc : ReverseKeyMap) (a : KeyAction) (k : Z),
    k ∈ default []
          (mapGet
             (foldl (λ map '(keyCode, action),
                       let existing := default [] (mapGet map action) in
                       mapSet map action (existing ++ [keyCode]))
                    acc es) a)
    ↔ k ∈ default [] (mapGet acc a) ∨ (k, a) ∈ es.
Proof.
  induction es as [|[c b] es IH]; intros acc a k.
  - cbn. set_solver.
  - cbn [foldl]. rewrite IH, mapGet_mapSet, elem_of_cons.
    destruct (decide (b = a)) as [-> | Hne].
    + rewrite bool_decide_eq_true_2 by done. cbn [default]. unfold id.
      rewrite elem_of_app, list_elem_of_singleton.
      split; [intros [[?| ->] | ?] | intros [? | [[= -> ] | ?]]]; eauto.
    + rewrite bool_decide_eq_false_2 by done.
      split; [intros [? | ?] | intros [? | [[= _ E] | ?]]]; eauto.
      by destruct Hne.
Qed.

(** X25. The reverse key map agrees with the key map: a code is listed for
    an action exactly when [normalizeKeyCode] maps it to that action. *)
Theorem reverse_key_map_agrees (keyMap : PlatformKeyMap) (keyCode : Z)
        (action : KeyAction) :
  keyCode ∈ getKeyCodesForAction keyMap action
  ↔ normalizeKeyCode keyMap keyCode = Some action.
Proof.
  unfold getKeyCodesForAction, buildReverseKeyMap, normalizeKeyCode.
  rewrite buildReverse_acc, entries_spec. cbn. set_solver.
Qed.

Lemma enter_is_13 (platform : Platform) (keyCode : Z) :
  (keyCode, Enter) ∈ DEFAULT_KEY_CODES platform → keyCode = 13.
Proof.
  intros H.
  destruct platform; cbn in H;
    repeat (apply elem_of_cons in H as [H | H]; [congruence |]);
    by apply elem_of_nil in H.
Qed.

(** X26. On every platform key 13 is Enter and no other key is: through
    the key handler a key other than 13 cannot start or skip the ad.
    It leaves the player and the trace as they are; at most it plays
    or pauses the video. *)
Theorem only_enter_acts (amb : Ambient) (accepted : bool) (reason : string)
        (platform : Platform) (keyCode : Z) (p : AdPlayer) (w : World) :
  keyCode ≠ 13 →
  normalizeKeyCode (DEFAULT_KEY_CODES platform) 13 = Some Enter
  ∧ ∃ command,
      onKeyDown amb accepted reason (DEFAULT_KEY_CODES platform) keyCode p w
      = (p, w, command).
Proof.
  intros Hne. split; [by destruct platform |].
  unfold onKeyDown.
  destruct (normalizeKeyCode (DEFAULT_KEY_CODES platform) keyCode)
    as [a|] eqn:E; [| by exists None].
  destruct (decide (a = Enter)) as [-> | Ha].
  - apply property_elem, enter_is_13 in E. done.
  - destruct a; try done; cbn [handleKeyAction]; eauto.
Qed.

Lemma only_enter_acts_witness :
  ∃ command,
    onKeyDown PlayerFixtures.testAmbient true "" (DEFAULT_KEY_CODES Tizen)
      10009 ExtraFixtures.skippablePlayer initialWorld
    = (ExtraFixtures.skippablePlayer, initialWorld, command).
Proof.
  apply (only_enter_acts PlayerFixtures.testAmbient true "" Tizen 10009
           ExtraFixtures.skippablePlayer initialWorld).
  discriminate.
Defined.
End KeyFacts.

Section PlayheadFacts.
Import Js Num Macros VASTParser ExtraSpec.

Lemma digits_fold (l : list ascii) (acc : Z) :
  fold_left (λ acc c, 10 * acc + (Z.of_N (N_of_ascii c) - 48)) l acc
  = acc * 10 ^ Z.of_nat (length l)
    + fold_left (λ acc c, 10 * acc + (Z.of_N (N_of_ascii c) - 48)) l 0.
Proof.
  revert acc. induction l as [|c l IH]; intros acc.
  - cbn. lia.
  - cbn [fold_left length]. rewrite IH, (IH (10 * 0 + _)).
    rewrite Nat2Z.inj_succ, Z.pow_succ_r by lia. lia.
Qed.

Lemma digitsValue_cons (c : ascii) (s : string) :
  digitsValue (String c s)
  = (Z.of_N (N_of_ascii c) - 48) * 10 ^ Z.of_nat (String.length s)
    + digitsValue s.
Proof.
  unfold digitsValue. cbn [list_ascii_of_string fold_left].
  rewrite digits_fold.
  assert (length (list_ascii_of_string s) = String.length s) as ->.
  { clear. induction s as [|a s IH]; [done |]. cbn. by rewrite IH. }
  lia.
Qed.

Lemma pretty_N_char_digit (x : N) :
  (x < 10)%N →
  isDigit (pretty_N_char x) = true
  ∧ Z.of_N (N_of_ascii (pretty_N_char x)) - 48 = Z.of_N x.
Proof.
  intros H.
  assert (x = 0 ∨ x = 1 ∨ x = 2 ∨ x = 3 ∨ x = 4 ∨ x = 5 ∨ x = 6
          ∨ x = 7 ∨ x = 8 ∨ x = 9)%N as Hx by lia.
  repeat (destruct Hx as [-> | Hx]; [done |]). by subst.
Qed.

Lemma pretty_N_go_digits (x : N) :
  ∀ s, allDigits s = true →
       allDigits (pretty_N_go x s) = true
       ∧ digitsValue (pretty_N_go x s)
         = Z.of_N x * 10 ^ Z.of_nat (String.length s) + digitsValue s.
Proof.
  induction (N.lt_wf_0 x) as [x _ IH]. intros s Hs.
  destruct (decide (x = 0)%N) as [-> | Hx].
  - rewrite pretty_N_go_0. split; [done | lia].
  - rewrite pretty_N_go_step by lia.
    destruct (pretty_N_char_digit (x `mod` 10)) as [Hd Hv].
    { apply N.mod_lt. lia. }
    destruct (IH (x `div` 10)%N) with
      (s := String (pretty_N_char (x `mod` 10)) s) as [H1 H2].
    { apply N.div_lt; lia. }
    { cbn [allDigits]. by rewrite Hd, Hs. }
    split; [done |]. rewrite H2, digitsValue_cons, Hv.
    cbn [String.length]. rewrite Nat2Z.inj_succ, Z.pow_succ_r by lia.
    rewrite (N.div_mod x 10) at 3 by lia.
    rewrite N2Z.inj_add, N2Z.inj_mul. change (Z.of_N 10) with 10. lia.
Qed.

Lemma pretty_Z_digits (n : Z) :
  0 <= n → isDigits (pretty n) = true ∧ digitsValue (pretty n) = n.
Proof.
  intros Hn. destruct n as [|p|p]; [done | | lia].
  unfold pretty, pretty_Z, pretty, pretty_positive, pretty, pretty_N.
  destruct (decide (N.pos p = 0)%N) as [? | _]; [done |].
  destruct (pretty_N_go_digits (N.pos p) "" eq_refl) as [H1 H2].
  split.
  - destruct (pretty_N_go (N.pos p) "") eqn:E; [| done].
    cbn in H2. lia.
  - rewrite H2. cbn. lia.
Qed.

Lemma zeros_digits (k : nat) (s : string) :
  isDigits s = true →
  isDigits (String.concat "" (replicate k "0") +:+ s) = true
  ∧ digitsValue (String.concat "" (replicate k "0") +:+ s) = digitsValue s.
Proof.
  intros Hs. induction k as [|k [IH1 IH2]].
  - cbn [replicate String.concat]. by rewrite str_app_nil_l.
  - assert (String.concat "" (replicate (S k) "0") +:+ s
            = String "0" (String.concat "" (replicate k "0") +:+ s)) as ->.
    { cbn [replicate]. destruct k; [done |].
      cbn [replicate String.concat]. rewrite str_app_nil_l.
      by rewrite !str_app_cons, str_app_nil_l. }
    split.
    + cbn [isDigits allDigits]. apply isDigits_allDigits in IH1.
      by rewrite IH1.
    + rewrite digitsValue_cons, IH2. cbn. lia.
Qed.

Lemma padStart0_digits (k : nat) (n : Z) :
  0 <= n →
  isDigits (padStart0 k (pretty n)) = true
  ∧ digitsValue (padStart0 k (pretty n)) = n.
Proof.
  intros Hn. destruct (pretty_Z_digits n Hn) as [H1 H2].
  unfold padStart0.
  destruct (zeros_digits (k - String.length (pretty n)) (pretty n) H1)
    as [H3 H4].
  split; [done | by rewrite H4].
Qed.

Lemma trunc_whole (n : Z) (m : positive) :
  0 <= n → trunc (inject_Z n / inject_Z (Zpos m)) = n / Zpos m.
Proof.
  intros Hn. unfold trunc. cbn.
  rewrite Z.mul_1_r. apply Z.quot_div_nonneg; lia.
Qed.

Lemma rem_whole (n : Z) (m : positive) :
  0 <= n → (rem (inject_Z n) (inject_Z (Zpos m)) == inject_Z (n mod Zpos m))%Q.
Proof.
  intros Hn. unfold rem. rewrite trunc_whole by done.
  rewrite Z.mod_eq by lia.
  unfold Z.sub. rewrite inject_Z_plus, inject_Z_opp, inject_Z_mult. ring.
Qed.

Lemma formatPlayhead_eq (n : Z) :
  0 <= n →
  formatPlayhead (inject_Z n)
  = padStart0 2 (pretty (n / 3600)) +:+ ":" +:+
    padStart0 2 (pretty (n mod 3600 / 60)) +:+ ":" +:+
    padStart0 2 (pretty (n mod 60)) +:+ "." +:+ "000".
Proof.
  intros Hn. unfold formatPlayhead.
  change 3600%Q with (inject_Z 3600). change 60%Q with (inject_Z 60).
  change 1%Q with (inject_Z 1). change 1000%Q with (inject_Z 1000).
  rewrite !rem_whole by done.
  rewrite <- !Zdiv_Qdiv, Qfloor_Z.
  rewrite Z.mod_1_r. change (inject_Z 0 * inject_Z 1000)%Q with 0%Q.
  reflexivity.
Qed.

(** X27. For a whole number of seconds below 2^53, where whole numbers
    are exact, [formatPlayhead] writes the hours, the minutes below 60
    and the seconds below 60, each padded to two digits (the hours are
    not cut at 99), and [.000]. *)
Theorem formatPlayhead_whole_seconds (n : Z) :
  0 <= n < 2 ^ 53 →
  formatPlayhead (inject_Z n)
  = padStart0 2 (pretty (n / 3600)) +:+ ":" +:+
    padStart0 2 (pretty (n mod 3600 / 60)) +:+ ":" +:+
    padStart0 2 (pretty (n mod 60)) +:+ "." +:+ "000".
Proof. intros [Hn _]. by apply formatPlayhead_eq. Qed.

Lemma formatPlayhead_whole_seconds_witness :
  formatPlayhead (inject_Z 5445)
  = padStart0 2 (pretty (5445 / 3600)) +:+ ":" +:+
    padStart0 2 (pretty (5445 mod 3600 / 60)) +:+ ":" +:+
    padStart0 2 (pretty (5445 mod 60)) +:+ "." +:+ "000".
Proof. apply formatPlayhead_whole_seconds. lia. Defined.

(** X28. What [formatPlayhead] writes for a whole number of seconds
    below 2^53, where whole numbers are exact, [parseDuration] reads
    back as that number. *)
Theorem playhead_round_trip (n : Z) :
  0 <= n < 2 ^ 53 →
  parseDuration (VStr (formatPlayhead (inject_Z n))) = Fin (inject_Z n).
Proof.
  intros [Hn _]. rewrite formatPlayhead_eq by done.
  destruct (padStart0_digits 2 (n / 3600)) as [H1 V1];
    [apply Z.div_pos; lia |].
  destruct (padStart0_digits 2 (n mod 3600 / 60)) as [H2 V2].
  { apply Z.div_pos; [| lia]. apply Z.mod_pos_bound. lia. }
  destruct (padStart0_digits 2 (n mod 60)) as [H3 V3].
  { apply Z.mod_pos_bound. lia. }
  rewrite parseDuration_hms_fraction by done.
  rewrite V1, V2, V3. f_equal. apply Qred_inject_Z.
  change (inject_Z (digitsValue "000")) with 0%Q.
  assert (3600 * (n / 3600) + 60 * (n mod 3600 / 60) + n mod 60 = n) as ->.
  { pose proof (Z.div_mod n 3600 ltac:(lia)) as E1.
    pose proof (Z.div_mod (n mod 3600) 60 ltac:(lia)) as E2.
    pose proof (Z.mod_pos_bound (n mod 3600) 60 ltac:(lia)) as B2.
    assert (n mod 60 = (n mod 3600) mod 60) as ->; [| lia].
    symmetry. apply (Z.mod_unique n 60 (60 * (n / 3600) + n mod 3600 / 60));
      [left; lia | lia]. }
  unfold Qdiv. ring.
Qed.

Lemma playhead_round_trip_witness :
  parseDuration (VStr (formatPlayhead (inject_Z 5445))) = Fin (inject_Z 5445).
Proof. apply playhead_round_trip. lia. Defined.
End PlayheadFacts.

Section InitMoreFacts.
Import Vast PlayerTypes Runtime AdPlayer PlayerSpec ExtraSpec.

Lemma initBody_failure (host : VASTParser.Host) (amb : Ambient)
      (accepted : bool) (p p' : AdPlayer) (w w' : World) (e : AdError) :
  tracker p = None →
  initBody host amb accepted (setState (withStatus Loading (state p)) p) w
  = (Some e, (p', w')) →
  tracker p' = None →
  pixels (trace w') = pixels (trace w) →
  initFailsWith host amb accepted p w e.
Proof.
  intros Ht Hbody Ht' Hpx. unfold initFailsWith, init.
  rewrite andThen_eq. unfold updateState. cbn [fst snd]. rewrite Hbody.
  rewrite (handleError_without_tracker amb e p' w' Ht').
  cbn [fst snd state setState tracker trace].
  repeat split; [done |].
  by rewrite pixels_app, pixels_announce, app_nil_r.
Qed.

(** X29. When the document resolves but holds nothing to play, [init] stops
    with a code of its own: 303 for a document without Ad, 400 when
    no Ad has a Linear creative, 401 when the first Linear has no
    media file.  In each case no tracker exists yet and no error
    pixel is fired. *)
Theorem init_failure_ladder (host : VASTParser.Host) (amb : Ambient)
        (accepted : bool) (p : AdPlayer) (w : World)
        (fetched : list string) (resp : VASTResponse) :
  tracker p = None →
  VASTParser.parse host (parser p) (vastUrl (config p))
  = (fetched, succeeded resp) →
  (Vast.ads resp = [] →
   initFailsWith host amb accepted p w
     (createError 303 "No ads in VAST response"))
  ∧ (Vast.ads resp ≠ [] →
     getFirstLinearCreative (setAds (Vast.ads resp) p) = None →
     initFailsWith host amb accepted p w
       (createError 400 "No linear creative found"))
  ∧ (∀ linear,
       Vast.ads resp ≠ [] →
       getFirstLinearCreative (setAds (Vast.ads resp) p) = Some linear →
       mediaFiles linear = [] →
       initFailsWith host amb accepted p w
         (createError 401 "No suitable media file found")).
Proof.
  intros Ht Hparse.
  assert (∀ urls, pixels (trace (performAll (Fetched <$> urls) w))
                  = pixels (trace w)) as Hpx.
  { intros urls. cbn. by rewrite pixels_app, pixels_fetched, app_nil_r. }
  split; [| split].
  - intros Hads.
    eapply initBody_failure; [done | | | apply (Hpx fetched)].
    + unfold initBody. cbn [config parser setState]. rewrite Hparse.
      cbn [succeeded VASTParser.success VASTParser.response].
      rewrite Hads. reflexivity.
    + done.
  - intros Hads Hlin.
    destruct (Vast.ads resp) as [|ad rest] eqn:E; [done |].
    eapply initBody_failure; [done | | | apply (Hpx fetched)].
    + unfold initBody. cbn [config parser setState]. rewrite Hparse.
      cbn [succeeded VASTParser.success VASTParser.response].
      rewrite E. cbn [ads setAds length Nat.eqb].
      change (getFirstLinearCreative
                (setAds (ad :: rest) (setState (withStatus Loading (state p)) p)))
        with (getFirstLinearCreative (setAds (ad :: rest) p)).
      rewrite Hlin. reflexivity.
    + done.
  - intros linear Hads Hlin Hmf.
    destruct (Vast.ads resp) as [|ad rest] eqn:E; [done |].
    eapply initBody_failure; [done | | | apply (Hpx fetched)].
    + unfold initBody. cbn [config parser setState]. rewrite Hparse.
      cbn [succeeded VASTParser.success VASTParser.response].
      rewrite E. cbn [ads setAds length Nat.eqb].
      change (getFirstLinearCreative
                (setAds (ad :: rest) (setState (withStatus Loading (state p)) p)))
        with (getFirstLinearCreative (setAds (ad :: rest) p)).
      rewrite Hlin, Hmf. reflexivity.
    + done.
Qed.

Lemma init_failure_ladder_witness :
  initFailsWith Fixtures.testHost PlayerFixtures.testAmbient true
    (construct (PlayerFixtures.configFor "https://example.com/empty.xml"))
    initialWorld (createError 303 "No ads in VAST response").
Proof.
  refine (proj1 (init_failure_ladder Fixtures.testHost
                   PlayerFixtures.testAmbient true
                   (construct (PlayerFixtures.configFor
                                 "https://example.com/empty.xml"))
                   initialWorld ["https://example.com/empty.xml"]
                   (responseOf (Fixtures.vastOf []) []) _ _) _);
    reflexivity.
Defined.

(** X30. A media error after the tracker exists is reported in this order:
    one error pixel per error URL of every Ad, expanded with code 403,
    then the [error] event to each listener, then the [onError]
    callback; the message is the element's, or a fixed text when it
    has none. *)
Theorem onVideoError_reports (amb : Ambient) (message : option string)
        (p : AdPlayer) (t : AdTracker.AdTracker) (w : World) :
  tracker p = Some t →
  let err := createError 403 (default "Video playback error"
                                (Macros.truthyStr message)) in
  let r := onVideoError amb message p w in
  status (state r.1) = Error
  ∧ error (state r.1) = Some err
  ∧ trace r.2
    = trace w
      ++ (FirePixel <$>
            TrackerSpec.expandAll amb
              (errorContext (AdTracker.macroContext t) 403) (reads w)
              (concat (map errors (ads p))))
      ++ ((λ l, Notify l (EvError err)) <$> listeners p)
      ++ (if onError (config p) then [Callback (OnError err)] else []).
Proof.
  intros Ht err r. subst r.
  change (onVideoError amb message p w) with (handleError amb err p w).
  rewrite (handleError_with_tracker amb err p t w Ht).
  done.
Qed.

Lemma onVideoError_reports_witness :
  status (state (onVideoError PlayerFixtures.testAmbient None
                   PlayerFixtures.readyPlayer initialWorld).1) = Error.
Proof.
  apply (onVideoError_reports PlayerFixtures.testAmbient None
           PlayerFixtures.readyPlayer
           (AdTracker.mkAdTracker
              (AdTracker.groupEventsByType
                 (Vast.trackingEvents Fixtures.simpleLinear))
              ∅
              (Macros.mkMacroContext (Some "https://example.com/video.mp4")
                 None None None None None))
           initialWorld).
  reflexivity.
Defined.
End InitMoreFacts.
